(** * makrukops: bitboards, attack tables, board and position rules

    A shallow embedding of [squareSet.ts], [attacks.ts], [board.ts], [util.ts]
    and [makruk.ts], followed by the properties of the specification that
    were settled against it.

    JavaScript numbers are modelled by [Z]; the 32-bit conversions the
    bitwise operators apply to their operands are written out.  A thrown
    exception is the [Throw] outcome of the monad [M]; an [undefined] value
    is [None]. *)

From Stdlib Require Import ZArith List Bool Lia FinFun.
Import ListNotations.
Local Open Scope Z_scope.

(* ===================================================================== *)
(** ** JavaScript integer operators *)
(* ===================================================================== *)

Module JS.

(** ToUint32 and ToInt32 of ECMAScript, on integers. *)
Definition toUint32 (x : Z) : Z := x mod 4294967296.
Definition toInt32 (x : Z) : Z := (x + 2147483648) mod 4294967296 - 2147483648.

(** [a & b], [a | b], [a ^ b], [~a] *)
Definition and (a b : Z) : Z := Z.land (toInt32 a) (toInt32 b).
Definition or (a b : Z) : Z := Z.lor (toInt32 a) (toInt32 b).
Definition xor (a b : Z) : Z := Z.lxor (toInt32 a) (toInt32 b).
Definition not (a : Z) : Z := Z.lnot (toInt32 a).

(** [a << n], [a >> n], [a >>> n]: the shift count is taken modulo 32. *)
Definition shl (a n : Z) : Z := toInt32 (Z.shiftl (toInt32 a) (n mod 32)).
Definition shr (a n : Z) : Z := Z.shiftr (toInt32 a) (n mod 32).
Definition ushr (a n : Z) : Z := Z.shiftr (toUint32 a) (n mod 32).

(** [Math.clz32] *)
Definition clz32 (x : Z) : Z :=
  let u := toUint32 x in if u =? 0 then 32 else 31 - Z.log2 u.

(** Truthiness of a number: [!!x], [if (x)]. *)
Definition truthy (x : Z) : bool := negb (x =? 0).

End JS.

(* ===================================================================== *)
(** ** Exceptions and results *)
(* ===================================================================== *)

(** [enum IllegalSetup] of makruk.ts *)
Inductive IllegalSetup : Type :=
| Empty | OppositeCheck | PawnsOnBackrank | Kings | Variant.

(** [class PositionError extends Error]: built with an [IllegalSetup] tag
    as its message. *)
Inductive PositionError : Type := mkPositionError (tag : IllegalSetup).

(** What a JavaScript call can throw here: the [TypeError] of a property
    access on [undefined], or an [Error] object such as [PositionError]. *)
Inductive exn : Type :=
| TypeError
| ThrownError (e : PositionError).

(** Outcome of a call: a value or a thrown exception. *)
Inductive M (A : Type) : Type :=
| Ret (a : A)
| Throw (e : exn).
Arguments Ret {A} a.
Arguments Throw {A} e.

Definition bind {A B : Type} (m : M A) (f : A -> M B) : M B :=
  match m with
  | Ret a => f a
  | Throw e => Throw e
  end.

Notation "x <- m ;; k" := (bind m (fun x => k))
  (at level 61, m at next level, right associativity).
Notation "' p <- m ;; k" := (bind m (fun x => let p := x in k))
  (at level 61, p pattern, m at next level, right associativity).

(** Dereferencing a value that may be [undefined]. *)
Definition deref {A : Type} (o : option A) : M A :=
  match o with
  | Some a => Ret a
  | None => Throw TypeError
  end.

(** [Result<T, E>] of @badrap/result, as far as the code uses it. *)
Inductive Result (T E : Type) : Type :=
| Ok (t : T)
| Err (e : E).
Arguments Ok {T E} t.
Arguments Err {T E} e.

Definition Result_map {T U E : Type} (f : T -> U) (r : Result T E) : Result U E :=
  match r with
  | Ok t => Ok (f t)
  | Err e => Err e
  end.

(* ===================================================================== *)
(** ** types.ts and util.ts *)
(* ===================================================================== *)

Module Types.

Definition Square : Type := Z.

Inductive Color : Type := white | black.

Inductive Role : Type :=
| pawn | promotedpawn | knight | bishop | rook | queen | king.

Definition COLORS : list Color := [white; black].
Definition ROLES : list Role :=
  [pawn; promotedpawn; knight; bishop; rook; queen; king].

Definition Color_eqb (a b : Color) : bool :=
  match a, b with
  | white, white | black, black => true
  | _, _ => false
  end.

Definition Role_eqb (a b : Role) : bool :=
  match a, b with
  | pawn, pawn | promotedpawn, promotedpawn | knight, knight
  | bishop, bishop | rook, rook | queen, queen | king, king => true
  | _, _ => false
  end.

(** [interface Piece].  [role] is [None] when [Board.get] found a colour
    but no role set holding the square (its [getRole(square)!]);
    [promoted] is [None] when the property is absent. *)
Record Piece : Type := mkPiece {
  role : option Role;
  color : Color;
  promoted : option bool
}.

(** [interface Move] *)
Record Move : Type := mkMove {
  from : Square;
  to : Square;
  promotion : option Role
}.

(** [interface Outcome] *)
Record Outcome : Type := mkOutcome { winner : option Color }.

End Types.
Import Types.

Definition opposite (c : Color) : Color :=
  match c with white => black | black => white end.

Definition squareRank (square : Square) : Z := JS.shr square 3.
Definition squareFile (square : Square) : Z := JS.and square 7.

(* ===================================================================== *)
(** ** squareSet.ts *)
(* ===================================================================== *)

Definition popcnt32 (n : Z) : Z :=
  let n := n - JS.and (JS.ushr n 1) 0x55555555 in
  let n := JS.and n 0x33333333 + JS.and (JS.ushr n 2) 0x33333333 in
  JS.shr (JS.and (n + JS.ushr n 4) 0xf0f0f0f * 0x1010101) 24.

Definition bswap32 (n : Z) : Z :=
  let n := JS.or (JS.and (JS.ushr n 8) 0x00ff00ff) (JS.shl (JS.and n 0x00ff00ff) 8) in
  JS.or (JS.and (JS.ushr n 16) 0xffff) (JS.shl (JS.and n 0xffff) 16).

Definition rbit32 (n : Z) : Z :=
  let n := JS.or (JS.and (JS.ushr n 1) 0x55555555) (JS.shl (JS.and n 0x55555555) 1) in
  let n := JS.or (JS.and (JS.ushr n 2) 0x33333333) (JS.shl (JS.and n 0x33333333) 2) in
  let n := JS.or (JS.and (JS.ushr n 4) 0x0f0f0f0f) (JS.shl (JS.and n 0x0f0f0f0f) 4) in
  let n := JS.or (JS.and (JS.ushr n 8) 0x00ff00ff) (JS.shl (JS.and n 0x00ff00ff) 8) in
  let n := JS.or (JS.and (JS.ushr n 16) 0x0000ffff) (JS.shl (JS.and n 0x0000ffff) 16) in
  n.

Module SquareSet.

(** The two 32-bit halves.  Every set the code builds goes through the
    constructor [new], which stores [lo | 0] and [hi | 0]. *)
Record t : Type := mk { lo : Z; hi : Z }.

Definition new (lo hi : Z) : t := mk (JS.toInt32 lo) (JS.toInt32 hi).

Definition fromSquare (square : Square) : t :=
  if 32 <=? square
  then new 0 (JS.shl 1 (square - 32))
  else new (JS.shl 1 square) 0.

Definition empty : t := new 0 0.
Definition full : t := new 0xffffffff 0xffffffff.
Definition corners : t := new 0x81 0x81000000.
Definition center : t := new 0x18000000 0x18.
Definition backranks : t := new 0xff 0xff000000.
Definition backrank (c : Color) : t :=
  match c with white => new 0xff 0 | black => new 0 0xff000000 end.
Definition lightSquares : t := new 0x55aa55aa 0x55aa55aa.
Definition darkSquares : t := new 0xaa55aa55 0xaa55aa55.

Definition complement (s : t) : t := new (JS.not (lo s)) (JS.not (hi s)).
Definition xor (s other : t) : t :=
  new (JS.xor (lo s) (lo other)) (JS.xor (hi s) (hi other)).
Definition union (s other : t) : t :=
  new (JS.or (lo s) (lo other)) (JS.or (hi s) (hi other)).
Definition intersect (s other : t) : t :=
  new (JS.and (lo s) (lo other)) (JS.and (hi s) (hi other)).
Definition diff (s other : t) : t :=
  new (JS.and (lo s) (JS.not (lo other))) (JS.and (hi s) (JS.not (hi other))).

Definition isEmpty (s : t) : bool := (lo s =? 0) && (hi s =? 0).
Definition nonEmpty (s : t) : bool := negb (lo s =? 0) || negb (hi s =? 0).

Definition intersects (s other : t) : bool := nonEmpty (intersect s other).
Definition isDisjoint (s other : t) : bool := isEmpty (intersect s other).
Definition supersetOf (s other : t) : bool := isEmpty (diff other s).
Definition subsetOf (s other : t) : bool := isEmpty (diff s other).

Definition shr64 (s : t) (shift : Z) : t :=
  if 64 <=? shift then empty
  else if 32 <=? shift then new (JS.ushr (hi s) (shift - 32)) 0
  else if 0 <? shift
       then new (JS.xor (JS.ushr (lo s) shift) (JS.shl (hi s) (32 - shift)))
                (JS.ushr (hi s) shift)
  else s.

Definition shl64 (s : t) (shift : Z) : t :=
  if 64 <=? shift then empty
  else if 32 <=? shift then new 0 (JS.shl (lo s) (shift - 32))
  else if 0 <? shift
       then new (JS.shl (lo s) shift)
                (JS.xor (JS.shl (hi s) shift) (JS.ushr (lo s) (32 - shift)))
  else s.

Definition fromRank (rank : Z) : t := shl64 (new 0xff 0) (8 * rank).
Definition fromFile (file : Z) : t :=
  new (JS.shl 0x01010101 file) (JS.shl 0x01010101 file).

Definition bswap64 (s : t) : t := new (bswap32 (hi s)) (bswap32 (lo s)).
Definition rbit64 (s : t) : t := new (rbit32 (hi s)) (rbit32 (lo s)).

Definition equals (s other : t) : bool :=
  (lo s =? lo other) && (hi s =? hi other).

Definition size (s : t) : Z := popcnt32 (lo s) + popcnt32 (hi s).

Definition has (s : t) (square : Square) : bool :=
  JS.truthy (if 32 <=? square
             then JS.and (hi s) (JS.shl 1 (square - 32))
             else JS.and (lo s) (JS.shl 1 square)).

Definition with_ (s : t) (square : Square) : t :=
  if 32 <=? square
  then new (lo s) (JS.or (hi s) (JS.shl 1 (square - 32)))
  else new (JS.or (lo s) (JS.shl 1 square)) (hi s).

Definition without (s : t) (square : Square) : t :=
  if 32 <=? square
  then new (lo s) (JS.and (hi s) (JS.not (JS.shl 1 (square - 32))))
  else new (JS.and (lo s) (JS.not (JS.shl 1 square))) (hi s).

Definition set (s : t) (square : Square) (on : bool) : t :=
  if on then with_ s square else without s square.

Definition toggle (s : t) (square : Square) : t :=
  if 32 <=? square
  then new (lo s) (JS.xor (hi s) (JS.shl 1 (square - 32)))
  else new (JS.xor (lo s) (JS.shl 1 square)) (hi s).

Definition last (s : t) : option Square :=
  if negb (hi s =? 0) then Some (63 - JS.clz32 (hi s))
  else if negb (lo s =? 0) then Some (31 - JS.clz32 (lo s))
  else None.

Definition first (s : t) : option Square :=
  if negb (lo s =? 0) then Some (31 - JS.clz32 (JS.and (lo s) (- lo s)))
  else if negb (hi s =? 0) then Some (63 - JS.clz32 (JS.and (hi s) (- hi s)))
  else None.

(** [(this.hi && this.lo) || this.lo & (this.lo - 1) || this.hi & (this.hi - 1)],
    made a boolean by [!!]. *)
Definition moreThanOne (s : t) : bool :=
  JS.truthy (if JS.truthy (hi s) then lo s else hi s)
  || JS.truthy (JS.and (lo s) (lo s - 1))
  || JS.truthy (JS.and (hi s) (hi s - 1)).

Definition singleSquare (s : t) : option Square :=
  if moreThanOne s then None else last s.

Definition isSingleSquare (s : t) : bool := nonEmpty s && negb (moreThanOne s).

(** The iterator of [Symbol.iterator]: [next] is called until it reports
    [done]; each call clears the lowest set bit of its private copy of
    [lo], then of [hi].  A 64-bit set needs at most 64 calls before the
    one that reports [done], which the fuel bounds. *)
Fixpoint iterate (fuel : nat) (lo hi : Z) : list Square :=
  match fuel with
  | O => []
  | S fuel' =>
      if JS.truthy lo then
        let idx := 31 - JS.clz32 (JS.and lo (- lo)) in
        idx :: iterate fuel' (JS.xor lo (JS.shl 1 idx)) hi
      else if JS.truthy hi then
        let idx := 31 - JS.clz32 (JS.and hi (- hi)) in
        (32 + idx) :: iterate fuel' lo (JS.xor hi (JS.shl 1 idx))
      else []
  end.

Definition squares (s : t) : list Square := iterate 64 (lo s) (hi s).

(** Modelled from the spec: [withoutFirst] is called by [between] in
    attacks.ts but is not among the methods of squareSet.ts under src/;
    the specification describes it as the set "with the first member
    removed".  Clearing the lowest set bit of [lo], or of [hi] when [lo]
    is zero, does that on the split representation. *)
Definition withoutFirst (s : t) : t :=
  if negb (lo s =? 0)
  then new (JS.and (lo s) (lo s - 1)) (hi s)
  else new 0 (JS.and (hi s) (hi s - 1)).

Definition minus64 (s other : t) : t :=
  let lo' := lo s - lo other in
  let c := JS.ushr (JS.and (JS.and lo' (lo other)) 1
                    + JS.ushr (lo other) 1 + JS.ushr lo' 1) 31 in
  new lo' (hi s - (hi other + c)).

(** The sets the constructor can produce: both halves are int32. *)
Definition wf (s : t) : bool :=
  (lo s =? JS.toInt32 (lo s)) && (hi s =? JS.toInt32 (hi s)).

(** The set read as one unsigned 64-bit integer, [lo + 2^32 * hi] with
    both halves taken unsigned. *)
Definition toU64 (s : t) : Z :=
  JS.toUint32 (lo s) + 4294967296 * JS.toUint32 (hi s).

End SquareSet.


(* ===================================================================== *)
(** ** attacks.ts *)
(* ===================================================================== *)

(** [BySquare<T>]: an array indexed by square. *)
Definition BySquare (T : Type) : Type := list T.

(** [table[square]]: [undefined] outside the indices the array holds. *)
Definition index {T : Type} (table : BySquare T) (square : Square) : option T :=
  if square <? 0 then None else nth_error table (Z.to_nat square).

Definition computeRange (square : Square) (deltas : list Z) : SquareSet.t :=
  fold_left
    (fun range delta =>
       let sq := square + delta in
       if (0 <=? sq) && (sq <? 64)
          && (Z.abs (squareFile square - squareFile sq) <=? 2)
       then SquareSet.with_ range sq
       else range)
    deltas SquareSet.empty.

(** [for (let square = 0; square < 64; square++) table[square] = f(square)] *)
Definition tabulate {T : Type} (f : Square -> T) : BySquare T :=
  map (fun n => f (Z.of_nat n)) (seq 0 64).

Definition KING_ATTACKS : BySquare SquareSet.t :=
  Eval vm_compute in tabulate (fun sq => computeRange sq [-9; -8; -7; -1; 1; 7; 8; 9]).
Definition QUEEN_ATTACKS : BySquare SquareSet.t :=
  Eval vm_compute in tabulate (fun sq => computeRange sq [-9; -7; 7; 9]).
Definition KNIGHT_ATTACKS : BySquare SquareSet.t :=
  Eval vm_compute in tabulate (fun sq => computeRange sq [-17; -15; -10; -6; 6; 10; 15; 17]).
Definition BISHOP_ATTACKS_white : BySquare SquareSet.t :=
  Eval vm_compute in tabulate (fun sq => computeRange sq [-7; -9; 7; 8; 9]).
Definition BISHOP_ATTACKS_black : BySquare SquareSet.t :=
  Eval vm_compute in tabulate (fun sq => computeRange sq [-7; -8; -9; 7; 9]).
Definition BISHOP_ATTACKS (c : Color) : BySquare SquareSet.t :=
  match c with
  | white => BISHOP_ATTACKS_white
  | black => BISHOP_ATTACKS_black
  end.
Definition PAWN_ATTACKS_white : BySquare SquareSet.t :=
  Eval vm_compute in tabulate (fun sq => computeRange sq [7; 9]).
Definition PAWN_ATTACKS_black : BySquare SquareSet.t :=
  Eval vm_compute in tabulate (fun sq => computeRange sq [-7; -9]).
Definition PAWN_ATTACKS (c : Color) : BySquare SquareSet.t :=
  match c with
  | white => PAWN_ATTACKS_white
  | black => PAWN_ATTACKS_black
  end.

(** The table functions return what the array holds, [undefined] included;
    the exception comes when the caller uses the result. *)
Definition kingAttacks (square : Square) : option SquareSet.t :=
  index KING_ATTACKS square.
Definition queenAttacks (square : Square) : option SquareSet.t :=
  index QUEEN_ATTACKS square.
Definition knightAttacks (square : Square) : option SquareSet.t :=
  index KNIGHT_ATTACKS square.
Definition bishopAttacks (c : Color) (square : Square) : option SquareSet.t :=
  index (BISHOP_ATTACKS c) square.
Definition pawnAttacks (c : Color) (square : Square) : option SquareSet.t :=
  index (PAWN_ATTACKS c) square.

Definition FILE_RANGE : BySquare SquareSet.t :=
  Eval vm_compute in
    tabulate (fun sq => SquareSet.without (SquareSet.fromFile (squareFile sq)) sq).
Definition RANK_RANGE : BySquare SquareSet.t :=
  Eval vm_compute in
    tabulate (fun sq => SquareSet.without (SquareSet.fromRank (squareRank sq)) sq).

Definition hyperbola (bit range occupied : SquareSet.t) : SquareSet.t :=
  let forward := SquareSet.intersect occupied range in
  let reverse := SquareSet.bswap64 forward in
  let forward := SquareSet.minus64 forward bit in
  let reverse := SquareSet.minus64 reverse (SquareSet.bswap64 bit) in
  SquareSet.intersect (SquareSet.xor forward (SquareSet.bswap64 reverse)) range.

(** [hyperbola] reads [range.lo] first: an [undefined] range throws there. *)
Definition fileAttacks (square : Square) (occupied : SquareSet.t) : M SquareSet.t :=
  range <- deref (index FILE_RANGE square) ;;
  Ret (hyperbola (SquareSet.fromSquare square) range occupied).

Definition rankAttacks (square : Square) (occupied : SquareSet.t) : M SquareSet.t :=
  range <- deref (index RANK_RANGE square) ;;
  let forward := SquareSet.intersect occupied range in
  let reverse := SquareSet.rbit64 forward in
  let forward := SquareSet.minus64 forward (SquareSet.fromSquare square) in
  let reverse := SquareSet.minus64 reverse (SquareSet.fromSquare (63 - square)) in
  Ret (SquareSet.intersect (SquareSet.xor forward (SquareSet.rbit64 reverse)) range).

Definition rookAttacks (square : Square) (occupied : SquareSet.t) : M SquareSet.t :=
  f <- fileAttacks square occupied ;;
  r <- rankAttacks square occupied ;;
  Ret (SquareSet.xor f r).

(** The dispatch returns the table entry as it is for the stepping
    pieces, so its result may be [undefined]. *)
Definition attacks (piece : Piece) (square : Square) (occupied : SquareSet.t)
  : M (option SquareSet.t) :=
  match role piece with
  | Some pawn => Ret (pawnAttacks (color piece) square)
  | Some knight => Ret (knightAttacks square)
  | Some bishop => Ret (bishopAttacks (color piece) square)
  | Some rook => r <- rookAttacks square occupied ;; Ret (Some r)
  | Some queen | Some promotedpawn => Ret (queenAttacks square)
  | Some king => Ret (kingAttacks square)
  | None => Ret None
  end.

Definition ray (a b : Square) : M SquareSet.t :=
  let other := SquareSet.fromSquare b in
  rank <- deref (index RANK_RANGE a) ;;
  if SquareSet.intersects rank other then Ret (SquareSet.with_ rank a)
  else
    file <- deref (index FILE_RANGE a) ;;
    if SquareSet.intersects file other then Ret (SquareSet.with_ file a)
    else Ret SquareSet.empty.

Definition between (a b : Square) : M SquareSet.t :=
  r <- ray a b ;;
  Ret (SquareSet.withoutFirst
         (SquareSet.intersect r
            (SquareSet.xor (SquareSet.shl64 SquareSet.full a)
                           (SquareSet.shl64 SquareSet.full b)))).

(* ===================================================================== *)
(** ** board.ts *)
(* ===================================================================== *)

Module Board.

(** The ten properties of a [Board].  [promotedpawn] is the one that the
    code can leave [undefined]: [reset] does not assign it. *)
Record t : Type := mk {
  occupied : SquareSet.t;
  white : SquareSet.t;
  black : SquareSet.t;
  pawn : SquareSet.t;
  promotedpawn : option SquareSet.t;
  knight : SquareSet.t;
  bishop : SquareSet.t;
  rook : SquareSet.t;
  queen : SquareSet.t;
  king : SquareSet.t
}.

(** [reset]: assigns nine properties and leaves [promotedpawn] as it was. *)
Definition reset (b : t) : t :=
  mk (SquareSet.new 0xffff 0xffff0000)
     (SquareSet.new 0xffff 0)
     (SquareSet.new 0 0xffff0000)
     (SquareSet.new 0xff00 0x00ff0000)
     (promotedpawn b)
     (SquareSet.new 0x42 0x42000000)
     (SquareSet.new 0x24 0x24000000)
     (SquareSet.new 0x81 0x81000000)
     (SquareSet.new 0x8 0x08000000)
     (SquareSet.new 0x10 0x10000000).

(** [clear] *)
Definition empty : t :=
  mk SquareSet.empty SquareSet.empty SquareSet.empty SquareSet.empty
     (Some SquareSet.empty) SquareSet.empty SquareSet.empty SquareSet.empty
     SquareSet.empty SquareSet.empty.

(** [Board.default()]: [new Board()] has no property assigned, then
    [reset] runs, so [promotedpawn] stays [undefined]. *)
Definition default : t :=
  reset (mk SquareSet.empty SquareSet.empty SquareSet.empty SquareSet.empty
            None SquareSet.empty SquareSet.empty SquareSet.empty
            SquareSet.empty SquareSet.empty).

(** [clone] copies the ten properties: the same value. *)
Definition clone (b : t) : t :=
  mk (occupied b) (white b) (black b) (pawn b) (promotedpawn b) (knight b)
     (bishop b) (rook b) (queen b) (king b).

(** [this[color]] and [this[role]], read and written. *)
Definition byColor (b : t) (c : Color) : SquareSet.t :=
  match c with Types.white => white b | Types.black => black b end.

Definition byRole (b : t) (r : Role) : option SquareSet.t :=
  match r with
  | Types.pawn => Some (pawn b)
  | Types.promotedpawn => promotedpawn b
  | Types.knight => Some (knight b)
  | Types.bishop => Some (bishop b)
  | Types.rook => Some (rook b)
  | Types.queen => Some (queen b)
  | Types.king => Some (king b)
  end.

Definition setOccupied (b : t) (s : SquareSet.t) : t :=
  mk s (white b) (black b) (pawn b) (promotedpawn b) (knight b)
     (bishop b) (rook b) (queen b) (king b).

Definition setColor (b : t) (c : Color) (s : SquareSet.t) : t :=
  match c with
  | Types.white =>
      mk (occupied b) s (black b) (pawn b) (promotedpawn b) (knight b)
         (bishop b) (rook b) (queen b) (king b)
  | Types.black =>
      mk (occupied b) (white b) s (pawn b) (promotedpawn b) (knight b)
         (bishop b) (rook b) (queen b) (king b)
  end.

Definition setRole (b : t) (r : Role) (s : SquareSet.t) : t :=
  match r with
  | Types.pawn =>
      mk (occupied b) (white b) (black b) s (promotedpawn b) (knight b)
         (bishop b) (rook b) (queen b) (king b)
  | Types.promotedpawn =>
      mk (occupied b) (white b) (black b) (pawn b) (Some s) (knight b)
         (bishop b) (rook b) (queen b) (king b)
  | Types.knight =>
      mk (occupied b) (white b) (black b) (pawn b) (promotedpawn b) s
         (bishop b) (rook b) (queen b) (king b)
  | Types.bishop =>
      mk (occupied b) (white b) (black b) (pawn b) (promotedpawn b) (knight b)
         s (rook b) (queen b) (king b)
  | Types.rook =>
      mk (occupied b) (white b) (black b) (pawn b) (promotedpawn b) (knight b)
         (bishop b) s (queen b) (king b)
  | Types.queen =>
      mk (occupied b) (white b) (black b) (pawn b) (promotedpawn b) (knight b)
         (bishop b) (rook b) s (king b)
  | Types.king =>
      mk (occupied b) (white b) (black b) (pawn b) (promotedpawn b) (knight b)
         (bishop b) (rook b) (queen b) s
  end.

Definition getColor (b : t) (square : Square) : option Color :=
  if SquareSet.has (white b) square then Some Types.white
  else if SquareSet.has (black b) square then Some Types.black
  else None.

(** [for (const role of ROLES) if (this[role].has(square)) return role] *)
Fixpoint getRole_from (b : t) (square : Square) (roles : list Role)
  : M (option Role) :=
  match roles with
  | [] => Ret None
  | r :: rest =>
      s <- deref (byRole b r) ;;
      if SquareSet.has s square then Ret (Some r)
      else getRole_from b square rest
  end.

Definition getRole (b : t) (square : Square) : M (option Role) :=
  getRole_from b square ROLES.

Definition get (b : t) (square : Square) : M (option Piece) :=
  match getColor b square with
  | None => Ret None
  | Some c =>
      r <- getRole b square ;;
      Ret (Some (mkPiece r c None))
  end.

(** [take]: the outcome is the returned piece and the board after it. *)
Definition take (b : t) (square : Square) : M (option Piece * t) :=
  piece <- get b square ;;
  match piece with
  | Some p =>
      let b := setOccupied b (SquareSet.without (occupied b) square) in
      let b := setColor b (color p)
                 (SquareSet.without (byColor b (color p)) square) in
      r <- deref (role p) ;;
      s <- deref (byRole b r) ;;
      Ret (piece, setRole b r (SquareSet.without s square))
  | None => Ret (piece, b)
  end.

Definition set (b : t) (square : Square) (piece : Piece) : M (option Piece * t) :=
  ' (old, b) <- take b square ;;
  let b := setOccupied b (SquareSet.with_ (occupied b) square) in
  let b := setColor b (color piece)
             (SquareSet.with_ (byColor b (color piece)) square) in
  r <- deref (role piece) ;;
  s <- deref (byRole b r) ;;
  Ret (old, setRole b r (SquareSet.with_ s square)).

Definition has (b : t) (square : Square) : bool :=
  SquareSet.has (occupied b) square.

Definition pieces (b : t) (c : Color) (r : Role) : M SquareSet.t :=
  s <- deref (byRole b r) ;;
  Ret (SquareSet.intersect (byColor b c) s).

(** [kingOf]: the role is the constant ['king'], whose set is always
    assigned. *)
Definition kingOf (b : t) (c : Color) : option Square :=
  SquareSet.singleSquare (SquareSet.intersect (byColor b c) (king b)).

(** [ROLES.every(role => left[role].equals(right[role]))] *)
Fixpoint rolesEqual (left right : t) (roles : list Role) : M bool :=
  match roles with
  | [] => Ret true
  | r :: rest =>
      l <- deref (byRole left r) ;;
      o <- deref (byRole right r) ;;
      if SquareSet.equals l o then rolesEqual left right rest else Ret false
  end.

End Board.

Definition boardEquals (left right : Board.t) : M bool :=
  if SquareSet.equals (Board.white left) (Board.white right)
  then Board.rolesEqual left right ROLES
  else Ret false.

(* ===================================================================== *)
(** ** setup.ts *)
(* ===================================================================== *)

Module RemainingChecks.

(** Modelled from the spec: setup.ts is not under src/.  The
    specification describes the remaining-checks counters as an optional
    per-color counter; makruk.ts reads and writes [remainingChecks[turn]]
    and calls [clone]. *)
Record t : Type := mk { white : Z; black : Z }.

Definition clone (r : t) : t := mk (white r) (black r).

Definition byColor (r : t) (c : Color) : Z :=
  match c with Types.white => white r | Types.black => black r end.

Definition setColor (r : t) (c : Color) (n : Z) : t :=
  match c with
  | Types.white => mk n (black r)
  | Types.black => mk (white r) n
  end.

End RemainingChecks.

Module Setup.

(** Modelled from the spec: the [Setup] interface of setup.ts, which is
    not under src/: {board, turn, optional remaining-checks counters,
    halfmove clock, fullmove number}, the properties makruk.ts reads and
    [toSetup] writes. *)
Record t : Type := mk {
  board : Board.t;
  turn : Color;
  remainingChecks : option RemainingChecks.t;
  halfmoves : Z;
  fullmoves : Z
}.

End Setup.

(* ===================================================================== *)
(** ** makruk.ts *)
(* ===================================================================== *)

Definition attacksTo (square : Square) (attacker : Color) (board : Board.t)
    (occupied : SquareSet.t) : M SquareSet.t :=
  r <- rookAttacks square occupied ;;
  b <- deref (bishopAttacks (opposite attacker) square) ;;
  n <- deref (knightAttacks square) ;;
  k <- deref (kingAttacks square) ;;
  q <- deref (queenAttacks square) ;;
  p <- deref (pawnAttacks (opposite attacker) square) ;;
  Ret (SquareSet.intersect (Board.byColor board attacker)
         (SquareSet.union
            (SquareSet.union
               (SquareSet.union
                  (SquareSet.union
                     (SquareSet.union r
                        (SquareSet.intersect b (Board.bishop board)))
                     (SquareSet.intersect n (Board.knight board)))
                  (SquareSet.intersect k (Board.king board)))
               (SquareSet.intersect q (Board.king board)))
            (SquareSet.intersect p (Board.pawn board)))).

Module Context.

Record t : Type := mk {
  king : option Square;
  blockers : SquareSet.t;
  checkers : SquareSet.t;
  variantEnd : bool;
  mustCapture : bool
}.

End Context.

Inductive Rules : Type := makruk.

Module Position.

Record t : Type := mk {
  rules : Rules;
  board : Board.t;
  turn : Color;
  remainingChecks : option RemainingChecks.t;
  halfmoves : Z;
  fullmoves : Z
}.

Definition setBoard (pos : t) (b : Board.t) : t :=
  mk (rules pos) b (turn pos) (remainingChecks pos) (halfmoves pos) (fullmoves pos).
Definition setTurn (pos : t) (c : Color) : t :=
  mk (rules pos) (board pos) c (remainingChecks pos) (halfmoves pos) (fullmoves pos).
Definition setRemainingChecks (pos : t) (r : option RemainingChecks.t) : t :=
  mk (rules pos) (board pos) (turn pos) r (halfmoves pos) (fullmoves pos).
Definition setHalfmoves (pos : t) (n : Z) : t :=
  mk (rules pos) (board pos) (turn pos) (remainingChecks pos) n (fullmoves pos).
Definition setFullmoves (pos : t) (n : Z) : t :=
  mk (rules pos) (board pos) (turn pos) (remainingChecks pos) (halfmoves pos) n.

(** [reset], on the object the [Makruk] constructor made. *)
Definition reset (pos : t) : t :=
  mk (rules pos) Board.default white None 0 1.

Definition setupUnchecked (pos : t) (setup : Setup.t) : t :=
  mk (rules pos) (Board.clone (Setup.board setup)) (Setup.turn setup) None
     (Setup.halfmoves setup) (Setup.fullmoves setup).

Definition kingAttackers (pos : t) (square : Square) (attacker : Color)
    (occupied : SquareSet.t) : M SquareSet.t :=
  attacksTo square attacker (board pos) occupied.

Definition isVariantEnd (pos : t) : bool := false.

Definition variantOutcome (pos : t) (ctx : option Context.t) : option Outcome :=
  None.

(** The loop of [ctx] over the snipers. *)
Fixpoint ctx_blockers (pos : t) (king : Square) (snipers : list Square)
    (blockers : SquareSet.t) : M SquareSet.t :=
  match snipers with
  | [] => Ret blockers
  | sniper :: rest =>
      bt <- between king sniper ;;
      let b := SquareSet.intersect bt (Board.occupied (board pos)) in
      ctx_blockers pos king rest
        (if negb (SquareSet.moreThanOne b) then SquareSet.union blockers b
         else blockers)
  end.

Definition ctx (pos : t) : M Context.t :=
  let variantEnd := isVariantEnd pos in
  match Board.kingOf (board pos) (turn pos) with
  | None =>
      Ret (Context.mk None SquareSet.empty SquareSet.empty variantEnd false)
  | Some kingSq =>
      r <- rookAttacks kingSq SquareSet.empty ;;
      let snipers :=
        SquareSet.intersect r (Board.byColor (board pos) (opposite (turn pos))) in
      blockers <- ctx_blockers pos kingSq (SquareSet.squares snipers) SquareSet.empty ;;
      checkers <- kingAttackers pos kingSq (opposite (turn pos))
                    (Board.occupied (board pos)) ;;
      Ret (Context.mk (Some kingSq) blockers checkers variantEnd false)
  end.

(** [ctx = ctx || this.ctx()] *)
Definition ctxOr (pos : t) (c : option Context.t) : M Context.t :=
  match c with
  | Some c => Ret c
  | None => ctx pos
  end.

(** [new (this as any).constructor()] is the [Makruk] constructor. *)
Definition clone (pos : t) : t :=
  mk makruk (Board.clone (board pos)) (turn pos)
     (option_map RemainingChecks.clone (remainingChecks pos))
     (halfmoves pos) (fullmoves pos).

Definition validate (pos : t) : M (Result unit PositionError) :=
  if SquareSet.isEmpty (Board.occupied (board pos))
  then Ret (Err (mkPositionError Empty))
  else if negb (SquareSet.size (Board.king (board pos)) =? 2)
  then Ret (Err (mkPositionError Kings))
  else
    match Board.kingOf (board pos) (turn pos) with
    | None => Ret (Err (mkPositionError Kings))
    | Some _ =>
        match Board.kingOf (board pos) (opposite (turn pos)) with
        | None => Ret (Err (mkPositionError Kings))
        | Some otherKing =>
            a <- kingAttackers pos otherKing (turn pos)
                   (Board.occupied (board pos)) ;;
            if SquareSet.nonEmpty a
            then Ret (Err (mkPositionError OppositeCheck))
            else if SquareSet.intersects SquareSet.backranks
                      (Board.pawn (board pos))
            then Ret (Err (mkPositionError PawnsOnBackrank))
            else Ret (Ok tt)
        end
    end.

(** The pawn branch of [dests], after the capture squares. *)
Definition pawnSteps (pos : t) (square : Square) (pseudo : SquareSet.t)
  : SquareSet.t :=
  let occ := Board.occupied (board pos) in
  let delta := match turn pos with white => 8 | black => -8 end in
  let step := square + delta in
  if (0 <=? step) && (step <? 64) && negb (SquareSet.has occ step) then
    let pseudo := SquareSet.with_ pseudo step in
    let canDoubleStep :=
      match turn pos with
      | white => square <? 16
      | black => 64 - 16 <=? square
      end in
    let doubleStep := step + delta in
    if canDoubleStep && negb (SquareSet.has occ doubleStep)
    then SquareSet.with_ pseudo doubleStep
    else pseudo
  else pseudo.

(** The loop of [dests] over the king's destinations: the iterator runs
    over the set [pseudo] had when the loop started. *)
Fixpoint kingFilter (pos : t) (occ : SquareSet.t) (tos : list Square)
    (pseudo : SquareSet.t) : M SquareSet.t :=
  match tos with
  | [] => Ret pseudo
  | to :: rest =>
      a <- kingAttackers pos to (opposite (turn pos)) occ ;;
      kingFilter pos occ rest
        (if SquareSet.nonEmpty a then SquareSet.without pseudo to else pseudo)
  end.

Definition dests (pos : t) (square : Square) (ctx : option Context.t)
  : M SquareSet.t :=
  ctx <- ctxOr pos ctx ;;
  if Context.variantEnd ctx then Ret SquareSet.empty else
  piece <- Board.get (board pos) square ;;
  match piece with
  | None => Ret SquareSet.empty
  | Some piece =>
    if negb (Color_eqb (color piece) (turn pos)) then Ret SquareSet.empty else
    pseudo <-
      match role piece with
      | Some pawn =>
          a <- deref (pawnAttacks (turn pos) square) ;;
          Ret (pawnSteps pos square
                 (SquareSet.intersect a
                    (Board.byColor (board pos) (opposite (turn pos)))))
      | Some bishop => deref (bishopAttacks (turn pos) square)
      | Some knight => deref (knightAttacks square)
      | Some rook => rookAttacks square (Board.occupied (board pos))
      | Some queen => deref (queenAttacks square)
      | _ => deref (kingAttacks square)
      end ;;
    let pseudo := SquareSet.diff pseudo (Board.byColor (board pos) (turn pos)) in
    match Context.king ctx with
    | None => Ret pseudo
    | Some ctxKing =>
        pseudo <-
          match role piece with
          | Some king =>
              let occ := SquareSet.without (Board.occupied (board pos)) square in
              kingFilter pos occ (SquareSet.squares pseudo) pseudo
          | _ => Ret pseudo
          end ;;
        if SquareSet.nonEmpty (Context.checkers ctx) then
          match SquareSet.singleSquare (Context.checkers ctx) with
          | None => Ret SquareSet.empty
          | Some checker =>
              bt <- between checker ctxKing ;;
              let pseudo :=
                SquareSet.intersect pseudo (SquareSet.with_ bt checker) in
              if SquareSet.has (Context.blockers ctx) square
              then r <- ray square ctxKing ;; Ret (SquareSet.intersect pseudo r)
              else Ret pseudo
          end
        else
          if SquareSet.has (Context.blockers ctx) square
          then r <- ray square ctxKing ;; Ret (SquareSet.intersect pseudo r)
          else Ret pseudo
    end
  end.

Definition hasInsufficientMaterial (pos : t) (c : Color) : bool :=
  let b := board pos in
  if SquareSet.nonEmpty (SquareSet.intersect (Board.byColor b c) (Board.pawn b))
  then false
  else if SquareSet.intersects (Board.byColor b c) (Board.knight b)
  then (SquareSet.size (Board.byColor b c) <=? 2)
       && SquareSet.isEmpty
            (SquareSet.diff
               (SquareSet.diff (Board.byColor b (opposite c)) (Board.king b))
               (Board.queen b))
  else if SquareSet.intersects (Board.byColor b c) (Board.bishop b)
  then
    let sameColor :=
      negb (SquareSet.intersects (Board.bishop b) SquareSet.darkSquares)
      || negb (SquareSet.intersects (Board.bishop b) SquareSet.lightSquares) in
    sameColor && SquareSet.isEmpty (Board.pawn b)
    && SquareSet.isEmpty (Board.knight b)
  else true.

Definition toSetup (pos : t) : Setup.t :=
  Setup.mk (Board.clone (board pos))
           (turn pos)
           (option_map RemainingChecks.clone (remainingChecks pos))
           (Z.min (halfmoves pos) 150)
           (Z.min (Z.max (fullmoves pos) 1) 9999).

Definition isInsufficientMaterial (pos : t) : bool :=
  forallb (fun c => hasInsufficientMaterial pos c) COLORS.

Fixpoint hasDests_from (pos : t) (ctx : Context.t) (sqs : list Square) : M bool :=
  match sqs with
  | [] => Ret false
  | square :: rest =>
      d <- dests pos square (Some ctx) ;;
      if SquareSet.nonEmpty d then Ret true else hasDests_from pos ctx rest
  end.

Definition hasDests (pos : t) (ctx : option Context.t) : M bool :=
  ctx <- ctxOr pos ctx ;;
  hasDests_from pos ctx (SquareSet.squares (Board.byColor (board pos) (turn pos))).

Definition isLegal (pos : t) (move : Move) (ctx : option Context.t) : M bool :=
  match promotion move with
  | Some pawn => Ret false
  | _ =>
      let promotes :=
        match promotion move with Some _ => true | None => false end in
      if negb (Bool.eqb promotes
                 (SquareSet.has (Board.pawn (board pos)) (from move)
                  && SquareSet.has SquareSet.backranks (to move)))
      then Ret false
      else
        d <- dests pos (from move) ctx ;;
        Ret (SquareSet.has d (to move))
  end.

Definition isCheck (pos : t) : M bool :=
  match Board.kingOf (board pos) (turn pos) with
  | None => Ret false
  | Some kingSq =>
      a <- kingAttackers pos kingSq (opposite (turn pos))
             (Board.occupied (board pos)) ;;
      Ret (SquareSet.nonEmpty a)
  end.

Definition isEnd (pos : t) (ctx : option Context.t) : M bool :=
  if match ctx with Some c => Context.variantEnd c | None => isVariantEnd pos end
  then Ret true
  else if isInsufficientMaterial pos then Ret true
  else h <- hasDests pos ctx ;; Ret (negb h).

Definition isCheckmate (pos : t) (ctx : option Context.t) : M bool :=
  ctx <- ctxOr pos ctx ;;
  if negb (Context.variantEnd ctx) && SquareSet.nonEmpty (Context.checkers ctx)
  then h <- hasDests pos (Some ctx) ;; Ret (negb h)
  else Ret false.

Definition isStalemate (pos : t) (ctx : option Context.t) : M bool :=
  ctx <- ctxOr pos ctx ;;
  if negb (Context.variantEnd ctx) && SquareSet.isEmpty (Context.checkers ctx)
  then h <- hasDests pos (Some ctx) ;; Ret (negb h)
  else Ret false.

Definition outcome (pos : t) (ctx : option Context.t) : M (option Outcome) :=
  match variantOutcome pos ctx with
  | Some o => Ret (Some o)
  | None =>
      ctx <- ctxOr pos ctx ;;
      mate <- isCheckmate pos (Some ctx) ;;
      if mate then Ret (Some (mkOutcome (Some (opposite (turn pos)))))
      else if isInsufficientMaterial pos then Ret (Some (mkOutcome None))
      else
        stale <- isStalemate pos (Some ctx) ;;
        if stale then Ret (Some (mkOutcome None)) else Ret None
  end.

(** The [Map] of [allDests], as its entries in insertion order (the keys
    are the distinct squares the iterator yields). *)
Fixpoint allDests_from (pos : t) (ctx : Context.t) (sqs : list Square)
  : M (list (Square * SquareSet.t)) :=
  match sqs with
  | [] => Ret []
  | square :: rest =>
      d <- dests pos square (Some ctx) ;;
      ds <- allDests_from pos ctx rest ;;
      Ret ((square, d) :: ds)
  end.

Definition allDests (pos : t) (ctx : option Context.t)
  : M (list (Square * SquareSet.t)) :=
  ctx <- ctxOr pos ctx ;;
  if Context.variantEnd ctx then Ret []
  else allDests_from pos ctx
         (SquareSet.squares (Board.byColor (board pos) (turn pos))).

(** [play] mutates the position; the outcome is the position after the
    call.  When the call throws, the partly updated position is not
    observed by any property below. *)
Definition play (pos : t) (move : Move) : M t :=
  let turn0 := turn pos in
  let pos := setHalfmoves pos (halfmoves pos + 1) in
  let pos := match turn0 with
             | black => setFullmoves pos (fullmoves pos + 1)
             | white => pos
             end in
  let pos := setTurn pos (opposite turn0) in
  ' (piece, b) <- Board.take (board pos) (from move) ;;
  let pos := setBoard pos b in
  match piece with
  | None => Ret pos
  | Some piece =>
      let '(pos, piece) :=
        match role piece with
        | Some pawn =>
            (setHalfmoves pos 0,
             match promotion move with
             | Some r => mkPiece (Some r) (color piece) (Some true)
             | None => piece
             end)
        | _ => (pos, piece)
        end in
      ' (capture, b) <- Board.set (board pos) (to move) piece ;;
      let pos := setBoard pos b in
      let pos := match capture with
                 | Some _ => setHalfmoves pos 0
                 | None => pos
                 end in
      match remainingChecks pos with
      | Some rc =>
          chk <- isCheck pos ;;
          if chk
          then Ret (setRemainingChecks pos
                      (Some (RemainingChecks.setColor rc turn0
                               (Z.max (RemainingChecks.byColor rc turn0 - 1) 0))))
          else Ret pos
      | None => Ret pos
      end
  end.

End Position.

Module Makruk.

(** [new this()]: the constructor sets [rules]; the other properties
    are assigned by [reset] or [setupUnchecked] before any read. *)
Definition constructed : Position.t :=
  Position.mk makruk Board.empty white None 0 0.

Definition default : Position.t := Position.reset constructed.

Definition fromSetup (setup : Setup.t) : M (Result Position.t PositionError) :=
  let pos := Position.setupUnchecked constructed setup in
  v <- Position.validate pos ;;
  Ret (Result_map (fun _ => pos) v).

Definition clone (pos : Position.t) : Position.t := Position.clone pos.

End Makruk.

(* ===================================================================== *)
(** ** Vocabulary of the properties *)
(* ===================================================================== *)

(** The squares of the board, 0 to 63. *)
Definition allSquares : list Square := map Z.of_nat (seq 0 64).

Definition countTrue (l : list bool) : nat := length (filter (fun x => x) l).

Fixpoint pairwiseDisjoint (l : list SquareSet.t) : bool :=
  match l with
  | [] => true
  | s :: rest => forallb (SquareSet.isDisjoint s) rest && pairwiseDisjoint rest
  end.

(** The seven role sets of a board whose [promotedpawn] is [pp]. *)
Definition roleSets (b : Board.t) (pp : SquareSet.t) : list SquareSet.t :=
  [Board.pawn b; pp; Board.knight b; Board.bishop b; Board.rook b;
   Board.queen b; Board.king b].

(** The board invariant of the specification, on a board all of whose
    sets are assigned and constructor-made:
    occupied = white ∪ black; occupied = the union of the seven role sets;
    white and black are disjoint; the role sets are pairwise disjoint;
    every occupied square is in exactly one color set and exactly one
    role set. *)
Definition board_inv (b : Board.t) : bool :=
  match Board.promotedpawn b with
  | None => false
  | Some pp =>
      forallb SquareSet.wf
        (Board.occupied b :: Board.white b :: Board.black b :: roleSets b pp)
      && SquareSet.equals (Board.occupied b)
           (SquareSet.union (Board.white b) (Board.black b))
      && SquareSet.equals (Board.occupied b)
           (fold_left SquareSet.union (roleSets b pp) SquareSet.empty)
      && SquareSet.isDisjoint (Board.white b) (Board.black b)
      && pairwiseDisjoint (roleSets b pp)
      && forallb
           (fun sq =>
              implb (SquareSet.has (Board.occupied b) sq)
                (Nat.eqb (countTrue [SquareSet.has (Board.white b) sq;
                                     SquareSet.has (Board.black b) sq]) 1
                 && Nat.eqb (countTrue (map (fun s => SquareSet.has s sq)
                                          (roleSets b pp))) 1))
           allSquares
  end.

(** The same condition read at one square, from the membership bits of
    occupied, white, black and the role sets. *)
Definition squareOK (o w bl : bool) (rs : list bool) : bool :=
  Bool.eqb o (w || bl) && Bool.eqb o (existsb (fun x => x) rs)
  && negb (w && bl) && Nat.leb (countTrue rs) 1.

(** A board with a function applied to each of its ten sets. *)
Definition Board_mapSets (g : SquareSet.t -> SquareSet.t) (b : Board.t) : Board.t :=
  Board.mk (g (Board.occupied b)) (g (Board.white b)) (g (Board.black b))
           (g (Board.pawn b)) (option_map g (Board.promotedpawn b))
           (g (Board.knight b)) (g (Board.bishop b)) (g (Board.rook b))
           (g (Board.queen b)) (g (Board.king b)).

(** What [board_inv] says, with the set equations read at each square. *)
Definition board_local (b : Board.t) : Prop :=
  exists pp,
    Board.promotedpawn b = Some pp
    /\ forallb SquareSet.wf
         (Board.occupied b :: Board.white b :: Board.black b :: roleSets b pp) = true
    /\ forall i, 0 <= i < 64 ->
         squareOK (SquareSet.has (Board.occupied b) i)
                  (SquareSet.has (Board.white b) i)
                  (SquareSet.has (Board.black b) i)
                  (map (fun s => SquareSet.has s i) (roleSets b pp)) = true.

(** *** Conditions of a setup *)

(** The board is empty: no square is occupied. *)
Definition emptyBoard (b : Board.t) : Prop :=
  forall sq, 0 <= sq < 64 -> Board.has b sq = false.

(** Exactly one king of color [c]: the kings of [c] are one square. *)
Definition oneKing (b : Board.t) (c : Color) : Prop :=
  exists k, 0 <= k < 64
            /\ SquareSet.intersect (Board.byColor b c) (Board.king b)
               = SquareSet.fromSquare k.

Definition kingCountWrong (b : Board.t) : Prop :=
  ~ (oneKing b white /\ oneKing b black).

(** The code's own test of the side not to move: [isCheck] answers true
    on the same board with the turn given to the other side. *)
Definition otherSideInCheck (setup : Setup.t) : Prop :=
  Position.isCheck
    (Position.mk makruk (Setup.board setup) (opposite (Setup.turn setup)) None
       (Setup.halfmoves setup) (Setup.fullmoves setup))
  = Ret true.

(** A pawn stands on the first or the last rank. *)
Definition pawnOnBackrank (b : Board.t) : Prop :=
  exists sq, (0 <= sq < 8 \/ 56 <= sq < 64)
             /\ SquareSet.has (Board.pawn b) sq = true.

(** The condition each [IllegalSetup] tag stands for. *)
Definition setupCondition (tag : IllegalSetup) (setup : Setup.t) : Prop :=
  match tag with
  | Empty => emptyBoard (Setup.board setup)
  | Kings => kingCountWrong (Setup.board setup)
  | OppositeCheck => otherSideInCheck setup
  | PawnsOnBackrank => pawnOnBackrank (Setup.board setup)
  | Variant => False
  end.

(** The call does not throw a [PositionError]. *)
Definition noSetupError {A : Type} (m : M A) : Prop :=
  forall e, m <> Throw (ThrownError e).

(** *** Check as the attack dispatch sees it *)

(** Some square [s] holds a piece [p] of color [attacker] such that
    [victim] is a member of [attacks(p, s, board.occupied)]. *)
Definition attackedByDispatch (b : Board.t) (attacker : Color) (victim : Square)
  : Prop :=
  exists s p a,
    0 <= s < 64
    /\ Board.get b s = Ret (Some p)
    /\ color p = attacker
    /\ attacks p s (Board.occupied b) = Ret (Some a)
    /\ SquareSet.has a victim = true.

(** The side not to move is in check as the attack dispatch sees it: its
    king stands on a square that a piece of the side to move attacks. *)
Definition otherSideAttacked (setup : Setup.t) : Prop :=
  exists k,
    Board.kingOf (Setup.board setup) (opposite (Setup.turn setup)) = Some k
    /\ attackedByDispatch (Setup.board setup) (Setup.turn setup) k.

(** *** King destinations *)

(** The pseudo-legal destinations of a king on [square] that do not
    leave it attacked on the board with the king removed: the king's
    table entry minus the own pieces, passed through the king loop of
    [dests]. *)
Definition kingSafeDests (pos : Position.t) (square : Square) : M SquareSet.t :=
  k <- deref (kingAttacks square) ;;
  let pseudo :=
    SquareSet.diff k (Board.byColor (Position.board pos) (Position.turn pos)) in
  Position.kingFilter pos
    (SquareSet.without (Board.occupied (Position.board pos)) square)
    (SquareSet.squares pseudo) pseudo.

(** *** Sequences of moves *)

(** [for (const move of moves) pos.play(move)] *)
Fixpoint playAll (pos : Position.t) (moves : list Move) : M Position.t :=
  match moves with
  | [] => Ret pos
  | m :: rest => pos' <- Position.play pos m ;; playAll pos' rest
  end.

(** The same, playing a move only when [isLegal] accepts it. *)
Fixpoint playLegal (pos : Position.t) (moves : list Move) : option Position.t :=
  match moves with
  | [] => Some pos
  | m :: rest =>
      match Position.isLegal pos m None with
      | Ret true =>
          match Position.play pos m with
          | Ret pos' => playLegal pos' rest
          | Throw _ => None
          end
      | _ => None
      end
  end.

(** The positions reachable from a valid starting position (the default
    one, or one that [fromSetup] accepted) by legal [play] calls. *)
Inductive reachable : Position.t -> Prop :=
| reachable_default : reachable Makruk.default
| reachable_setup setup pos :
    Makruk.fromSetup setup = Ret (Ok pos) -> reachable pos
| reachable_play pos move pos' :
    reachable pos ->
    Position.isLegal pos move None = Ret true ->
    Position.play pos move = Ret pos' ->
    reachable pos'.

(** *** Boards and positions used as concrete inputs *)

(** A board built the way [parseBoardFen] builds one: [Board.empty()],
    then [set] for each piece. *)
Fixpoint placeAll (b : Board.t) (ps : list (Square * Color * Role)) : M Board.t :=
  match ps with
  | [] => Ret b
  | (sq, c, r) :: rest =>
      ' (_, b') <- Board.set b sq (mkPiece (Some r) c None) ;;
      placeAll b' rest
  end.

Definition boardOf (ps : list (Square * Color * Role)) : Board.t :=
  match placeAll Board.empty ps with
  | Ret b => b
  | Throw _ => Board.empty
  end.

(** White Ke1; black pawn e7, Kh8. *)
Definition pawnOnFileBoard : Board.t :=
  Eval vm_compute in boardOf [(4, white, king); (52, black, pawn); (63, black, king)].

(** White Ke1; black queen d2, Kh8. *)
Definition queenNextToKingBoard : Board.t :=
  Eval vm_compute in boardOf [(4, white, king); (11, black, queen); (63, black, king)].

(** White Ke1; black Ra1, Re8, Kh8. *)
Definition doubleRookCheckBoard : Board.t :=
  Eval vm_compute in
    boardOf [(4, white, king); (0, black, rook); (60, black, rook); (63, black, king)].

(** White Ke1; black knights d3 and f3, Kh8. *)
Definition doubleKnightCheckBoard : Board.t :=
  Eval vm_compute in
    boardOf [(4, white, king); (19, black, knight); (21, black, knight);
             (63, black, king)].

(** White Ke1, Ra1; black Kh8. *)
Definition rookEndingBoard : Board.t :=
  Eval vm_compute in boardOf [(4, white, king); (0, white, rook); (63, black, king)].

(** White Ka1; black Kh8. *)
Definition bareKingsBoard : Board.t :=
  Eval vm_compute in boardOf [(0, white, king); (63, black, king)].

(** White Ka1, pawn a7; black Kh8. *)
Definition pawnOnSeventhBoard : Board.t :=
  Eval vm_compute in boardOf [(0, white, king); (48, white, pawn); (63, black, king)].

(** The position [fromSetup] makes of a board with white to move. *)
Definition whiteToMove (b : Board.t) : Position.t :=
  Position.mk makruk b white None 0 1.

Definition setupOf (b : Board.t) : Setup.t := Setup.mk b white None 0 1.

Definition blackToMove (b : Board.t) : Position.t :=
  Position.mk makruk b black None 0 1.

Definition blackSetupOf (b : Board.t) : Setup.t := Setup.mk b black None 0 1.

(** e2e4, e7e5, d1h5, g8f6, f1c4, b8c6, h5f7 *)
Definition fourMoveMate : list Move :=
  [mkMove 12 28 None; mkMove 52 36 None; mkMove 3 39 None; mkMove 62 45 None;
   mkMove 5 26 None; mkMove 57 42 None; mkMove 39 53 None].

(** The layout of [Board.reset] with [promotedpawn] assigned the empty
    set. *)
Definition resetBoardAssigned : Board.t :=
  Eval vm_compute in Board.setRole Board.default promotedpawn SquareSet.empty.

(** [n] times the four king moves a1b1, h8g8, b1a1, g8h8. *)
Fixpoint kingShuffle (n : nat) : list Move :=
  match n with
  | O => []
  | S n' =>
      mkMove 0 1 None :: mkMove 63 62 None :: mkMove 1 0 None
      :: mkMove 62 63 None :: kingShuffle n'
  end.

(** The bare kings after 152 legal king moves. *)
Definition shuffledKings : Position.t :=
  Eval vm_compute in
    match playLegal (whiteToMove bareKingsBoard) (kingShuffle 38) with
    | Some p => p
    | None => whiteToMove bareKingsBoard
    end.

(** The pawn on a7 promoted to a king on a8. *)
Definition thirdKing : Position.t :=
  Eval vm_compute in
    match playLegal (whiteToMove pawnOnSeventhBoard) [mkMove 48 56 (Some king)] with
    | Some p => p
    | None => whiteToMove pawnOnSeventhBoard
    end.

(* ===================================================================== *)
(** ** Further functions of the sources *)
(* ===================================================================== *)

(** *** squareSet.ts: the reversed iterator *)

(** [reversed()]: each call of [next] clears the highest set bit of its
    private copy of [hi], then of [lo].  The fuel bounds the calls as for
    [SquareSet.iterate]. *)
Fixpoint reversed_iterate (fuel : nat) (lo hi : Z) : list Square :=
  match fuel with
  | O => []
  | S fuel' =>
      if JS.truthy hi then
        let idx := 31 - JS.clz32 hi in
        (32 + idx) :: reversed_iterate fuel' lo (JS.xor hi (JS.shl 1 idx))
      else if JS.truthy lo then
        let idx := 31 - JS.clz32 lo in
        idx :: reversed_iterate fuel' (JS.xor lo (JS.shl 1 idx)) hi
      else []
  end.

Definition reversed (s : SquareSet.t) : list Square :=
  reversed_iterate 64 (SquareSet.lo s) (SquareSet.hi s).

(* ===================================================================== *)
(** ** Vocabulary: the geometry of a step *)
(* ===================================================================== *)

(** File and rank distance from [a] to [b], signed. *)
Definition fileDelta (a b : Square) : Z := squareFile b - squareFile a.
Definition rankDelta (a b : Square) : Z := squareRank b - squareRank a.

(** The rank direction in which a colour advances. *)
Definition forward (c : Color) : Z :=
  match c with white => 1 | black => -1 end.

(** One step in any of the eight directions. *)
Definition kingStep (a b : Square) : bool :=
  negb (a =? b) && (Z.abs (fileDelta a b) <=? 1) && (Z.abs (rankDelta a b) <=? 1).

(** One diagonal step. *)
Definition diagonalStep (a b : Square) : bool :=
  (Z.abs (fileDelta a b) =? 1) && (Z.abs (rankDelta a b) =? 1).

(** A knight's jump. *)
Definition knightStep (a b : Square) : bool :=
  (Z.abs (fileDelta a b) =? 1) && (Z.abs (rankDelta a b) =? 2)
  || (Z.abs (fileDelta a b) =? 2) && (Z.abs (rankDelta a b) =? 1).

(** One step straight ahead for colour [c]. *)
Definition forwardStep (c : Color) (a b : Square) : bool :=
  (fileDelta a b =? 0) && (rankDelta a b =? forward c).

(** One diagonal step ahead for colour [c]. *)
Definition forwardDiagonalStep (c : Color) (a b : Square) : bool :=
  (Z.abs (fileDelta a b) =? 1) && (rankDelta a b =? forward c).

(** An attack set that is defined and whose members are the squares
    [step] accepts. *)
Definition attacksAre (o : option SquareSet.t) (step : Square -> bool) : Prop :=
  exists t, o = Some t /\ SquareSet.wf t = true
            /\ forall b, 0 <= b < 64 -> SquareSet.has t b = step b.

(** Checking a table against a step predicate, square by square. *)
Definition tableAgrees (table : BySquare SquareSet.t) (step : Square -> Square -> bool)
  : bool :=
  forallb
    (fun a =>
       match index table a with
       | Some t =>
           SquareSet.wf t
           && forallb (fun b => Bool.eqb (SquareSet.has t b) (step a b)) allSquares
       | None => false
       end)
    allSquares.


(* ===================================================================== *)
(** ** Vocabulary: sliding along a file or a rank *)
(* ===================================================================== *)

(** The file is in the three low bits of a square, the rank in the bits
    above them. *)
Definition sameFile (a b : Square) : bool := Z.land a 7 =? Z.land b 7.
Definition sameRank (a b : Square) : bool := Z.shiftr a 3 =? Z.shiftr b 3.

(** [m] lies between [a] and [b] in the numbering of the squares. *)
Definition numBetween (a m b : Square) : bool :=
  (a <? m) && (m <? b) || (b <? m) && (m <? a).

(** No occupied square of the line lies between [a] and [b]. *)
Definition pathClear (onLine occupied : Square -> bool) (a b : Square) : bool :=
  forallb
    (fun m => if numBetween a m b then negb (onLine m && occupied m) else true)
    allSquares.

(** [b] is another square of the line through [a], and the way to it is
    clear; [b] itself may be occupied. *)
Definition lineStep (same : Square -> Square -> bool) (occupied : Square -> bool)
    (a b : Square) : bool :=
  if a =? b then false
  else if same a b then pathClear (same a) occupied a b
  else false.

Definition rookStep (occupied : Square -> bool) (a b : Square) : bool :=
  lineStep sameFile occupied a b || lineStep sameRank occupied a b.

(** The flag of square [m], one flag per square of [L]. *)
Fixpoint lookupBit (L : list Square) (bits : list bool) (m : Square) : bool :=
  match L, bits with
  | x :: L', b :: bs => if x =? m then b else lookupBit L' bs m
  | _, _ => false
  end.

Fixpoint allBools (n : nat) : list (list bool) :=
  match n with
  | O => [[]]
  | S n' => map (cons false) (allBools n') ++ map (cons true) (allBools n')
  end.

(** The integer with the given binary digits, lowest first. *)
Fixpoint fromBits (l : list bool) : Z :=
  match l with
  | [] => 0
  | b :: l' => 2 * fromBits l' + Z.b2z b
  end.

(** The set of the squares that [p] accepts. *)
Definition setOfPred (p : Square -> bool) : SquareSet.t :=
  SquareSet.new (fromBits (map p (map Z.of_nat (seq 0 32))))
                (fromBits (map p (map Z.of_nat (seq 32 32)))).

(** A line attack checked against [step] for every square and every
    occupancy of the squares of its range. *)
Definition checkLine (attack : Square -> SquareSet.t -> M SquareSet.t)
    (table : BySquare SquareSet.t)
    (step : (Square -> bool) -> Square -> Square -> bool) : bool :=
  forallb
    (fun a =>
       match index table a with
       | Some range =>
           let L := filter (SquareSet.has range) allSquares in
           forallb
             (fun bits =>
                match attack a (setOfPred (lookupBit L bits)) with
                | Ret r => SquareSet.equals r (setOfPred (step (lookupBit L bits) a))
                | Throw _ => false
                end)
             (allBools (length L))
       | None => false
       end)
    allSquares.

(** The squares of the rank through [a] and [b], else of the file
    through them; none when the two are the same square or share
    neither. *)
Definition rayStep (a b m : Square) : bool :=
  if a =? b then false
  else if sameRank a b then sameRank a m
  else if sameFile a b then sameFile a m
  else false.

(* ===================================================================== *)
(** ** The line attacks with the reductions written as bit masks *)
(* ===================================================================== *)

(** The same computations as [fileAttacks] and [rankAttacks], with
    [ToInt32], [ToUint32] and the shift counts taken with [Z.land]
    instead of [mod].  They are proved equal to the embedding of the
    source and are what the sliding attacks are evaluated with. *)
Module Fast.

Definition toInt32 (x : Z) : Z :=
  Z.land (x + 2147483648) 4294967295 - 2147483648.
Definition toUint32 (x : Z) : Z := Z.land x 4294967295.

Definition and (a b : Z) : Z := Z.land (toInt32 a) (toInt32 b).
Definition or (a b : Z) : Z := Z.lor (toInt32 a) (toInt32 b).
Definition xor (a b : Z) : Z := Z.lxor (toInt32 a) (toInt32 b).
Definition shl (a n : Z) : Z := toInt32 (Z.shiftl (toInt32 a) (Z.land n 31)).
Definition ushr (a n : Z) : Z := Z.shiftr (toUint32 a) (Z.land n 31).

Definition bswap32 (n : Z) : Z :=
  let n := or (and (ushr n 8) 0x00ff00ff) (shl (and n 0x00ff00ff) 8) in
  or (and (ushr n 16) 0xffff) (shl (and n 0xffff) 16).

Definition rbit32 (n : Z) : Z :=
  let n := or (and (ushr n 1) 0x55555555) (shl (and n 0x55555555) 1) in
  let n := or (and (ushr n 2) 0x33333333) (shl (and n 0x33333333) 2) in
  let n := or (and (ushr n 4) 0x0f0f0f0f) (shl (and n 0x0f0f0f0f) 4) in
  let n := or (and (ushr n 8) 0x00ff00ff) (shl (and n 0x00ff00ff) 8) in
  let n := or (and (ushr n 16) 0x0000ffff) (shl (and n 0x0000ffff) 16) in
  n.

Definition new (lo hi : Z) : SquareSet.t := SquareSet.mk (toInt32 lo) (toInt32 hi).

Definition fromSquare (square : Square) : SquareSet.t :=
  if 32 <=? square
  then new 0 (shl 1 (square - 32))
  else new (shl 1 square) 0.

Definition intersect (s other : SquareSet.t) : SquareSet.t :=
  new (and (SquareSet.lo s) (SquareSet.lo other))
      (and (SquareSet.hi s) (SquareSet.hi other)).

Definition setXor (s other : SquareSet.t) : SquareSet.t :=
  new (xor (SquareSet.lo s) (SquareSet.lo other))
      (xor (SquareSet.hi s) (SquareSet.hi other)).

Definition bswap64 (s : SquareSet.t) : SquareSet.t :=
  new (bswap32 (SquareSet.hi s)) (bswap32 (SquareSet.lo s)).
Definition rbit64 (s : SquareSet.t) : SquareSet.t :=
  new (rbit32 (SquareSet.hi s)) (rbit32 (SquareSet.lo s)).

Definition minus64 (s other : SquareSet.t) : SquareSet.t :=
  let lo' := SquareSet.lo s - SquareSet.lo other in
  let c := ushr (and (and lo' (SquareSet.lo other)) 1
                 + ushr (SquareSet.lo other) 1 + ushr lo' 1) 31 in
  new lo' (SquareSet.hi s - (SquareSet.hi other + c)).

Definition hyperbola (bit range occupied : SquareSet.t) : SquareSet.t :=
  let forward := intersect occupied range in
  let reverse := bswap64 forward in
  let forward := minus64 forward bit in
  let reverse := minus64 reverse (bswap64 bit) in
  intersect (setXor forward (bswap64 reverse)) range.

Definition fileAttacks (square : Square) (occupied : SquareSet.t) : M SquareSet.t :=
  range <- deref (index FILE_RANGE square) ;;
  Ret (hyperbola (fromSquare square) range occupied).

Definition rankAttacks (square : Square) (occupied : SquareSet.t) : M SquareSet.t :=
  range <- deref (index RANK_RANGE square) ;;
  let forward := intersect occupied range in
  let reverse := rbit64 forward in
  let forward := minus64 forward (fromSquare square) in
  let reverse := minus64 reverse (fromSquare (63 - square)) in
  Ret (intersect (setXor forward (rbit64 reverse)) range).

End Fast.

(* ===================================================================== *)
(** ** Vocabulary: what a move does *)
(* ===================================================================== *)

(** The role a piece of role [r] has after the move: a pawn takes the
    role the move names, if it names one. *)
Definition movedRole (r : Role) (promotion : option Role) : Role :=
  match r, promotion with
  | pawn, Some r' => r'
  | _, _ => r
  end.

(** The move is made by a pawn, or a piece leaves [from] for another,
    occupied square. *)
Definition resetsClock (b : Board.t) (m : Move) : bool :=
  SquareSet.has (Board.pawn b) (from m)
  || Board.has b (from m) && Board.has b (to m) && negb (from m =? to m).

(** The squares of a placement list are on the board. *)
Definition onBoard (ps : list (Square * Color * Role)) : Prop :=
  forall sq c r, In (sq, c, r) ps -> 0 <= sq < 64.

(** The squares of the moves are on the board. *)
Definition movesOnBoard (moves : list Move) : Prop :=
  forall m, In m moves -> 0 <= from m < 64 /\ 0 <= to m < 64.

(** The colour to move after [n] more half-moves. *)
Fixpoint turnAfter (n : nat) (c : Color) : Color :=
  match n with
  | O => c
  | S n' => turnAfter n' (opposite c)
  end.

(** The counters of a position are JavaScript numbers.  On an integer
    [x] with [-2^53 <= x < 2^53] the sum [x + 1] is an integer of
    absolute value at most [2^53], so the code's [x += 1] is exact; from
    [2^53] on the sum is rounded to a double and the counter stops
    counting. *)
Definition countsExactly (x : Z) : Prop :=
  - 9007199254740992 <= x < 9007199254740992.

(** What [x += 1] leaves when [x] counts exactly. *)
Definition counterValue (x : Z) : Prop :=
  - 9007199254740992 <= x <= 9007199254740992.

(** Both counters of [pos] are non-negative and can be incremented [n]
    more times without passing [2^53]: every increment of the next [n]
    half-moves is exact. *)
Definition roomFor (n : nat) (pos : Position.t) : Prop :=
  0 <= Position.halfmoves pos
  /\ Position.halfmoves pos + Z.of_nat n <= 9007199254740992
  /\ 0 <= Position.fullmoves pos
  /\ Position.fullmoves pos + Z.of_nat n <= 9007199254740992.

(* ===================================================================== *)
(** ** Vocabulary: what [attacksTo] collects *)
(* ===================================================================== *)

(** Square [i] holds a piece of colour [attacker] that [attacksTo]
    counts as attacking [sq]: a piece of any role that a rook on [sq]
    would reach, a bishop one bishop step of the other colour away, a
    knight a jump away, a king next to [sq], or a pawn on a square a pawn
    of the other colour on [sq] would attack. *)
Definition attackerStep (board : Board.t) (attacker : Color)
    (occupied : Square -> bool) (sq i : Square) : bool :=
  SquareSet.has (Board.byColor board attacker) i
  && (rookStep occupied sq i
      || (diagonalStep sq i || forwardStep (opposite attacker) sq i)
         && SquareSet.has (Board.bishop board) i
      || knightStep sq i && SquareSet.has (Board.knight board) i
      || kingStep sq i && SquareSet.has (Board.king board) i
      || diagonalStep sq i && SquareSet.has (Board.king board) i
      || forwardDiagonalStep (opposite attacker) sq i
         && SquareSet.has (Board.pawn board) i).

(** Every member of [d] is a member of [s]. *)
Definition within (d s : SquareSet.t) : Prop :=
  forall i, 0 <= i < 64 -> SquareSet.has d i = true -> SquareSet.has s i = true.

(* ===================================================================== *)
(** ** util.ts: coordinates, square names and UCI moves *)
(* ===================================================================== *)

(** A JavaScript string, as its UTF-16 code units. *)
Definition JSString : Type := list Z.

Fixpoint strEqb (a b : JSString) : bool :=
  match a, b with
  | [], [] => true
  | x :: a', y :: b' => (x =? y) && strEqb a' b'
  | _, _ => false
  end.

(** [String.prototype.toLowerCase] on strings of ASCII code units, the
    only ones the properties below pass to it: the letters A to Z become
    a to z, every other ASCII code unit stays. *)
Definition toLowerCase (s : JSString) : JSString :=
  map (fun c => if (65 <=? c) && (c <=? 90) then c + 32 else c) s.

Definition isAscii (s : JSString) : Prop := forall c, In c s -> 0 <= c < 128.

(** [FILE_NAMES] and [RANK_NAMES] of types.ts: 'a'..'h' and '1'..'8'. *)
Definition FILE_NAMES : list JSString :=
  [[97]; [98]; [99]; [100]; [101]; [102]; [103]; [104]].
Definition RANK_NAMES : list JSString :=
  [[49]; [50]; [51]; [52]; [53]; [54]; [55]; [56]].

(** The text a value contributes to a string concatenation: an array
    element that is [undefined] contributes the text "undefined". *)
Definition concatText (o : option JSString) : JSString :=
  match o with
  | Some s => s
  | None => [117; 110; 100; 101; 102; 105; 110; 101; 100]
  end.

Definition squareFromCoords (file rank : Z) : option Square :=
  if (0 <=? file) && (file <? 8) && (0 <=? rank) && (rank <? 8)
  then Some (file + 8 * rank)
  else None.

Definition roleToChar (r : Role) : JSString :=
  match r with
  | pawn => [112]
  | promotedpawn => [77]
  | knight => [110]
  | bishop => [115]
  | rook => [114]
  | queen => [109]
  | king => [107]
  end.

(** [switch (ch.toLowerCase())] with its cases in source order. *)
Definition charToRole (ch : JSString) : option Role :=
  let l := toLowerCase ch in
  if strEqb l [112] then Some pawn
  else if strEqb l [77] then Some promotedpawn
  else if strEqb l [110] then Some knight
  else if strEqb l [115] then Some bishop
  else if strEqb l [114] then Some rook
  else if strEqb l [109] then Some queen
  else if strEqb l [107] then Some king
  else None.

(** [str.length !== 2] returns [undefined]; otherwise both
    [charCodeAt] calls are within the string. *)
Definition parseSquare (str : JSString) : option Square :=
  match str with
  | [c0; c1] => squareFromCoords (c0 - 97) (c1 - 49)
  | _ => None
  end.

Definition makeSquare (square : Square) : JSString :=
  concatText (index FILE_NAMES (squareFile square))
  ++ concatText (index RANK_NAMES (squareRank square)).

(** [str.slice(a, b)] for [0 <= a <= b]. *)
Definition slice (str : JSString) (a b : nat) : JSString :=
  firstn (b - a) (skipn a str).

Definition parseUci (str : JSString) : option Move :=
  if (Nat.eqb (length str) 4) || (Nat.eqb (length str) 5) then
    let from := parseSquare (slice str 0 2) in
    let to := parseSquare (slice str 2 4) in
    let continue (promotion : option Role) :=
      match from, to with
      | Some f, Some t => Some (mkMove f t promotion)
      | _, _ => None
      end in
    if Nat.eqb (length str) 5 then
      match charToRole (slice str 4 5) with
      | Some r => continue (Some r)
      | None => None
      end
    else continue None
  else None.

Definition makeUci (move : Move) : JSString :=
  makeSquare (from move) ++ makeSquare (to move)
  ++ match promotion move with
     | Some r => roleToChar r
     | None => []
     end.

(** *** Vocabulary *)

(** The role [charToRole] reads back from the letter of a role. *)
Definition readBackRole (r : Role) : Role :=
  match r with
  | promotedpawn => queen
  | _ => r
  end.

(* ===================================================================== *)
(** ** Vocabulary: integers as rows of bit fields *)
(* ===================================================================== *)

(** The integer whose consecutive [w]-bit fields, lowest first, hold the
    numbers of [cs]. *)
Definition fields (w : Z) (cs : list Z) : Z :=
  fold_right (fun c acc => c + 2 ^ w * acc) 0 cs.

(** Every other field kept, the rest zero. *)
Fixpoint alt (keep : bool) (cs : list Z) : list Z :=
  match cs with
  | [] => []
  | c :: rest => (if keep then c else 0) :: alt (negb keep) rest
  end.

(** The mask that keeps every other one of [n] fields of width [w]. *)
Fixpoint altMask (keep : bool) (w : Z) (n : nat) : Z :=
  match n with
  | O => 0
  | S n' => (if keep then 2 ^ w - 1 else 0) + 2 ^ w * altMask (negb keep) w n'
  end.

(** Neighbouring fields added, two by two. *)
Fixpoint pairSum (cs : list Z) : list Z :=
  match cs with
  | a :: (b :: rest) => (a + b) :: pairSum rest
  | _ => cs
  end.

(** Each field with its upper neighbour added. *)
Fixpoint addNext (cs : list Z) : list Z :=
  match cs with
  | [] => []
  | a :: rest => (a + hd 0 rest) :: addNext rest
  end.

Definition sumZ (l : list Z) : Z := fold_right Z.add 0 l.

(** The lowest [n] binary digits of [u], as 0 and 1. *)
Definition bitsOf (u : Z) (n : nat) : list Z :=
  map (fun i => Z.b2z (Z.testbit u (Z.of_nat i))) (seq 0 n).

(** The number of members of a set. *)
Definition memberCount (s : SquareSet.t) : Z :=
  Z.of_nat (length (filter (SquareSet.has s) allSquares)).

(* ===================================================================== *)
(** ** 32-bit conversions *)
(* ===================================================================== *)

Lemma toUint32_toInt32 x : JS.toUint32 (JS.toInt32 x) = JS.toUint32 x.
Proof.
  unfold JS.toUint32, JS.toInt32.
  Z.div_mod_to_equations. lia.
Qed.

Lemma toInt32_range x : -2147483648 <= JS.toInt32 x < 2147483648.
Proof. unfold JS.toInt32. Z.div_mod_to_equations. lia. Qed.

Lemma toInt32_id x : -2147483648 <= x < 2147483648 -> JS.toInt32 x = x.
Proof. unfold JS.toInt32. intros. Z.div_mod_to_equations. lia. Qed.

Lemma toInt32_idem x : JS.toInt32 (JS.toInt32 x) = JS.toInt32 x.
Proof. apply toInt32_id, toInt32_range. Qed.

Lemma toUint32_range x : 0 <= JS.toUint32 x < 4294967296.
Proof. apply Z.mod_pos_bound. lia. Qed.

Lemma toInt32_toUint32 x : JS.toInt32 (JS.toUint32 x) = JS.toInt32 x.
Proof.
  unfold JS.toUint32, JS.toInt32.
  Z.div_mod_to_equations. lia.
Qed.

Lemma toInt32_mod2 x : JS.toInt32 x mod 2 = x mod 2.
Proof. unfold JS.toInt32. Z.div_mod_to_equations. lia. Qed.

Lemma toUint32_mod2 x : JS.toUint32 x mod 2 = x mod 2.
Proof. unfold JS.toUint32. Z.div_mod_to_equations. lia. Qed.

(** The low 32 bits survive both conversions. *)
Lemma testbit_toUint32 x k :
  0 <= k < 32 -> Z.testbit (JS.toUint32 x) k = Z.testbit x k.
Proof.
  intros Hk. unfold JS.toUint32.
  change 4294967296 with (2 ^ 32).
  apply Z.mod_pow2_bits_low. lia.
Qed.

Lemma testbit_toInt32 x k :
  0 <= k < 32 -> Z.testbit (JS.toInt32 x) k = Z.testbit x k.
Proof.
  intros Hk.
  rewrite <- (testbit_toUint32 (JS.toInt32 x)) by assumption.
  rewrite toUint32_toInt32. apply testbit_toUint32. assumption.
Qed.

(** Two int32 values with the same low 32 bits are equal. *)
Lemma int32_ext a b :
  (forall k, 0 <= k < 32 -> Z.testbit a k = Z.testbit b k) ->
  JS.toInt32 a = JS.toInt32 b.
Proof.
  intros H.
  rewrite <- (toInt32_toUint32 a), <- (toInt32_toUint32 b).
  f_equal. apply Z.bits_inj'. intros k Hk.
  destruct (Z.lt_ge_cases k 32) as [Hlt | Hge].
  - rewrite !testbit_toUint32 by lia. apply H. lia.
  - unfold JS.toUint32. change 4294967296 with (2 ^ 32).
    rewrite !Z.mod_pow2_bits_high by lia. reflexivity.
Qed.

Lemma land_1_r x : Z.land x 1 = x mod 2.
Proof. change 1 with (Z.ones 1). rewrite Z.land_ones by lia. reflexivity. Qed.

Lemma land_mod2 x y : Z.land x y mod 2 = (x mod 2) * (y mod 2).
Proof.
  rewrite <- !Z.bit0_mod, Z.land_spec.
  destruct (Z.testbit x 0), (Z.testbit y 0); reflexivity.
Qed.

Lemma half_sum d u : (d mod 2) * (u mod 2) + u / 2 + d / 2 = (d + u) / 2.
Proof.
  assert (Hd : d mod 2 = 0 \/ d mod 2 = 1) by (pose proof (Z.mod_pos_bound d 2); lia).
  assert (Hu : u mod 2 = 0 \/ u mod 2 = 1) by (pose proof (Z.mod_pos_bound u 2); lia).
  destruct Hd as [Hd|Hd], Hu as [Hu|Hu]; rewrite Hd, Hu;
    Z.div_mod_to_equations; lia.
Qed.

(** The carry [c] of [minus64] is the carry out of the 32-bit addition
    [(a - b) + b], which is 1 exactly when the low halves borrow. *)
Lemma minus64_borrow (A B : Z) :
  JS.ushr (JS.and (JS.and (A - B) B) 1 + JS.ushr B 1 + JS.ushr (A - B) 1) 31
  = (JS.toUint32 (A - B) + JS.toUint32 B) / 4294967296.
Proof.
  unfold JS.ushr, JS.and.
  change (1 mod 32) with 1. change (31 mod 32) with 31.
  rewrite !Z.shiftr_div_pow2 by lia.
  change (2 ^ 1) with 2. change (2 ^ 31) with 2147483648.
  change (JS.toInt32 1) with 1.
  rewrite land_1_r.
  rewrite toInt32_mod2, land_mod2, !toInt32_mod2.
  rewrite <- (toUint32_mod2 (A - B)), <- (toUint32_mod2 B).
  rewrite half_sum.
  pose proof (toUint32_range (A - B)) as Hd.
  pose proof (toUint32_range B) as Hu.
  generalize dependent (JS.toUint32 (A - B)). generalize dependent (JS.toUint32 B).
  intros u Hu d Hd.
  unfold JS.toUint32 at 1.
  rewrite Z.mod_small by (Z.div_mod_to_equations; lia).
  rewrite Z.div_div by lia. reflexivity.
Qed.

(* ===================================================================== *)
(** ** Membership, bit by bit *)
(* ===================================================================== *)

Lemma int32_high_bits X j :
  -2147483648 <= X < 2147483648 -> 31 <= j -> Z.testbit X j = (X <? 0).
Proof.
  intros HX Hj. destruct (Z.ltb_spec X 0) as [Hneg | Hpos].
  - apply Z.bits_above_log2_neg; [assumption|].
    destruct (Z.eq_dec (Z.pred (- X)) 0) as [-> | Hnz]; [cbn; lia|].
    apply Z.lt_le_trans with 31; [|assumption].
    apply Z.log2_lt_pow2; [lia|]. change (2 ^ 31) with 2147483648. lia.
  - destruct (Z.eq_dec X 0) as [-> | Hnz]; [apply Z.bits_0|].
    apply Z.bits_above_log2; [assumption|].
    apply Z.lt_le_trans with 31; [|assumption].
    apply Z.log2_lt_pow2; [lia|]. change (2 ^ 31) with 2147483648. lia.
Qed.

Lemma testbit_toInt32_high x j :
  31 <= j -> Z.testbit (JS.toInt32 x) j = Z.testbit (JS.toInt32 x) 31.
Proof.
  intros Hj. rewrite !int32_high_bits by (try apply toInt32_range; lia).
  reflexivity.
Qed.

Lemma shl_1 k : 0 <= k < 32 -> JS.shl 1 k = JS.toInt32 (2 ^ k).
Proof.
  intros Hk. unfold JS.shl. change (JS.toInt32 1) with 1.
  rewrite Z.mod_small by lia. rewrite Z.shiftl_1_l. reflexivity.
Qed.

Lemma testbit_shl_1 k j :
  0 <= k < 32 -> 0 <= j < 32 -> Z.testbit (JS.shl 1 k) j = (k =? j).
Proof.
  intros Hk Hj. rewrite shl_1 by assumption.
  rewrite testbit_toInt32 by assumption. apply Z.pow2_bits_eqb. lia.
Qed.

(** [x & (1 << k)] is non-zero exactly when bit [k] of [x] is set. *)
Lemma truthy_and_shl_1 x k :
  0 <= k < 32 -> JS.truthy (JS.and x (JS.shl 1 k)) = Z.testbit x k.
Proof.
  intros Hk. unfold JS.truthy, JS.and.
  destruct (Z.testbit x k) eqn:Hb.
  - destruct (Z.eqb_spec (Z.land (JS.toInt32 x) (JS.toInt32 (JS.shl 1 k))) 0) as [E|]; [|reflexivity].
    exfalso.
    assert (H : Z.testbit (Z.land (JS.toInt32 x) (JS.toInt32 (JS.shl 1 k))) k = true).
    { rewrite Z.land_spec, !testbit_toInt32, testbit_shl_1 by assumption.
      rewrite Hb, Z.eqb_refl. reflexivity. }
    rewrite E, Z.bits_0 in H. discriminate.
  - destruct (Z.eqb_spec (Z.land (JS.toInt32 x) (JS.toInt32 (JS.shl 1 k))) 0) as [|N]; [reflexivity|].
    exfalso. apply N. apply Z.bits_inj'. intros j Hj.
    rewrite Z.bits_0, Z.land_spec.
    destruct (Z.lt_ge_cases j 32) as [Hlt | Hge].
    + rewrite !testbit_toInt32, testbit_shl_1 by lia.
      destruct (Z.eqb_spec k j) as [-> | _]; [rewrite Hb|]; (try reflexivity; apply andb_false_r).
    + rewrite (testbit_toInt32_high x), (testbit_toInt32_high (JS.shl 1 k)) by lia.
      rewrite !testbit_toInt32, testbit_shl_1 by lia.
      destruct (Z.eqb_spec k 31) as [-> | _]; [rewrite Hb|]; (try reflexivity; apply andb_false_r).
Qed.

Lemma has_testbit s i :
  0 <= i < 64 ->
  SquareSet.has s i
  = if 32 <=? i then Z.testbit (SquareSet.hi s) (i - 32)
    else Z.testbit (SquareSet.lo s) i.
Proof.
  intros Hi. unfold SquareSet.has.
  destruct (Z.leb_spec 32 i); apply truthy_and_shl_1; lia.
Qed.

Lemma has_new l h i :
  0 <= i < 64 ->
  SquareSet.has (SquareSet.new l h) i
  = if 32 <=? i then Z.testbit h (i - 32) else Z.testbit l i.
Proof.
  intros Hi. rewrite has_testbit by assumption. cbn [SquareSet.new SquareSet.hi SquareSet.lo].
  destruct (Z.leb_spec 32 i); apply testbit_toInt32; lia.
Qed.

Lemma wf_new l h : SquareSet.wf (SquareSet.new l h) = true.
Proof.
  unfold SquareSet.wf, SquareSet.new. cbn [SquareSet.lo SquareSet.hi].
  rewrite !toInt32_idem, !Z.eqb_refl. reflexivity.
Qed.

Lemma wf_halves s :
  SquareSet.wf s = true ->
  SquareSet.lo s = JS.toInt32 (SquareSet.lo s)
  /\ SquareSet.hi s = JS.toInt32 (SquareSet.hi s).
Proof.
  unfold SquareSet.wf. intros H. apply andb_true_iff in H as [H1 H2].
  split; apply Z.eqb_eq; assumption.
Qed.

(** Extensionality: two constructor-made sets with the same members are
    the same value. *)
Lemma SquareSet_ext s t :
  SquareSet.wf s = true -> SquareSet.wf t = true ->
  (forall i, 0 <= i < 64 -> SquareSet.has s i = SquareSet.has t i) ->
  s = t.
Proof.
  intros Hs Ht H.
  apply wf_halves in Hs as [Hsl Hsh]. apply wf_halves in Ht as [Htl Hth].
  destruct s as [sl sh], t as [tl th]. cbn [SquareSet.lo SquareSet.hi] in *.
  f_equal.
  - rewrite Hsl, Htl. apply int32_ext. intros k Hk.
    specialize (H k ltac:(lia)). rewrite !has_testbit in H by lia.
    cbn [SquareSet.lo SquareSet.hi] in H.
    destruct (Z.leb_spec 32 k); [lia | exact H].
  - rewrite Hsh, Hth. apply int32_ext. intros k Hk.
    specialize (H (k + 32) ltac:(lia)). rewrite !has_testbit in H by lia.
    cbn [SquareSet.lo SquareSet.hi] in H.
    destruct (Z.leb_spec 32 (k + 32)); [|lia].
    replace (k + 32 - 32) with k in H by lia. exact H.
Qed.

Lemma testbit_or a b k :
  0 <= k < 32 -> Z.testbit (JS.or a b) k = Z.testbit a k || Z.testbit b k.
Proof.
  intros. unfold JS.or. rewrite Z.lor_spec, !testbit_toInt32 by assumption.
  reflexivity.
Qed.

Lemma testbit_and a b k :
  0 <= k < 32 -> Z.testbit (JS.and a b) k = Z.testbit a k && Z.testbit b k.
Proof.
  intros. unfold JS.and. rewrite Z.land_spec, !testbit_toInt32 by assumption.
  reflexivity.
Qed.

Lemma testbit_xor a b k :
  0 <= k < 32 -> Z.testbit (JS.xor a b) k = xorb (Z.testbit a k) (Z.testbit b k).
Proof.
  intros. unfold JS.xor. rewrite Z.lxor_spec, !testbit_toInt32 by assumption.
  reflexivity.
Qed.

Lemma testbit_not a k :
  0 <= k < 32 -> Z.testbit (JS.not a) k = negb (Z.testbit a k).
Proof.
  intros. unfold JS.not. rewrite Z.lnot_spec, testbit_toInt32 by lia.
  reflexivity.
Qed.

Ltac has_op :=
  intros; rewrite ?has_new by assumption; rewrite ?has_testbit by assumption;
  match goal with
  | |- context [32 <=? ?i] => destruct (Z.leb_spec 32 i)
  end;
  rewrite ?testbit_or, ?testbit_and, ?testbit_xor, ?testbit_not,
    ?testbit_shl_1 by lia;
  try reflexivity.

Lemma has_union s t i :
  0 <= i < 64 ->
  SquareSet.has (SquareSet.union s t) i = SquareSet.has s i || SquareSet.has t i.
Proof. unfold SquareSet.union. has_op. Qed.

Lemma has_intersect s t i :
  0 <= i < 64 ->
  SquareSet.has (SquareSet.intersect s t) i = SquareSet.has s i && SquareSet.has t i.
Proof. unfold SquareSet.intersect. has_op. Qed.

Lemma has_diff s t i :
  0 <= i < 64 ->
  SquareSet.has (SquareSet.diff s t) i = SquareSet.has s i && negb (SquareSet.has t i).
Proof. unfold SquareSet.diff. has_op. Qed.

Lemma has_empty i : 0 <= i < 64 -> SquareSet.has SquareSet.empty i = false.
Proof.
  intros. unfold SquareSet.empty. rewrite has_new by assumption.
  destruct (32 <=? i); apply Z.bits_0.
Qed.

Ltac eqb_cases :=
  repeat match goal with
         | |- context [?a =? ?b] => destruct (Z.eqb_spec a b)
         end;
  try lia;
  rewrite ?orb_true_r, ?orb_false_r, ?andb_true_r, ?andb_false_r;
  try reflexivity.

Lemma has_fromSquare sq i :
  0 <= sq < 64 -> 0 <= i < 64 ->
  SquareSet.has (SquareSet.fromSquare sq) i = (i =? sq).
Proof.
  intros Hsq Hi. unfold SquareSet.fromSquare.
  destruct (Z.leb_spec 32 sq); rewrite has_new by assumption;
    destruct (Z.leb_spec 32 i);
    rewrite ?testbit_shl_1, ?Z.bits_0 by lia; eqb_cases.
Qed.

Lemma has_with s sq i :
  0 <= sq < 64 -> 0 <= i < 64 ->
  SquareSet.has (SquareSet.with_ s sq) i = (i =? sq) || SquareSet.has s i.
Proof.
  intros Hsq Hi. unfold SquareSet.with_.
  destruct (Z.leb_spec 32 sq); rewrite has_new, (has_testbit s) by assumption;
    destruct (Z.leb_spec 32 i);
    rewrite ?testbit_or, ?testbit_shl_1 by lia; eqb_cases.
Qed.

Lemma has_without s sq i :
  0 <= sq < 64 -> 0 <= i < 64 ->
  SquareSet.has (SquareSet.without s sq) i = negb (i =? sq) && SquareSet.has s i.
Proof.
  intros Hsq Hi. unfold SquareSet.without.
  destruct (Z.leb_spec 32 sq); rewrite has_new, (has_testbit s) by assumption;
    destruct (Z.leb_spec 32 i);
    rewrite ?testbit_and, ?testbit_not, ?testbit_shl_1 by lia; eqb_cases.
Qed.

Lemma wf_with s sq : SquareSet.wf (SquareSet.with_ s sq) = true.
Proof. unfold SquareSet.with_. destruct (32 <=? sq); apply wf_new. Qed.

Lemma wf_without s sq : SquareSet.wf (SquareSet.without s sq) = true.
Proof. unfold SquareSet.without. destruct (32 <=? sq); apply wf_new. Qed.

Lemma wf_fromSquare sq : SquareSet.wf (SquareSet.fromSquare sq) = true.
Proof. unfold SquareSet.fromSquare. destruct (32 <=? sq); apply wf_new. Qed.

(** A constructor-made set is non-empty exactly when it has a member. *)
Lemma has_nonEmpty s i :
  0 <= i < 64 -> SquareSet.has s i = true -> SquareSet.nonEmpty s = true.
Proof.
  intros Hi H. rewrite has_testbit in H by assumption.
  unfold SquareSet.nonEmpty.
  destruct (Z.eqb_spec (SquareSet.lo s) 0) as [El|]; [|reflexivity].
  destruct (Z.eqb_spec (SquareSet.hi s) 0) as [Eh|]; [|reflexivity].
  rewrite El, Eh in H. destruct (32 <=? i); rewrite Z.bits_0 in H; discriminate.
Qed.

Lemma int32_nonzero_bit x :
  x = JS.toInt32 x -> x <> 0 -> exists k, 0 <= k < 32 /\ Z.testbit x k = true.
Proof.
  intros Hx Hnz.
  destruct (existsb (fun n => Z.testbit x (Z.of_nat n)) (seq 0 32)) eqn:E.
  - apply existsb_exists in E as (n & Hin & Hb). apply in_seq in Hin.
    exists (Z.of_nat n). split; [lia | exact Hb].
  - exfalso. apply Hnz. rewrite Hx.
    change 0 with (JS.toInt32 0). apply int32_ext. intros k Hk.
    rewrite Z.bits_0.
    assert (Hall : forall n, In n (seq 0 32) -> Z.testbit x (Z.of_nat n) = false).
    { intros n Hin. destruct (Z.testbit x (Z.of_nat n)) eqn:Hb; [|reflexivity].
      assert (existsb (fun n => Z.testbit x (Z.of_nat n)) (seq 0 32) = true)
        by (apply existsb_exists; eauto).
      congruence. }
    specialize (Hall (Z.to_nat k)). rewrite Z2Nat.id in Hall by lia.
    apply Hall. apply in_seq. lia.
Qed.

Lemma nonEmpty_has s :
  SquareSet.wf s = true -> SquareSet.nonEmpty s = true ->
  exists i, 0 <= i < 64 /\ SquareSet.has s i = true.
Proof.
  intros Hwf H. apply wf_halves in Hwf as [Hl Hh].
  unfold SquareSet.nonEmpty in H. apply orb_true_iff in H as [H | H];
    apply negb_true_iff, Z.eqb_neq in H.
  - destruct (int32_nonzero_bit _ Hl H) as (k & Hk & Hb).
    exists k. split; [lia|]. rewrite has_testbit by lia.
    destruct (Z.leb_spec 32 k); [lia | exact Hb].
  - destruct (int32_nonzero_bit _ Hh H) as (k & Hk & Hb).
    exists (k + 32). split; [lia|]. rewrite has_testbit by lia.
    destruct (Z.leb_spec 32 (k + 32)); [|lia].
    replace (k + 32 - 32) with k by lia. exact Hb.
Qed.

Lemma isEmpty_nonEmpty s : SquareSet.isEmpty s = negb (SquareSet.nonEmpty s).
Proof.
  unfold SquareSet.isEmpty, SquareSet.nonEmpty.
  destruct (SquareSet.lo s =? 0), (SquareSet.hi s =? 0); reflexivity.
Qed.

Lemma isEmpty_has s i :
  0 <= i < 64 -> SquareSet.isEmpty s = true -> SquareSet.has s i = false.
Proof.
  intros Hi H. destruct (SquareSet.has s i) eqn:E; [|reflexivity].
  apply has_nonEmpty in E; [|assumption].
  rewrite isEmpty_nonEmpty, E in H. discriminate.
Qed.

Lemma equals_eq s t : SquareSet.equals s t = true <-> s = t.
Proof.
  unfold SquareSet.equals. destruct s, t. cbn [SquareSet.lo SquareSet.hi].
  rewrite andb_true_iff, !Z.eqb_eq. split; [intros [-> ->]; reflexivity|].
  intros E. injection E. auto.
Qed.

(* ===================================================================== *)
(** ** The board invariant, square by square *)
(* ===================================================================== *)

Lemma allSquares_In i : In i allSquares <-> 0 <= i < 64.
Proof.
  unfold allSquares. rewrite in_map_iff. split.
  - intros (n & <- & Hn). apply in_seq in Hn. lia.
  - intros Hi. exists (Z.to_nat i). split; [lia|]. apply in_seq. lia.
Qed.

Lemma wf_union s t : SquareSet.wf (SquareSet.union s t) = true.
Proof. apply wf_new. Qed.

Lemma wf_intersect s t : SquareSet.wf (SquareSet.intersect s t) = true.
Proof. apply wf_new. Qed.

Lemma wf_empty : SquareSet.wf SquareSet.empty = true.
Proof. reflexivity. Qed.

Lemma no_member_isEmpty s :
  SquareSet.wf s = true ->
  (forall i, 0 <= i < 64 -> SquareSet.has s i = false) ->
  SquareSet.isEmpty s = true.
Proof.
  intros Hwf H. rewrite isEmpty_nonEmpty.
  destruct (SquareSet.nonEmpty s) eqn:E; [|reflexivity].
  destruct (nonEmpty_has s Hwf E) as (i & Hi & Hb).
  rewrite H in Hb by assumption. discriminate.
Qed.

Lemma isDisjoint_has s t :
  SquareSet.isDisjoint s t = true <->
  (forall i, 0 <= i < 64 -> SquareSet.has s i && SquareSet.has t i = false).
Proof.
  unfold SquareSet.isDisjoint. split.
  - intros H i Hi. rewrite <- has_intersect by assumption.
    apply isEmpty_has; assumption.
  - intros H. apply no_member_isEmpty; [apply wf_intersect|].
    intros i Hi. rewrite has_intersect by assumption. apply H. assumption.
Qed.

Lemma has_fold_union l acc i :
  0 <= i < 64 ->
  SquareSet.has (fold_left SquareSet.union l acc) i
  = SquareSet.has acc i || existsb (fun x => x) (map (fun s => SquareSet.has s i) l).
Proof.
  intros Hi. revert acc. induction l as [|s l IH]; intros acc; cbn [fold_left map existsb].
  - rewrite orb_false_r. reflexivity.
  - rewrite IH, has_union by assumption. rewrite orb_assoc. reflexivity.
Qed.

Lemma wf_fold_union l acc :
  SquareSet.wf acc = true -> SquareSet.wf (fold_left SquareSet.union l acc) = true.
Proof.
  revert acc. induction l as [|s l IH]; intros acc H; cbn [fold_left]; [assumption|].
  apply IH, wf_union.
Qed.

Lemma countTrue_cons x l :
  countTrue (x :: l) = ((if x then 1 else 0) + countTrue l)%nat.
Proof. unfold countTrue. destruct x; reflexivity. Qed.

Lemma countTrue_zero l :
  countTrue l = 0%nat <-> existsb (fun x => x) l = false.
Proof.
  induction l as [|x l IH]; [split; reflexivity|].
  rewrite countTrue_cons. cbn [existsb]. destruct x; cbn [orb].
  - split; intros; [lia | discriminate].
  - exact IH.
Qed.

Lemma countTrue_pos l :
  existsb (fun x => x) l = true -> (1 <= countTrue l)%nat.
Proof.
  intros H. destruct (countTrue l) eqn:E; [|lia].
  apply countTrue_zero in E. congruence.
Qed.

Lemma pairwiseDisjoint_count l i :
  0 <= i < 64 -> pairwiseDisjoint l = true ->
  (countTrue (map (fun s => SquareSet.has s i) l) <= 1)%nat.
Proof.
  intros Hi. induction l as [|s l IH]; intros H; [cbn; lia|].
  cbn [pairwiseDisjoint] in H. apply andb_true_iff in H as [Hs Hl].
  cbn [map]. rewrite countTrue_cons.
  destruct (SquareSet.has s i) eqn:Es; [|apply IH; assumption].
  assert (E : countTrue (map (fun s => SquareSet.has s i) l) = 0%nat).
  { apply countTrue_zero. apply not_true_is_false. intros Hex.
    apply existsb_exists in Hex as (x & Hin & Hx).
    apply in_map_iff in Hin as (t & <- & Hin).
    rewrite forallb_forall in Hs. specialize (Hs t Hin).
    apply isDisjoint_has with (i := i) in Hs; [|assumption].
    rewrite Es, Hx in Hs. discriminate. }
  rewrite E. lia.
Qed.

Lemma count_pairwiseDisjoint l :
  (forall i, 0 <= i < 64 ->
             (countTrue (map (fun s => SquareSet.has s i) l) <= 1)%nat) ->
  pairwiseDisjoint l = true.
Proof.
  induction l as [|s l IH]; intros H; [reflexivity|].
  cbn [pairwiseDisjoint]. apply andb_true_iff. split.
  - apply forallb_forall. intros t Hin. apply isDisjoint_has. intros i Hi.
    specialize (H i Hi). cbn [map] in H. rewrite countTrue_cons in H.
    destruct (SquareSet.has s i); [|reflexivity]. cbn [andb].
    apply not_true_is_false. intros Ht.
    assert (Hex : existsb (fun x => x) (map (fun s => SquareSet.has s i) l) = true).
    { apply existsb_exists. exists (SquareSet.has t i). split; [|assumption].
      apply in_map_iff. eauto. }
    apply countTrue_pos in Hex. lia.
  - apply IH. intros i Hi. specialize (H i Hi). cbn [map] in H.
    rewrite countTrue_cons in H. lia.
Qed.

Lemma existsb_id_map_roles (p pp n bi r q k : bool) :
  existsb (fun x => x) [p; pp; n; bi; r; q; k] = p || pp || n || bi || r || q || k.
Proof. destruct p, pp, n, bi, r, q, k; reflexivity. Qed.

Lemma board_inv_local b : board_inv b = true -> board_local b.
Proof.
  unfold board_inv, board_local. destruct (Board.promotedpawn b) as [pp|]; [|discriminate].
  intros H.
  apply andb_true_iff in H as [H Hone].
  apply andb_true_iff in H as [H Hpw].
  apply andb_true_iff in H as [H Hdis].
  apply andb_true_iff in H as [H Hroles].
  apply andb_true_iff in H as [Hwf Hcol].
  exists pp. split; [reflexivity|]. split; [assumption|].
  intros i Hi. unfold squareOK.
  pose proof (proj1 (isDisjoint_has _ _) Hdis i Hi) as Hd.
  pose proof (pairwiseDisjoint_count _ i Hi Hpw) as Hp.
  apply equals_eq in Hcol, Hroles.
  rewrite Hroles at 2. rewrite Hcol at 1.
  rewrite has_union, has_fold_union, has_empty by assumption.
  cbn [orb]. rewrite !eqb_reflx. cbn [andb].
  apply andb_true_iff. split; [apply negb_true_iff; assumption|].
  apply Nat.leb_le. assumption.
Qed.

Lemma board_local_inv b : board_local b -> board_inv b = true.
Proof.
  intros (pp & Hpp & Hwf & Hloc). unfold board_inv. rewrite Hpp, Hwf.
  cbn [andb].
  assert (Hbits : forall i, 0 <= i < 64 ->
            SquareSet.has (Board.occupied b) i
            = SquareSet.has (Board.white b) i || SquareSet.has (Board.black b) i
            /\ SquareSet.has (Board.occupied b) i
               = existsb (fun x => x) (map (fun s => SquareSet.has s i) (roleSets b pp))
            /\ SquareSet.has (Board.white b) i && SquareSet.has (Board.black b) i = false
            /\ (countTrue (map (fun s => SquareSet.has s i) (roleSets b pp)) <= 1)%nat).
  { intros i Hi. specialize (Hloc i Hi). unfold squareOK in Hloc.
    apply andb_true_iff in Hloc as [Hloc H4].
    apply andb_true_iff in Hloc as [Hloc H3].
    apply andb_true_iff in Hloc as [H1 H2].
    apply eqb_prop in H1, H2. apply negb_true_iff in H3. apply Nat.leb_le in H4.
    auto. }
  cbn [forallb] in Hwf.
  apply andb_true_iff in Hwf as [Hwo Hwf].
  apply andb_true_iff; split; [apply andb_true_iff; split;
    [apply andb_true_iff; split; [apply andb_true_iff; split|]|]|].
  - apply equals_eq. apply SquareSet_ext; [assumption | apply wf_union |].
    intros i Hi. rewrite has_union by assumption. apply Hbits. assumption.
  - apply equals_eq. apply SquareSet_ext;
      [assumption | apply wf_fold_union, wf_empty |].
    intros i Hi. rewrite has_fold_union, has_empty by assumption.
    apply Hbits. assumption.
  - apply isDisjoint_has. intros i Hi. apply Hbits. assumption.
  - apply count_pairwiseDisjoint. intros i Hi. apply Hbits. assumption.
  - apply forallb_forall. intros i Hi. apply allSquares_In in Hi.
    destruct (Hbits i Hi) as (H1 & H2 & H3 & H4).
    destruct (SquareSet.has (Board.occupied b) i); [|reflexivity].
    cbn [implb]. apply andb_true_iff. split; apply Nat.eqb_eq.
    + destruct (SquareSet.has (Board.white b) i), (SquareSet.has (Board.black b) i);
        try discriminate; reflexivity.
    + symmetry in H2. apply countTrue_pos in H2. lia.
Qed.

(* ===================================================================== *)
(** ** [take] and [set] on a board that satisfies the invariant *)
(* ===================================================================== *)

Lemma without_absent s sq :
  SquareSet.wf s = true -> 0 <= sq < 64 -> SquareSet.has s sq = false ->
  SquareSet.without s sq = s.
Proof.
  intros Hwf Hsq Habs. apply SquareSet_ext; [apply wf_without | assumption |].
  intros i Hi. rewrite has_without by assumption.
  destruct (Z.eqb_spec i sq) as [-> | _]; [rewrite Habs|]; reflexivity.
Qed.

Local Opaque SquareSet.has SquareSet.without SquareSet.with_ SquareSet.wf.

Ltac split_wf H :=
  cbn [forallb roleSets] in H;
  repeat (let W := fresh "Hwf" in apply andb_true_iff in H as [W H]).

(** On a board satisfying the invariant, [take] returns what [get] finds
    and removes the square from each of the ten sets. *)
Lemma take_mapSets b sq :
  board_inv b = true -> 0 <= sq < 64 ->
  exists old,
    Board.get b sq = Ret old
    /\ Board.take b sq
       = Ret (old, Board_mapSets (fun s => SquareSet.without s sq) b).
Proof.
  intros Hinv Hsq. apply board_inv_local in Hinv as (pp & Hpp & Hwf & Hloc).
  specialize (Hloc sq Hsq).
  destruct b as [occ w bl p opp n bi r q k].
  cbn [Board.occupied Board.white Board.black Board.pawn Board.promotedpawn
       Board.knight Board.bishop Board.rook Board.queen Board.king
       roleSets map] in *.
  subst opp. split_wf Hwf.
  unfold Board.take, Board.get, Board.getColor, Board.getRole, ROLES, Board_mapSets.
  cbn [Board.occupied Board.white Board.black Board.pawn Board.promotedpawn
       Board.knight Board.bishop Board.rook Board.queen Board.king
       Board.getRole_from Board.byRole deref bind option_map].
  destruct (SquareSet.has occ sq) eqn:Ho, (SquareSet.has w sq) eqn:Hw,
    (SquareSet.has bl sq) eqn:Hbl, (SquareSet.has p sq) eqn:Hp,
    (SquareSet.has pp sq) eqn:Hpp', (SquareSet.has n sq) eqn:Hn,
    (SquareSet.has bi sq) eqn:Hbi, (SquareSet.has r sq) eqn:Hr,
    (SquareSet.has q sq) eqn:Hq, (SquareSet.has k sq) eqn:Hk;
    try discriminate Hloc;
    cbn [bind deref role color Board.setOccupied Board.setColor Board.setRole
         Board.byColor Board.byRole
         Board.occupied Board.white Board.black Board.pawn Board.promotedpawn
         Board.knight Board.bishop Board.rook Board.queen Board.king];
    eexists; (split; [reflexivity|]);
    do 2 f_equal; f_equal;
    try reflexivity;
    try (symmetry; apply without_absent; assumption);
    f_equal; symmetry; apply without_absent; assumption.
Qed.

Ltac board_fields :=
  cbn [Board.occupied Board.white Board.black Board.pawn Board.promotedpawn
       Board.knight Board.bishop Board.rook Board.queen Board.king
       Board.setOccupied Board.setColor Board.setRole Board.byColor Board.byRole
       roleSets map forallb option_map Board_mapSets] in *.

Lemma board_inv_without b sq :
  board_inv b = true -> 0 <= sq < 64 ->
  board_inv (Board_mapSets (fun s => SquareSet.without s sq) b) = true.
Proof.
  intros Hinv Hsq. apply board_inv_local in Hinv as (pp & Hpp & Hwf & Hloc).
  destruct b as [occ w bl p opp n bi r q k]. board_fields. subst opp.
  apply board_local_inv. exists (SquareSet.without pp sq). board_fields.
  split; [reflexivity|]. split.
  - rewrite !wf_without. reflexivity.
  - intros i Hi. specialize (Hloc i Hi).
    rewrite !has_without by assumption.
    destruct (Z.eqb_spec i sq) as [-> | _]; cbn [negb andb]; [reflexivity | exact Hloc].
Qed.

Lemma get_after_take b sq :
  0 <= sq < 64 ->
  Board.get (Board_mapSets (fun s => SquareSet.without s sq) b) sq = Ret None.
Proof.
  intros Hsq. unfold Board.get, Board.getColor. board_fields.
  rewrite !has_without by assumption. rewrite Z.eqb_refl. reflexivity.
Qed.

Lemma set_inv b sq c r prm :
  board_inv b = true -> 0 <= sq < 64 ->
  exists old b',
    Board.get b sq = Ret old
    /\ Board.set b sq (mkPiece (Some r) c prm) = Ret (old, b')
    /\ board_inv b' = true
    /\ Board.get b' sq = Ret (Some (mkPiece (Some r) c None)).
Proof.
  intros Hinv Hsq.
  destruct (take_mapSets b sq Hinv Hsq) as (old & Hget & Htake).
  apply board_inv_local in Hinv as (pp & Hpp & Hwf & Hloc).
  exists old. unfold Board.set. rewrite Htake. cbn [bind].
  destruct b as [occ w bl p opp n bi rk q k]. board_fields. subst opp.
  destruct c, r; cbn [role color deref bind]; board_fields;
    eexists; (split; [exact Hget|]); (split; [reflexivity|]);
    (split;
    [ apply board_local_inv; eexists; board_fields;
      (split; [reflexivity|]);
      (split; [rewrite ?wf_without, ?wf_with; reflexivity|]);
      intros i Hi; specialize (Hloc i Hi);
      rewrite ?has_with, ?has_without by assumption;
      (destruct (Z.eqb_spec i sq) as [-> | _]; cbn [negb andb orb];
       [reflexivity | exact Hloc])
    | unfold Board.get, Board.getColor, Board.getRole, ROLES; board_fields;
      cbn [Board.getRole_from Board.byRole deref bind]; board_fields;
      do 3 (rewrite ?has_with, ?has_without, ?Z.eqb_refl by assumption;
            cbn [negb andb orb deref bind]);
      reflexivity ]).
Qed.

Local Transparent SquareSet.has SquareSet.without SquareSet.with_ SquareSet.wf.

(* ===================================================================== *)
(** ** Single squares *)
(* ===================================================================== *)

(** A positive number that shares no bit with its predecessor is a power
    of two. *)
Lemma pow2_of_land u :
  0 < u -> Z.land u (u - 1) = 0 -> u = 2 ^ Z.log2 u.
Proof.
  intros Hu Hland.
  destruct (Z.log2_spec u Hu) as [Hlo Hhi].
  destruct (Z.eq_dec u (2 ^ Z.log2 u)) as [E | N]; [exact E | exfalso].
  assert (Hb1 : Z.testbit u (Z.log2 u) = true) by (apply Z.bit_log2; assumption).
  assert (Hl : Z.log2 (u - 1) = Z.log2 u).
  { apply Z.log2_unique; [apply Z.log2_nonneg | lia]. }
  assert (Hb2 : Z.testbit (u - 1) (Z.log2 u) = true).
  { rewrite <- Hl. apply Z.bit_log2.
    pose proof (Z.pow_pos_nonneg 2 (Z.log2 u) ltac:(lia) (Z.log2_nonneg u)). lia. }
  assert (Hb : Z.testbit (Z.land u (u - 1)) (Z.log2 u) = true)
    by (rewrite Z.land_spec, Hb1, Hb2; reflexivity).
  rewrite Hland, Z.bits_0 in Hb. discriminate.
Qed.

Lemma toUint32_pred x :
  JS.toUint32 x <> 0 -> JS.toUint32 (x - 1) = JS.toUint32 x - 1.
Proof. unfold JS.toUint32. intros H. Z.div_mod_to_equations. lia. Qed.

Lemma toUint32_zero x : x = JS.toInt32 x -> (JS.toUint32 x = 0 <-> x = 0).
Proof.
  intros Hx. pose proof (toInt32_range x) as Hr. rewrite <- Hx in Hr.
  unfold JS.toUint32. split; intros H; [|subst; reflexivity].
  Z.div_mod_to_equations. lia.
Qed.

(** An int32 with [x & (x - 1)] zero is zero or has a single bit. *)
Lemma single_bit x :
  x = JS.toInt32 x -> x <> 0 -> JS.and x (x - 1) = 0 ->
  exists j, 0 <= j < 32 /\ x = JS.toInt32 (2 ^ j) /\ JS.clz32 x = 31 - j.
Proof.
  intros Hx Hnz Hand.
  assert (Hu : JS.toUint32 x <> 0) by (rewrite toUint32_zero; assumption).
  pose proof (toUint32_range x) as Hur.
  assert (Hland : Z.land (JS.toUint32 x) (JS.toUint32 x - 1) = 0).
  { apply Z.bits_inj'. intros k Hk. rewrite Z.bits_0, Z.land_spec.
    destruct (Z.lt_ge_cases k 32) as [Hlt | Hge].
    - rewrite <- toUint32_pred by assumption.
      rewrite !testbit_toUint32 by lia.
      rewrite <- testbit_and by lia. rewrite Hand. apply Z.bits_0.
    - replace (Z.testbit (JS.toUint32 x) k) with false; [reflexivity|].
      symmetry. unfold JS.toUint32. change 4294967296 with (2 ^ 32).
      apply Z.mod_pow2_bits_high. lia. }
  apply pow2_of_land in Hland; [|lia].
  assert (Hj : 0 <= Z.log2 (JS.toUint32 x) < 32).
  { split; [apply Z.log2_nonneg|]. apply Z.log2_lt_pow2; [lia|].
    change (2 ^ 32) with 4294967296. lia. }
  exists (Z.log2 (JS.toUint32 x)). split; [assumption|]. split.
  - rewrite <- Hland. rewrite toInt32_toUint32. assumption.
  - unfold JS.clz32. destruct (Z.eqb_spec (JS.toUint32 x) 0); [contradiction | reflexivity].
Qed.

Lemma square_cases (P : Z -> Prop) :
  (forall n, (n < 64)%nat -> P (Z.of_nat n)) -> forall s, 0 <= s < 64 -> P s.
Proof.
  intros H s Hs. rewrite <- (Z2Nat.id s) by lia. apply H. lia.
Qed.

Lemma singleSquare_fromSquare k :
  0 <= k < 64 -> SquareSet.singleSquare (SquareSet.fromSquare k) = Some k.
Proof.
  revert k. apply square_cases. intros n Hn.
  do 64 (destruct n as [|n]; [vm_compute; reflexivity|]). lia.
Qed.

Lemma singleSquare_inv s k :
  SquareSet.wf s = true -> SquareSet.singleSquare s = Some k ->
  0 <= k < 64 /\ s = SquareSet.fromSquare k.
Proof.
  intros Hwf H. apply wf_halves in Hwf as [Hl Hh].
  unfold SquareSet.singleSquare in H.
  destruct (SquareSet.moreThanOne s) eqn:Hm; [discriminate|].
  unfold SquareSet.moreThanOne in Hm.
  apply orb_false_iff in Hm as [Hm Hhh]. apply orb_false_iff in Hm as [Hboth Hll].
  unfold JS.truthy in Hboth, Hll, Hhh.
  apply negb_false_iff, Z.eqb_eq in Hll, Hhh.
  unfold SquareSet.last in H. destruct s as [lo hi]. cbn [SquareSet.lo SquareSet.hi] in *.
  destruct (Z.eqb_spec hi 0) as [Eh | Nh]; cbn [negb] in H, Hboth.
  - destruct (Z.eqb_spec lo 0) as [El | Nl]; cbn [negb] in H; [discriminate|].
    destruct (single_bit lo Hl Nl Hll) as (j & Hj & Ej & Ec).
    rewrite Ec in H.
    assert (Hk : k = j) by (assert (31 - (31 - j) = k) by congruence; lia).
    subst k. split; [lia|].
    unfold SquareSet.fromSquare. destruct (Z.leb_spec 32 j); [lia|].
    rewrite shl_1 by assumption. unfold SquareSet.new.
    rewrite toInt32_idem, <- Ej, Eh. reflexivity.
  - apply negb_false_iff, Z.eqb_eq in Hboth.
    destruct (single_bit hi Hh Nh Hhh) as (j & Hj & Ej & Ec).
    rewrite Ec in H.
    assert (Hk : k = j + 32) by (assert (63 - (31 - j) = k) by congruence; lia).
    subst k. split; [lia|].
    unfold SquareSet.fromSquare. destruct (Z.leb_spec 32 (j + 32)); [|lia].
    replace (j + 32 - 32) with j by lia.
    rewrite shl_1 by assumption. unfold SquareSet.new.
    rewrite toInt32_idem, <- Ej, Hboth. reflexivity.
Qed.

(** Two different squares make a set of size 2. *)
Lemma size_two_squares a b :
  0 <= a < 64 -> 0 <= b < 64 -> a <> b ->
  SquareSet.size (SquareSet.union (SquareSet.fromSquare a) (SquareSet.fromSquare b)) = 2.
Proof.
  intros Ha Hb Hab.
  assert (H : forallb (fun x => forallb (fun y =>
              (x =? y) || (SquareSet.size (SquareSet.union (SquareSet.fromSquare x)
                                             (SquareSet.fromSquare y)) =? 2))
              allSquares) allSquares = true) by (vm_compute; reflexivity).
  rewrite forallb_forall in H. specialize (H a (proj2 (allSquares_In a) Ha)).
  rewrite forallb_forall in H. specialize (H b (proj2 (allSquares_In b) Hb)).
  apply orb_true_iff in H as [H | H]; apply Z.eqb_eq in H; [contradiction | exact H].
Qed.

(* ===================================================================== *)
(** ** Attack lookups on the board's squares *)
(* ===================================================================== *)

Lemma index_in_range {T} (table : BySquare T) sq :
  length table = 64%nat -> 0 <= sq < 64 -> exists x, index table sq = Some x.
Proof.
  intros Hlen Hsq. unfold index. destruct (Z.ltb_spec sq 0); [lia|].
  destruct (nth_error table (Z.to_nat sq)) eqn:E; [eauto|].
  apply nth_error_None in E. lia.
Qed.

Lemma rookAttacks_total sq occ :
  0 <= sq < 64 -> exists r, rookAttacks sq occ = Ret r.
Proof.
  intros Hsq. unfold rookAttacks, fileAttacks, rankAttacks.
  destruct (index_in_range FILE_RANGE sq eq_refl Hsq) as (f & ->).
  destruct (index_in_range RANK_RANGE sq eq_refl Hsq) as (r & ->).
  cbn [deref bind]. eauto.
Qed.

Lemma attacksTo_total sq attacker board occ :
  0 <= sq < 64 -> exists a, attacksTo sq attacker board occ = Ret a.
Proof.
  intros Hsq. unfold attacksTo, bishopAttacks, knightAttacks, kingAttacks,
    queenAttacks, pawnAttacks.
  destruct (rookAttacks_total sq occ Hsq) as (r & ->).
  destruct (index_in_range (BISHOP_ATTACKS (opposite attacker)) sq
              ltac:(destruct attacker; reflexivity) Hsq) as (b & ->).
  destruct (index_in_range KNIGHT_ATTACKS sq eq_refl Hsq) as (n & ->).
  destruct (index_in_range KING_ATTACKS sq eq_refl Hsq) as (k & ->).
  destruct (index_in_range QUEEN_ATTACKS sq eq_refl Hsq) as (q & ->).
  destruct (index_in_range (PAWN_ATTACKS (opposite attacker)) sq
              ltac:(destruct attacker; reflexivity) Hsq) as (p & ->).
  cbn [deref bind]. eauto.
Qed.

(* ===================================================================== *)
(** ** The checks of [validate] *)
(* ===================================================================== *)

Lemma Board_clone_id b : Board.clone b = b.
Proof. destruct b. reflexivity. Qed.

Lemma opposite_involutive c : opposite (opposite c) = c.
Proof. destruct c; reflexivity. Qed.

Lemma board_inv_wf b :
  board_inv b = true ->
  SquareSet.wf (Board.occupied b) = true
  /\ SquareSet.wf (Board.white b) = true
  /\ SquareSet.wf (Board.black b) = true
  /\ SquareSet.wf (Board.pawn b) = true
  /\ SquareSet.wf (Board.king b) = true.
Proof.
  intros H. apply board_inv_local in H as (pp & _ & Hwf & _).
  cbn [forallb roleSets] in Hwf.
  repeat (let W := fresh "W" in apply andb_true_iff in Hwf as [W Hwf]).
  auto.
Qed.

Lemma emptyBoard_isEmpty b :
  board_inv b = true ->
  (emptyBoard b <-> SquareSet.isEmpty (Board.occupied b) = true).
Proof.
  intros Hinv. destruct (board_inv_wf b Hinv) as (Hwf & _).
  unfold emptyBoard, Board.has. split.
  - intros H. apply no_member_isEmpty; assumption.
  - intros H sq Hsq. apply isEmpty_has; assumption.
Qed.

(** Under the invariant a king stands on a white or a black square, and
    not on both. *)
Lemma king_colors b i :
  board_inv b = true -> 0 <= i < 64 ->
  SquareSet.has (Board.king b) i = true ->
  SquareSet.has (Board.white b) i || SquareSet.has (Board.black b) i = true.
Proof.
  intros Hinv Hi Hk. apply board_inv_local in Hinv as (pp & _ & _ & Hloc).
  specialize (Hloc i Hi). unfold squareOK in Hloc. cbn [roleSets map] in Hloc.
  rewrite Hk in Hloc. rewrite existsb_id_map_roles, !orb_true_r in Hloc.
  destruct (SquareSet.has (Board.occupied b) i),
    (SquareSet.has (Board.white b) i), (SquareSet.has (Board.black b) i);
    try reflexivity; discriminate.
Qed.

Lemma colors_disjoint b i :
  board_inv b = true -> 0 <= i < 64 ->
  SquareSet.has (Board.white b) i && SquareSet.has (Board.black b) i = false.
Proof.
  intros Hinv Hi. apply board_inv_local in Hinv as (pp & _ & _ & Hloc).
  specialize (Hloc i Hi). unfold squareOK in Hloc.
  destruct (SquareSet.has (Board.white b) i), (SquareSet.has (Board.black b) i);
    try reflexivity.
  rewrite !andb_false_r, ?andb_false_l in Hloc. cbn in Hloc.
  rewrite ?andb_false_r in Hloc. discriminate.
Qed.

Lemma kingOf_oneKing b c k :
  board_inv b = true -> Board.kingOf b c = Some k ->
  0 <= k < 64
  /\ SquareSet.intersect (Board.byColor b c) (Board.king b) = SquareSet.fromSquare k.
Proof.
  intros _ H. unfold Board.kingOf in H.
  apply singleSquare_inv in H; [assumption | apply wf_intersect].
Qed.

Lemma oneKing_kingOf b c k :
  0 <= k < 64 ->
  SquareSet.intersect (Board.byColor b c) (Board.king b) = SquareSet.fromSquare k ->
  Board.kingOf b c = Some k.
Proof.
  intros Hk H. unfold Board.kingOf. rewrite H. apply singleSquare_fromSquare. assumption.
Qed.

Lemma two_kings_size b kw kb :
  board_inv b = true -> 0 <= kw < 64 -> 0 <= kb < 64 ->
  SquareSet.intersect (Board.white b) (Board.king b) = SquareSet.fromSquare kw ->
  SquareSet.intersect (Board.black b) (Board.king b) = SquareSet.fromSquare kb ->
  SquareSet.size (Board.king b) = 2.
Proof.
  intros Hinv Hkw Hkb Ew Eb.
  assert (Hhw : forall i, 0 <= i < 64 ->
            SquareSet.has (Board.white b) i && SquareSet.has (Board.king b) i = (i =? kw)).
  { intros i Hi. rewrite <- has_intersect, Ew by assumption. apply has_fromSquare; assumption. }
  assert (Hhb : forall i, 0 <= i < 64 ->
            SquareSet.has (Board.black b) i && SquareSet.has (Board.king b) i = (i =? kb)).
  { intros i Hi. rewrite <- has_intersect, Eb by assumption. apply has_fromSquare; assumption. }
  assert (Hne : kw <> kb).
  { intros ->. pose proof (Hhw kb Hkb) as H1. pose proof (Hhb kb Hkb) as H2.
    pose proof (colors_disjoint b kb Hinv Hkb) as H3.
    rewrite Z.eqb_refl in H1, H2.
    apply andb_true_iff in H1 as [H1 _]. apply andb_true_iff in H2 as [H2 _].
    rewrite H1, H2 in H3. discriminate. }
  destruct (board_inv_wf b Hinv) as (_ & _ & _ & _ & Hwk).
  replace (Board.king b)
    with (SquareSet.union (SquareSet.fromSquare kw) (SquareSet.fromSquare kb)).
  - apply size_two_squares; assumption.
  - apply SquareSet_ext; [apply wf_union | assumption |].
    intros i Hi. rewrite has_union, !has_fromSquare by assumption.
    rewrite <- Hhw, <- Hhb by assumption.
    pose proof (king_colors b i Hinv Hi) as Hc.
    destruct (SquareSet.has (Board.king b) i);
      [specialize (Hc eq_refl); rewrite !andb_true_r; exact Hc|].
    rewrite !andb_false_r. reflexivity.
Qed.

Lemma has_backranks i :
  0 <= i < 64 -> SquareSet.has SquareSet.backranks i = (i <? 8) || (56 <=? i).
Proof.
  revert i. apply square_cases. intros n Hn.
  do 64 (destruct n as [|n]; [vm_compute; reflexivity|]). lia.
Qed.

Lemma pawnOnBackrank_intersects b :
  pawnOnBackrank b
  <-> SquareSet.intersects SquareSet.backranks (Board.pawn b) = true.
Proof.
  unfold pawnOnBackrank, SquareSet.intersects. split.
  - intros (sq & Hr & Hp). apply has_nonEmpty with (i := sq); [lia|].
    rewrite has_intersect, has_backranks, Hp by lia.
    destruct (Z.ltb_spec sq 8), (Z.leb_spec 56 sq); try reflexivity; lia.
  - intros H. apply nonEmpty_has in H as (i & Hi & Hb); [|apply wf_intersect].
    rewrite has_intersect, has_backranks in Hb by assumption.
    apply andb_true_iff in Hb as [Hr Hp]. exists i. split; [|assumption].
    destruct (Z.ltb_spec i 8), (Z.leb_spec 56 i); try discriminate; lia.
Qed.

Lemma oneKing_both b t :
  oneKing b t -> oneKing b (opposite t) -> oneKing b white /\ oneKing b black.
Proof. destruct t; cbn [opposite]; auto. Qed.

Lemma oneKing_each b t :
  oneKing b white /\ oneKing b black -> oneKing b t /\ oneKing b (opposite t).
Proof. destruct t; cbn [opposite]; tauto. Qed.

(** The position [validate] sees when the other side is given the turn. *)
Lemma isCheck_other_side rl b t rc h f k a :
  Board.kingOf b (opposite t) = Some k ->
  attacksTo k t b (Board.occupied b) = Ret a ->
  Position.isCheck (Position.mk rl b (opposite t) rc h f)
  = Ret (SquareSet.nonEmpty a).
Proof.
  intros Hk Ha. unfold Position.isCheck, Position.kingAttackers.
  cbn [Position.board Position.turn]. rewrite Hk, opposite_involutive, Ha.
  reflexivity.
Qed.

(** The five ways [validate] can end, each with the conditions that hold
    of the board then. *)
Lemma validate_cases rl b t rc h f :
  board_inv b = true ->
  let pos := Position.mk rl b t rc h f in
  let check := Position.isCheck (Position.mk makruk b (opposite t) None h f) = Ret true in
  (Position.validate pos = Ret (Err (mkPositionError Empty)) /\ emptyBoard b)
  \/ (Position.validate pos = Ret (Err (mkPositionError Kings))
      /\ ~ emptyBoard b /\ kingCountWrong b)
  \/ (Position.validate pos = Ret (Err (mkPositionError OppositeCheck))
      /\ ~ emptyBoard b /\ ~ kingCountWrong b /\ check)
  \/ (Position.validate pos = Ret (Err (mkPositionError PawnsOnBackrank))
      /\ ~ emptyBoard b /\ ~ kingCountWrong b /\ ~ check /\ pawnOnBackrank b)
  \/ (Position.validate pos = Ret (Ok tt)
      /\ ~ emptyBoard b /\ ~ kingCountWrong b /\ ~ check /\ ~ pawnOnBackrank b).
Proof.
  intros Hinv pos check. subst pos check.
  unfold Position.validate, Position.kingAttackers. cbn [Position.board Position.turn].
  destruct (SquareSet.isEmpty (Board.occupied b)) eqn:He.
  { left. split; [reflexivity|]. apply emptyBoard_isEmpty; assumption. }
  right.
  assert (Hne : ~ emptyBoard b).
  { intros H. apply emptyBoard_isEmpty in H; [|assumption]. congruence. }
  destruct (Z.eqb_spec (SquareSet.size (Board.king b)) 2) as [Hsz | Hsz]; cbn [negb].
  2:{ left. split; [reflexivity|]. split; [assumption|].
      intros [(kw & Hkw & Ew) (kb & Hkb & Eb)]. apply Hsz.
      apply two_kings_size with kw kb; assumption. }
  destruct (Board.kingOf b t) as [k1|] eqn:Hk1.
  2:{ left. split; [reflexivity|]. split; [assumption|].
      intros H. apply (oneKing_each b t) in H as [(k & Hk & E) _].
      rewrite (oneKing_kingOf b t k Hk E) in Hk1. discriminate. }
  destruct (Board.kingOf b (opposite t)) as [k2|] eqn:Hk2.
  2:{ left. split; [reflexivity|]. split; [assumption|].
      intros H. apply (oneKing_each b t) in H as [_ (k & Hk & E)].
      rewrite (oneKing_kingOf b (opposite t) k Hk E) in Hk2. discriminate. }
  right.
  assert (Hkings : ~ kingCountWrong b).
  { intros H. apply H. apply (oneKing_both b t).
    - destruct (kingOf_oneKing b t k1 Hinv Hk1) as [? ?]. exists k1. auto.
    - destruct (kingOf_oneKing b (opposite t) k2 Hinv Hk2) as [? ?]. exists k2. auto. }
  destruct (kingOf_oneKing b (opposite t) k2 Hinv Hk2) as [Hk2r _].
  destruct (attacksTo_total k2 t b (Board.occupied b) Hk2r) as (a & Ha).
  rewrite Ha. cbn [bind].
  rewrite (isCheck_other_side makruk b t None h f k2 a Hk2 Ha).
  destruct (SquareSet.nonEmpty a) eqn:Hchk.
  { left. auto. }
  right.
  assert (Hnc : Ret false <> @Ret bool true) by discriminate.
  destruct (SquareSet.intersects SquareSet.backranks (Board.pawn b)) eqn:Hp.
  - left. repeat (split; [assumption || reflexivity|]).
    apply pawnOnBackrank_intersects. assumption.
  - right. repeat (split; [assumption || reflexivity|]).
    intros H. apply pawnOnBackrank_intersects in H. congruence.
Qed.

(* ===================================================================== *)
(** ** No operation throws a [PositionError] *)
(* ===================================================================== *)

Lemma nse_ret {A} (a : A) : noSetupError (Ret a).
Proof. intros e H. discriminate. Qed.

Lemma nse_type {A} : noSetupError (@Throw A TypeError).
Proof. intros e H. discriminate. Qed.

Lemma nse_deref {A} (o : option A) : noSetupError (deref o).
Proof. destruct o; [apply nse_ret | apply nse_type]. Qed.

Lemma nse_bind {A B} (m : M A) (f : A -> M B) :
  noSetupError m -> (forall a, noSetupError (f a)) -> noSetupError (bind m f).
Proof.
  intros Hm Hf e. destruct m as [a | e']; cbn [bind].
  - apply Hf.
  - intros H. apply (Hm e). congruence.
Qed.

Create HintDb nse discriminated.
#[local] Hint Resolve nse_ret nse_type nse_deref : nse.

Ltac nse_step :=
  match goal with
  | |- noSetupError (Ret _) => apply nse_ret
  | |- noSetupError (Throw TypeError) => apply nse_type
  | |- noSetupError (deref _) => apply nse_deref
  | |- noSetupError (bind _ _) => apply nse_bind; [|intros]
  | |- noSetupError (if ?c then _ else _) => destruct c
  | |- noSetupError (match ?x with _ => _ end) => destruct x
  | |- noSetupError (let _ := _ in _) => cbv zeta
  | |- forall _, _ => intros
  | |- _ => solve [auto with nse]
  end.

Ltac nse := repeat nse_step.

Lemma nse_rookAttacks sq occ : noSetupError (rookAttacks sq occ).
Proof. unfold rookAttacks, fileAttacks, rankAttacks. nse. Qed.
#[local] Hint Resolve nse_rookAttacks : nse.

Lemma nse_attacks p sq occ : noSetupError (attacks p sq occ).
Proof. unfold attacks. nse. Qed.

Lemma nse_ray a b : noSetupError (ray a b).
Proof. unfold ray. nse. Qed.
#[local] Hint Resolve nse_ray : nse.

Lemma nse_between a b : noSetupError (between a b).
Proof. unfold between. nse. Qed.
#[local] Hint Resolve nse_between : nse.

Lemma nse_attacksTo sq c b occ : noSetupError (attacksTo sq c b occ).
Proof. unfold attacksTo. nse. Qed.
#[local] Hint Resolve nse_attacksTo : nse.

Lemma nse_getRole_from b sq roles : noSetupError (Board.getRole_from b sq roles).
Proof. induction roles as [|r roles IH]; cbn [Board.getRole_from]; nse. Qed.
#[local] Hint Resolve nse_getRole_from : nse.

Lemma nse_get b sq : noSetupError (Board.get b sq).
Proof. unfold Board.get, Board.getRole. nse. Qed.
#[local] Hint Resolve nse_get : nse.

Lemma nse_take b sq : noSetupError (Board.take b sq).
Proof. unfold Board.take. nse. Qed.
#[local] Hint Resolve nse_take : nse.

Lemma nse_set b sq p : noSetupError (Board.set b sq p).
Proof. unfold Board.set. nse. Qed.
#[local] Hint Resolve nse_set : nse.

Lemma nse_pieces b c r : noSetupError (Board.pieces b c r).
Proof. unfold Board.pieces. nse. Qed.

Lemma nse_rolesEqual l r roles : noSetupError (Board.rolesEqual l r roles).
Proof. induction roles as [|x roles IH]; cbn [Board.rolesEqual]; nse. Qed.
#[local] Hint Resolve nse_rolesEqual : nse.

Lemma nse_boardEquals l r : noSetupError (boardEquals l r).
Proof. unfold boardEquals. nse. Qed.

Lemma nse_kingAttackers pos sq c occ :
  noSetupError (Position.kingAttackers pos sq c occ).
Proof. unfold Position.kingAttackers. nse. Qed.
#[local] Hint Resolve nse_kingAttackers : nse.

Lemma nse_ctx_blockers pos k snipers acc :
  noSetupError (Position.ctx_blockers pos k snipers acc).
Proof.
  revert acc. induction snipers as [|s snipers IH]; intros acc;
    cbn [Position.ctx_blockers]; nse.
Qed.
#[local] Hint Resolve nse_ctx_blockers : nse.

Lemma nse_ctx pos : noSetupError (Position.ctx pos).
Proof. unfold Position.ctx. nse. Qed.
#[local] Hint Resolve nse_ctx : nse.

Lemma nse_ctxOr pos c : noSetupError (Position.ctxOr pos c).
Proof. unfold Position.ctxOr. nse. Qed.
#[local] Hint Resolve nse_ctxOr : nse.

Lemma nse_kingFilter pos occ tos pseudo :
  noSetupError (Position.kingFilter pos occ tos pseudo).
Proof.
  revert pseudo. induction tos as [|t tos IH]; intros pseudo;
    cbn [Position.kingFilter]; nse.
Qed.
#[local] Hint Resolve nse_kingFilter : nse.

Lemma nse_dests pos sq c : noSetupError (Position.dests pos sq c).
Proof. unfold Position.dests, bishopAttacks, knightAttacks, queenAttacks, kingAttacks, pawnAttacks. nse. Qed.
#[local] Hint Resolve nse_dests : nse.

Lemma nse_hasDests_from pos c sqs : noSetupError (Position.hasDests_from pos c sqs).
Proof. induction sqs as [|s sqs IH]; cbn [Position.hasDests_from]; nse. Qed.
#[local] Hint Resolve nse_hasDests_from : nse.

Lemma nse_hasDests pos c : noSetupError (Position.hasDests pos c).
Proof. unfold Position.hasDests. nse. Qed.
#[local] Hint Resolve nse_hasDests : nse.

Lemma nse_isLegal pos m c : noSetupError (Position.isLegal pos m c).
Proof. unfold Position.isLegal. nse. Qed.

Lemma nse_isCheck pos : noSetupError (Position.isCheck pos).
Proof. unfold Position.isCheck. nse. Qed.
#[local] Hint Resolve nse_isCheck : nse.

Lemma nse_isEnd pos c : noSetupError (Position.isEnd pos c).
Proof. unfold Position.isEnd. nse. Qed.

Lemma nse_isCheckmate pos c : noSetupError (Position.isCheckmate pos c).
Proof. unfold Position.isCheckmate. nse. Qed.
#[local] Hint Resolve nse_isCheckmate : nse.

Lemma nse_isStalemate pos c : noSetupError (Position.isStalemate pos c).
Proof. unfold Position.isStalemate. nse. Qed.
#[local] Hint Resolve nse_isStalemate : nse.

Lemma nse_outcome pos c : noSetupError (Position.outcome pos c).
Proof. unfold Position.outcome, Position.variantOutcome. nse. Qed.

Lemma nse_allDests_from pos c sqs : noSetupError (Position.allDests_from pos c sqs).
Proof. induction sqs as [|s sqs IH]; cbn [Position.allDests_from]; nse. Qed.
#[local] Hint Resolve nse_allDests_from : nse.

Lemma nse_allDests pos c : noSetupError (Position.allDests pos c).
Proof. unfold Position.allDests. nse. Qed.

Lemma nse_play pos m : noSetupError (Position.play pos m).
Proof. unfold Position.play. nse. Qed.

(* ===================================================================== *)
(** ** The iterator visits every member: 64 calls are enough *)
(* ===================================================================== *)

(** Every non-zero integer is an odd number times a power of two. *)
Lemma odd_times_pow2_pos p : exists j m, 0 <= j /\ Z.pos p = 2 ^ j * (2 * m + 1).
Proof.
  induction p as [q IH | q IH | ].
  - exists 0, (Z.pos q). split; [lia|]. rewrite Z.pow_0_r. lia.
  - destruct IH as (j & m & Hj & E). exists (j + 1), m. split; [lia|].
    rewrite Z.pow_add_r by lia. change (2 ^ 1) with 2.
    change (Z.pos q~0) with (2 * Z.pos q). rewrite E. ring.
  - exists 0, 0. split; [lia|]. reflexivity.
Qed.

Lemma odd_times_pow2 x : x <> 0 -> exists j m, 0 <= j /\ x = 2 ^ j * (2 * m + 1).
Proof.
  intros Hx. destruct x as [|p|p]; [contradiction | apply odd_times_pow2_pos |].
  destruct (odd_times_pow2_pos p) as (j & m & Hj & E).
  exists j, (- m - 1). split; [assumption|].
  change (Z.neg p) with (- Z.pos p). rewrite E. ring.
Qed.

Lemma land_odd_opp m : Z.land (2 * m + 1) (- (2 * m + 1)) = 1.
Proof.
  replace (- (2 * m + 1)) with (2 * (- m - 1) + 1) by ring.
  assert (H1 : forall k, 0 < k -> Z.testbit 1 k = false).
  { intros k Hk. change 1 with (2 ^ 0). rewrite Z.pow2_bits_eqb by lia.
    apply Z.eqb_neq. lia. }
  apply Z.bits_inj'. intros k Hk. rewrite Z.land_spec.
  destruct (Z.eq_dec k 0) as [-> | Hnz].
  - rewrite !Z.testbit_odd_0. reflexivity.
  - replace k with (Z.succ (k - 1)) by lia.
    rewrite !Z.testbit_odd_succ by lia.
    replace (- m - 1) with (Z.lnot m) by (unfold Z.lnot; lia).
    rewrite Z.lnot_spec by lia. rewrite H1 by lia.
    apply andb_negb_r.
Qed.

(** [x & -x] is the lowest set bit of [x]. *)
Lemma land_opp_pow2 j m :
  0 <= j -> Z.land (2 ^ j * (2 * m + 1)) (- (2 ^ j * (2 * m + 1))) = 2 ^ j.
Proof.
  intros Hj.
  replace (- (2 ^ j * (2 * m + 1))) with (- (2 * m + 1) * 2 ^ j) by ring.
  rewrite (Z.mul_comm (2 ^ j)).
  rewrite <- !Z.shiftl_mul_pow2 by assumption.
  rewrite <- Z.shiftl_land, land_odd_opp, Z.shiftl_1_l. reflexivity.
Qed.

Lemma toUint32_pow2 j : 0 <= j < 32 -> JS.toUint32 (2 ^ j) = 2 ^ j.
Proof.
  intros Hj. unfold JS.toUint32. apply Z.mod_small. split; [lia|].
  change 4294967296 with (2 ^ 32). apply Z.pow_lt_mono_r; lia.
Qed.

(** The index the iterator computes from a non-zero half. *)
Lemma lowest_bit x :
  x = JS.toInt32 x -> x <> 0 ->
  let idx := 31 - JS.clz32 (JS.and x (- x)) in
  0 <= idx < 32 /\ Z.testbit x idx = true.
Proof.
  intros Hx Hnz. cbv zeta.
  destruct (odd_times_pow2 x Hnz) as (j & m & Hj & E).
  assert (Hj32 : j < 32).
  { destruct (Z.lt_ge_cases j 32) as [|Hge]; [assumption | exfalso].
    apply Hnz. apply (toUint32_zero x Hx). unfold JS.toUint32. rewrite E.
    replace j with (32 + (j - 32)) by lia. rewrite Z.pow_add_r by lia.
    change (2 ^ 32) with 4294967296.
    rewrite <- Z.mul_assoc. rewrite Z.mul_comm. apply Z_mod_mult. }
  assert (Hand : JS.toUint32 (JS.and x (- x)) = 2 ^ j).
  { rewrite <- toUint32_pow2 by lia.
    rewrite <- (toUint32_toInt32 (JS.and x (- x))), <- (toUint32_toInt32 (2 ^ j)).
    f_equal. apply int32_ext. intros k Hk.
    rewrite testbit_and by assumption.
    rewrite <- Z.land_spec. rewrite E at 1 2. rewrite land_opp_pow2 by assumption.
    reflexivity. }
  assert (Hclz : JS.clz32 (JS.and x (- x)) = 31 - j).
  { unfold JS.clz32. rewrite Hand.
    destruct (Z.eqb_spec (2 ^ j) 0) as [E0|_].
    - pose proof (Z.pow_pos_nonneg 2 j ltac:(lia) Hj). lia.
    - rewrite Z.log2_pow2 by assumption. reflexivity. }
  rewrite Hclz. replace (31 - (31 - j)) with j by lia. split; [lia|].
  rewrite E, Z.mul_comm, <- Z.shiftl_mul_pow2 by assumption.
  rewrite Z.shiftl_spec by assumption. replace (j - j) with 0 by lia.
  apply Z.testbit_odd_0.
Qed.

(** [^] of two int32 values is an int32 value. *)
Lemma xor_int32 a b : JS.xor a b = JS.toInt32 (JS.xor a b).
Proof.
  unfold JS.xor. apply Z.bits_inj'. intros k Hk.
  destruct (Z.lt_ge_cases k 32) as [Hlt | Hge].
  - rewrite testbit_toInt32 by lia. reflexivity.
  - rewrite testbit_toInt32_high by lia. rewrite testbit_toInt32 by lia.
    rewrite !Z.lxor_spec.
    rewrite (testbit_toInt32_high a k), (testbit_toInt32_high b k) by lia.
    reflexivity.
Qed.

Lemma countTrue_le (l : list bool) : (countTrue l <= length l)%nat.
Proof.
  induction l as [|x l IH]; [cbn; lia|]. rewrite countTrue_cons. cbn [length].
  destruct x; lia.
Qed.

Lemma allSquares_NoDup : NoDup allSquares.
Proof.
  unfold allSquares. apply Injective_map_NoDup; [|apply seq_NoDup].
  intros a b H. lia.
Qed.

(** Removing one member lowers the count of members by one. *)
Lemma countTrue_remove (f g : Z -> bool) (j : Z) (l : list Z) :
  NoDup l -> f j = true ->
  (forall i, In i l -> g i = negb (i =? j) && f i) ->
  (countTrue (map g l) + (if existsb (Z.eqb j) l then 1 else 0)
   = countTrue (map f l))%nat.
Proof.
  intros Hnd Hj. induction l as [|x l IH]; intros Hg; [reflexivity|].
  cbn [map existsb]. rewrite !countTrue_cons.
  inversion Hnd as [|? ? Hnotin Hnd']; subst.
  specialize (IH Hnd' (fun i Hi => Hg i (or_intror Hi))).
  rewrite (Hg x (or_introl eq_refl)).
  destruct (Z.eqb_spec j x) as [<- | Hne].
  - rewrite Z.eqb_refl, Hj. cbn [negb andb orb].
    assert (E : existsb (Z.eqb j) l = false).
    { apply not_true_is_false. intros H. apply existsb_exists in H as (y & Hy & Ey).
      apply Z.eqb_eq in Ey. subst y. contradiction. }
    rewrite E in IH. lia.
  - destruct (Z.eqb_spec x j) as [-> | _]; [contradiction|].
    cbn [negb andb orb]. destruct (f x); lia.
Qed.

Lemma has_mk_xor_lo lo hi idx i :
  0 <= idx < 32 -> Z.testbit lo idx = true -> 0 <= i < 64 ->
  SquareSet.has (SquareSet.mk (JS.xor lo (JS.shl 1 idx)) hi) i
  = negb (i =? idx) && SquareSet.has (SquareSet.mk lo hi) i.
Proof.
  intros Hidx Hb Hi. rewrite !has_testbit by assumption.
  cbn [SquareSet.lo SquareSet.hi].
  destruct (Z.leb_spec 32 i).
  - destruct (Z.eqb_spec i idx); [lia | reflexivity].
  - rewrite testbit_xor, testbit_shl_1 by lia.
    destruct (Z.eqb_spec idx i) as [<- | Hne].
    + rewrite Z.eqb_refl, Hb. reflexivity.
    + destruct (Z.eqb_spec i idx); [lia|]. apply xorb_false_r.
Qed.

Lemma has_mk_xor_hi lo hi idx i :
  0 <= idx < 32 -> Z.testbit hi idx = true -> 0 <= i < 64 ->
  SquareSet.has (SquareSet.mk lo (JS.xor hi (JS.shl 1 idx))) i
  = negb (i =? 32 + idx) && SquareSet.has (SquareSet.mk lo hi) i.
Proof.
  intros Hidx Hb Hi. rewrite !has_testbit by assumption.
  cbn [SquareSet.lo SquareSet.hi].
  destruct (Z.leb_spec 32 i).
  - rewrite testbit_xor, testbit_shl_1 by lia.
    destruct (Z.eqb_spec idx (i - 32)) as [E | Hne].
    + destruct (Z.eqb_spec i (32 + idx)); [|lia]. rewrite <- E, Hb. reflexivity.
    + destruct (Z.eqb_spec i (32 + idx)); [lia|]. apply xorb_false_r.
  - destruct (Z.eqb_spec i (32 + idx)); [lia | reflexivity].
Qed.

Lemma existsb_eqb_allSquares j :
  0 <= j < 64 -> existsb (Z.eqb j) allSquares = true.
Proof.
  intros Hj. apply existsb_exists. exists j. split; [|apply Z.eqb_refl].
  apply allSquares_In. assumption.
Qed.

Lemma iterate_members fuel :
  forall lo hi,
    lo = JS.toInt32 lo -> hi = JS.toInt32 hi ->
    (countTrue (map (SquareSet.has (SquareSet.mk lo hi)) allSquares) <= fuel)%nat ->
    forall i, In i (SquareSet.iterate fuel lo hi)
              <-> 0 <= i < 64 /\ SquareSet.has (SquareSet.mk lo hi) i = true.
Proof.
  induction fuel as [|fuel IH]; intros lo hi Hlo Hhi Hcount i.
  - cbn [SquareSet.iterate]. split; [intros []|]. intros [Hi Hb]. exfalso.
    assert (E : countTrue (map (SquareSet.has (SquareSet.mk lo hi)) allSquares) = 0%nat)
      by lia.
    apply countTrue_zero in E.
    assert (Hex : existsb (fun x => x)
                    (map (SquareSet.has (SquareSet.mk lo hi)) allSquares) = true).
    { apply existsb_exists. exists true. split; [|reflexivity].
      apply in_map_iff. exists i. split; [assumption|]. apply allSquares_In. assumption. }
    congruence.
  - cbn [SquareSet.iterate]. unfold JS.truthy.
    destruct (Z.eqb_spec lo 0) as [El | Nl]; cbn [negb].
    + destruct (Z.eqb_spec hi 0) as [Eh | Nh]; cbn [negb].
      * subst lo hi. split; [intros []|]. intros [Hi Hb].
        rewrite has_testbit in Hb by assumption. cbn [SquareSet.lo SquareSet.hi] in Hb.
        destruct (32 <=? i); rewrite Z.bits_0 in Hb; discriminate Hb.
      * destruct (lowest_bit hi Hhi Nh) as [Hidx Hb].
        set (idx := 31 - JS.clz32 (JS.and hi (- hi))) in *. clearbody idx.
        assert (Hstep : forall i0, In i0 allSquares ->
                  SquareSet.has (SquareSet.mk lo (JS.xor hi (JS.shl 1 idx))) i0
                  = negb (i0 =? 32 + idx) && SquareSet.has (SquareSet.mk lo hi) i0).
        { intros i0 Hi0. apply has_mk_xor_hi; try assumption.
          apply allSquares_In. assumption. }
        assert (Hj : SquareSet.has (SquareSet.mk lo hi) (32 + idx) = true).
        { rewrite has_testbit by lia. cbn [SquareSet.hi].
          destruct (Z.leb_spec 32 (32 + idx)); [|lia].
          replace (32 + idx - 32) with idx by lia. exact Hb. }
        pose proof (countTrue_remove _ _ (32 + idx) allSquares allSquares_NoDup Hj Hstep) as Hc.
        unfold Square in *.
        rewrite existsb_eqb_allSquares in Hc by lia. cbv iota in Hc.
        cbn [In]. rewrite (IH lo (JS.xor hi (JS.shl 1 idx)) Hlo (xor_int32 _ _)) by lia.
        split.
        -- intros [<- | [Hi Hm]]; [split; [lia | exact Hj]|].
           split; [assumption|]. rewrite has_mk_xor_hi in Hm by assumption.
           apply andb_true_iff in Hm as [_ Hm]. exact Hm.
        -- intros [Hi Hm]. destruct (Z.eq_dec (32 + idx) i) as [E | Hne]; [left; exact E|].
           right. split; [assumption|]. rewrite has_mk_xor_hi by assumption.
           rewrite Hm. destruct (Z.eqb_spec i (32 + idx)); [lia | reflexivity].
    + destruct (lowest_bit lo Hlo Nl) as [Hidx Hb].
      set (idx := 31 - JS.clz32 (JS.and lo (- lo))) in *. clearbody idx.
      assert (Hstep : forall i0, In i0 allSquares ->
                SquareSet.has (SquareSet.mk (JS.xor lo (JS.shl 1 idx)) hi) i0
                = negb (i0 =? idx) && SquareSet.has (SquareSet.mk lo hi) i0).
      { intros i0 Hi0. apply has_mk_xor_lo; try assumption.
        apply allSquares_In. assumption. }
      assert (Hj : SquareSet.has (SquareSet.mk lo hi) idx = true).
      { rewrite has_testbit by lia. cbn [SquareSet.lo].
        destruct (Z.leb_spec 32 idx); [lia | exact Hb]. }
      pose proof (countTrue_remove _ _ idx allSquares allSquares_NoDup Hj Hstep) as Hc.
      unfold Square in *.
      rewrite existsb_eqb_allSquares in Hc by lia. cbv iota in Hc.
      cbn [In]. rewrite (IH (JS.xor lo (JS.shl 1 idx)) hi (xor_int32 _ _) Hhi) by lia.
      split.
      * intros [<- | [Hi Hm]]; [split; [lia | exact Hj]|].
        split; [assumption|]. rewrite has_mk_xor_lo in Hm by assumption.
        apply andb_true_iff in Hm as [_ Hm]. exact Hm.
      * intros [Hi Hm]. destruct (Z.eq_dec idx i) as [E | Hne]; [left; exact E|].
        right. split; [assumption|]. rewrite has_mk_xor_lo by assumption.
        rewrite Hm. destruct (Z.eqb_spec i idx); [lia | reflexivity].
Qed.

(** The squares the iterator of a constructor-made set yields are exactly
    its members: the 64 calls the model allows never cut it short. *)
Lemma squares_members s :
  SquareSet.wf s = true ->
  forall i, In i (SquareSet.squares s) <-> 0 <= i < 64 /\ SquareSet.has s i = true.
Proof.
  intros Hwf i. apply wf_halves in Hwf as [Hl Hh]. unfold SquareSet.squares.
  destruct s as [lo hi]. cbn [SquareSet.lo SquareSet.hi] in *.
  apply iterate_members; try assumption.
  pose proof (countTrue_le (map (SquareSet.has (SquareSet.mk lo hi)) allSquares)) as H.
  rewrite length_map in H. exact H.
Qed.

(* ===================================================================== *)
(** ** Square sets: [minus64] *)
(* ===================================================================== *)

(** C7. For all square sets [a] and [b], reading a set (lo, hi) as the
    unsigned 64-bit integer lo + 2^32 * hi, [a.minus64(b)] is
    (a - b) mod 2^64: two's-complement subtraction with the borrow of the
    low half carried into the high half. *)
Theorem minus64_exact (a b : SquareSet.t) :
  SquareSet.toU64 (SquareSet.minus64 a b)
  = (SquareSet.toU64 a - SquareSet.toU64 b) mod 18446744073709551616.
Proof.
  destruct a as [A HA], b as [B HB].
  unfold SquareSet.minus64, SquareSet.toU64, SquareSet.new.
  cbn [SquareSet.lo SquareSet.hi].
  rewrite minus64_borrow, !toUint32_toInt32.
  pose proof (toUint32_range B) as Hb. pose proof (toUint32_range A) as Ha.
  assert (Hd : JS.toUint32 (A - B) = (JS.toUint32 A - JS.toUint32 B) mod 4294967296).
  { unfold JS.toUint32. rewrite <- Zminus_mod. reflexivity. }
  rewrite Hd.
  set (c := (((JS.toUint32 A - JS.toUint32 B) mod 4294967296 + JS.toUint32 B)
             / 4294967296)).
  assert (Hc : (JS.toUint32 A - JS.toUint32 B) mod 4294967296
               = JS.toUint32 A - JS.toUint32 B + 4294967296 * c
               /\ (c = 0 \/ c = 1)).
  { subst c. Z.div_mod_to_equations. lia. }
  destruct Hc as [Hc Hc01]. rewrite Hc.
  assert (Hh : JS.toUint32 (HA - (HB + c))
               = (JS.toUint32 HA - JS.toUint32 HB - c) mod 4294967296).
  { unfold JS.toUint32.
    replace (HA - (HB + c)) with ((HA - HB) - c) by lia.
    rewrite (Zminus_mod (HA - HB) c), (Zminus_mod HA HB).
    rewrite (Zminus_mod (HA mod 4294967296 - HB mod 4294967296) c).
    reflexivity. }
  rewrite Hh.
  pose proof (toUint32_range HB) as Hhb. pose proof (toUint32_range HA) as Hha.
  generalize dependent (JS.toUint32 HA). generalize dependent (JS.toUint32 HB).
  generalize dependent (JS.toUint32 A). generalize dependent (JS.toUint32 B).
  clear. intros.
  destruct Hc01 as [-> | ->]; Z.div_mod_to_equations; lia.
Qed.

(* ===================================================================== *)
(** ** Attacks: the rook *)
(* ===================================================================== *)

(** C8. For every square [s], [rookAttacks(s, empty)] is the rank of [s]
    together with the file of [s], without [s] itself; and a rook on
    square 43 against the occupancy (0x2826f5b9, 0x3f7f2880) attacks
    exactly (0x8000000, 0x83708). *)
Theorem rookAttacks_empty_board_and_d6 :
  (forall s, 0 <= s < 64 ->
     rookAttacks s SquareSet.empty
     = Ret (SquareSet.without
              (SquareSet.union (SquareSet.fromRank (squareRank s))
                               (SquareSet.fromFile (squareFile s))) s))
  /\ rookAttacks 43 (SquareSet.new 0x2826f5b9 0x3f7f2880)
     = Ret (SquareSet.new 0x8000000 0x83708).
Proof.
  split; [|vm_compute; reflexivity].
  apply square_cases. intros n Hn.
  do 64 (destruct n as [|n]; [vm_compute; reflexivity|]). lia.
Qed.

Lemma rookAttacks_empty_board_d6 :
  rookAttacks 43 SquareSet.empty
  = Ret (SquareSet.without
           (SquareSet.union (SquareSet.fromRank (squareRank 43))
                            (SquareSet.fromFile (squareFile 43))) 43).
Proof. apply (proj1 rookAttacks_empty_board_and_d6 43). lia. Defined.

(* ===================================================================== *)
(** ** Board: [take] and [set] *)
(* ===================================================================== *)

(** C9. On every board that satisfies the board invariant, for every
    square and every piece, [take(square)] and [set(square, piece)] both
    end with a board that satisfies the invariant again, and both return
    the piece [get] found on the square before the call (none when the
    square was empty).  After [take] the square is empty, after [set] it
    holds the piece. *)
Theorem take_set_preserve_invariant (b : Board.t) (square : Square) :
  board_inv b = true -> 0 <= square < 64 ->
  (exists old b',
      Board.get b square = Ret old
      /\ Board.take b square = Ret (old, b')
      /\ board_inv b' = true
      /\ Board.get b' square = Ret None)
  /\ (forall c r prm,
        exists old b',
          Board.get b square = Ret old
          /\ Board.set b square (mkPiece (Some r) c prm) = Ret (old, b')
          /\ board_inv b' = true
          /\ Board.get b' square = Ret (Some (mkPiece (Some r) c None))).
Proof.
  intros Hinv Hsq. split.
  - destruct (take_mapSets b square Hinv Hsq) as (old & Hget & Htake).
    exists old. eexists. split; [exact Hget|]. split; [exact Htake|].
    split; [apply board_inv_without; assumption|].
    apply get_after_take. assumption.
  - intros c r prm. apply set_inv; assumption.
Qed.

Lemma take_set_preserve_invariant_rook_ending :
  (exists old b',
      Board.get rookEndingBoard 0 = Ret old
      /\ Board.take rookEndingBoard 0 = Ret (old, b')
      /\ board_inv b' = true
      /\ Board.get b' 0 = Ret None)
  /\ (forall c r prm,
        exists old b',
          Board.get rookEndingBoard 0 = Ret old
          /\ Board.set rookEndingBoard 0 (mkPiece (Some r) c prm) = Ret (old, b')
          /\ board_inv b' = true
          /\ Board.get b' 0 = Ret (Some (mkPiece (Some r) c None))).
Proof.
  apply (take_set_preserve_invariant rookEndingBoard 0).
  - vm_compute. reflexivity.
  - lia.
Defined.

(* ===================================================================== *)
(** ** Position: [toSetup] *)
(* ===================================================================== *)

(** C10. For every position, the setup [toSetup()] returns has the
    halfmove clock min(halfmoves, 150) and the fullmove number
    min(max(fullmoves, 1), 9999), whatever the position's own counters
    are, and carries the board, the turn and the remaining-checks
    counters unchanged. *)
Theorem toSetup_clamps_counters (pos : Position.t) :
  Setup.halfmoves (Position.toSetup pos) = Z.min (Position.halfmoves pos) 150
  /\ Setup.fullmoves (Position.toSetup pos)
     = Z.min (Z.max (Position.fullmoves pos) 1) 9999
  /\ Setup.board (Position.toSetup pos) = Position.board pos
  /\ Setup.turn (Position.toSetup pos) = Position.turn pos
  /\ Setup.remainingChecks (Position.toSetup pos) = Position.remainingChecks pos
  /\ Setup.halfmoves (Position.toSetup pos) <= 150
  /\ 1 <= Setup.fullmoves (Position.toSetup pos) <= 9999.
Proof.
  unfold Position.toSetup.
  cbn [Setup.halfmoves Setup.fullmoves Setup.board Setup.turn Setup.remainingChecks].
  rewrite Board_clone_id.
  repeat split; try lia.
  destruct (Position.remainingChecks pos) as [[w bl]|]; reflexivity.
Qed.

(* ===================================================================== *)
(** ** Position: [fromSetup] *)
(* ===================================================================== *)

(** [Makruk.fromSetup(setup)] against the code's own tests: it returns an
    error exactly when the board is empty, or the king count is wrong
    (not one king per color), or [isCheck] answers true with the turn
    given to the other side, or a pawn stands on a back rank; the error
    carries the tag of a condition that holds; on success the position
    has the setup's board, turn, halfmove clock and fullmove number; and
    no other operation on a position throws a setup error. *)
Lemma fromSetup_errors (setup : Setup.t) :
  board_inv (Setup.board setup) = true ->
  (exists r, Makruk.fromSetup setup = Ret r)
  /\ ((exists e, Makruk.fromSetup setup = Ret (Err e))
      <-> emptyBoard (Setup.board setup)
          \/ kingCountWrong (Setup.board setup)
          \/ otherSideInCheck setup
          \/ pawnOnBackrank (Setup.board setup))
  /\ (forall tag,
        Makruk.fromSetup setup = Ret (Err (mkPositionError tag)) ->
        setupCondition tag setup)
  /\ (forall pos,
        Makruk.fromSetup setup = Ret (Ok pos) ->
        Position.board pos = Setup.board setup
        /\ Position.turn pos = Setup.turn setup
        /\ Position.halfmoves pos = Setup.halfmoves setup
        /\ Position.fullmoves pos = Setup.fullmoves setup)
  /\ (forall (pos : Position.t) (sq : Square) (mv : Move) (ctx : option Context.t),
        noSetupError (Position.ctx pos)
        /\ noSetupError (Position.dests pos sq ctx)
        /\ noSetupError (Position.allDests pos ctx)
        /\ noSetupError (Position.hasDests pos ctx)
        /\ noSetupError (Position.isLegal pos mv ctx)
        /\ noSetupError (Position.isCheck pos)
        /\ noSetupError (Position.isEnd pos ctx)
        /\ noSetupError (Position.isCheckmate pos ctx)
        /\ noSetupError (Position.isStalemate pos ctx)
        /\ noSetupError (Position.outcome pos ctx)
        /\ noSetupError (Position.play pos mv)).
Proof.
  intros Hinv. destruct setup as [b t rc h f].
  cbn [Setup.board Setup.turn Setup.halfmoves Setup.fullmoves] in *.
  unfold otherSideInCheck, Makruk.fromSetup, Position.setupUnchecked, Makruk.constructed.
  cbn [Setup.board Setup.turn Setup.halfmoves Setup.fullmoves Position.rules].
  rewrite Board_clone_id.
  pose proof (validate_cases makruk b t None h f Hinv) as Hv. cbv zeta in Hv.
  split; [|split; [|split; [|split]]].
  - destruct Hv as [[-> _] | [[-> _] | [[-> _] | [[-> _] | [-> _]]]]];
      cbn [bind Result_map]; eauto.
  - destruct Hv as [[-> H] | [[-> H] | [[-> H] | [[-> H] | [-> H]]]]];
      cbn [bind Result_map].
    1-4: split; [intros _; tauto | intros _; eexists; reflexivity].
    split; [intros (e & He); discriminate He | intros Hd; exfalso; tauto].
  - intros tag.
    destruct Hv as [[-> H] | [[-> H] | [[-> H] | [[-> H] | [-> H]]]]];
      cbn [bind Result_map]; intros E; try discriminate E;
      injection E as <-; cbn [setupCondition Setup.board]; tauto.
  - intros pos.
    destruct Hv as [[-> H] | [[-> H] | [[-> H] | [[-> H] | [-> H]]]]];
      cbn [bind Result_map]; intros E; try discriminate E.
    injection E as <-. cbn. auto.
  - intros pos sq mv ctx.
    repeat split;
      auto using nse_ctx, nse_dests, nse_allDests, nse_hasDests, nse_isLegal,
        nse_isCheck, nse_isEnd, nse_isCheckmate, nse_isStalemate, nse_outcome,
        nse_play.
Qed.

Lemma fromSetup_errors_rook_ending :
  exists r, Makruk.fromSetup (setupOf rookEndingBoard) = Ret r.
Proof.
  apply (proj1 (fromSetup_errors (setupOf rookEndingBoard) ltac:(vm_compute; reflexivity))).
Defined.

(* ===================================================================== *)
(** ** Position: the round trip through [toSetup] *)
(* ===================================================================== *)

Lemma playLegal_reachable moves :
  forall pos pos', reachable pos -> playLegal pos moves = Some pos' -> reachable pos'.
Proof.
  induction moves as [|m moves IH]; intros pos pos' Hr H; cbn [playLegal] in H.
  - injection H as <-. exact Hr.
  - destruct (Position.isLegal pos m None) as [[|] | ] eqn:Hl; try discriminate H.
    destruct (Position.play pos m) as [p1 | ] eqn:Hp; try discriminate H.
    apply (IH p1 pos'); [|exact H].
    apply reachable_play with pos m; assumption.
Qed.

Lemma shuffledKings_reachable : reachable shuffledKings.
Proof.
  apply playLegal_reachable
    with (moves := kingShuffle 38) (pos := whiteToMove bareKingsBoard).
  - apply reachable_setup with (setupOf bareKingsBoard). vm_compute. reflexivity.
  - vm_compute. reflexivity.
Qed.

(** C5, as stated, fails: after 152 legal king moves from a position
    that [fromSetup] accepted, the round trip succeeds with halfmove clock
    150, not 152. *)
Lemma roundtrip_loses_halfmoves :
  ~ (forall pos, reachable pos ->
       exists pos',
         Makruk.fromSetup (Position.toSetup pos) = Ret (Ok pos')
         /\ boardEquals (Position.board pos') (Position.board pos) = Ret true
         /\ Position.turn pos' = Position.turn pos
         /\ Position.halfmoves pos' = Position.halfmoves pos
         /\ Position.fullmoves pos' = Position.fullmoves pos).
Proof.
  intros H.
  destruct (H shuffledKings shuffledKings_reachable) as (p' & Hf & _ & _ & Hh & _).
  vm_compute in Hf. injection Hf as <-. vm_compute in Hh. discriminate Hh.
Qed.

(** A position reached by a legal promotion to a king does not pass the
    round trip at all: [fromSetup] answers with the [Kings] error. *)
Lemma roundtrip_rejects_third_king :
  reachable thirdKing
  /\ Makruk.fromSetup (Position.toSetup thirdKing)
     = Ret (Err (mkPositionError Kings)).
Proof.
  split; [|vm_compute; reflexivity].
  apply playLegal_reachable
    with (moves := [mkMove 48 56 (Some king)]) (pos := whiteToMove pawnOnSeventhBoard).
  - apply reachable_setup with (setupOf pawnOnSeventhBoard). vm_compute. reflexivity.
  - vm_compute. reflexivity.
Qed.

Lemma validate_board_turn r b t rc h f r' rc' h' f' :
  Position.validate (Position.mk r b t rc h f)
  = Position.validate (Position.mk r' b t rc' h' f').
Proof. reflexivity. Qed.

Lemma equals_refl s : SquareSet.equals s s = true.
Proof. apply equals_eq. reflexivity. Qed.

Lemma boardEquals_refl b pp :
  Board.promotedpawn b = Some pp -> boardEquals b b = Ret true.
Proof.
  intros Hpp. unfold boardEquals, ROLES. rewrite equals_refl.
  cbn [Board.rolesEqual Board.byRole]. rewrite Hpp. cbn [deref bind].
  rewrite !equals_refl. reflexivity.
Qed.

(** C5, amended. For every position whose board has all its role sets
    assigned, [Makruk.fromSetup(pos.toSetup())] fails with the error the
    validation of the position itself gives, and succeeds when that
    validation passes; the position it then returns equals the original
    in board contents (per [boardEquals]) and turn, its halfmove clock is
    min(halfmoves, 150) and its fullmove number is
    min(max(fullmoves, 1), 9999). *)
Theorem roundtrip_clamped (pos : Position.t) :
  (exists pp, Board.promotedpawn (Position.board pos) = Some pp) ->
  (forall e, Position.validate pos = Ret (Err e) ->
             Makruk.fromSetup (Position.toSetup pos) = Ret (Err e))
  /\ (Position.validate pos = Ret (Ok tt) ->
      exists pos',
        Makruk.fromSetup (Position.toSetup pos) = Ret (Ok pos')
        /\ boardEquals (Position.board pos') (Position.board pos) = Ret true
        /\ Position.turn pos' = Position.turn pos
        /\ Position.halfmoves pos' = Z.min (Position.halfmoves pos) 150
        /\ Position.fullmoves pos'
           = Z.min (Z.max (Position.fullmoves pos) 1) 9999).
Proof.
  intros (pp & Hpp). destruct pos as [r b t rc h f].
  cbn [Position.board Position.turn Position.halfmoves Position.fullmoves] in *.
  unfold Makruk.fromSetup, Position.toSetup, Position.setupUnchecked, Makruk.constructed.
  cbn [Setup.board Setup.turn Setup.halfmoves Setup.fullmoves Position.rules
       Position.board Position.turn Position.halfmoves Position.fullmoves
       Position.remainingChecks].
  rewrite !Board_clone_id.
  rewrite (validate_board_turn makruk b t None (Z.min h 150)
             (Z.min (Z.max f 1) 9999) r rc h f).
  split.
  - intros e ->. reflexivity.
  - intros ->. cbn [bind Result_map]. eexists. split; [reflexivity|].
    cbn [Position.board Position.turn Position.halfmoves Position.fullmoves].
    split; [apply boardEquals_refl with pp; assumption|]. auto.
Qed.

Lemma roundtrip_clamped_shuffled_kings :
  exists pos',
    Makruk.fromSetup (Position.toSetup shuffledKings) = Ret (Ok pos')
    /\ boardEquals (Position.board pos') (Position.board shuffledKings) = Ret true
    /\ Position.turn pos' = Position.turn shuffledKings
    /\ Position.halfmoves pos' = Z.min (Position.halfmoves shuffledKings) 150
    /\ Position.fullmoves pos'
       = Z.min (Z.max (Position.fullmoves shuffledKings) 1) 9999.
Proof.
  apply (proj2 (roundtrip_clamped shuffledKings
                  ltac:(eexists; vm_compute; reflexivity))).
  vm_compute. reflexivity.
Defined.

(* ===================================================================== *)
(** ** Position: insufficient material *)
(* ===================================================================== *)

(** A rook does not make [hasInsufficientMaterial] answer false: in the
    valid position white Ke1, Ra1 against black Kh8, white has a rook and
    [hasInsufficientMaterial(white)] is true. *)
Lemma rook_counts_as_insufficient :
  ~ (forall pos c,
       (exists setup, Makruk.fromSetup setup = Ret (Ok pos)) ->
       SquareSet.nonEmpty
         (SquareSet.intersect (Board.byColor (Position.board pos) c)
            (SquareSet.union (Board.pawn (Position.board pos))
               (SquareSet.union (Board.rook (Position.board pos))
                                (Board.queen (Position.board pos))))) = true ->
       Position.hasInsufficientMaterial pos c = false).
Proof.
  intros H.
  specialize (H (whiteToMove rookEndingBoard) white).
  assert (E : Position.hasInsufficientMaterial (whiteToMove rookEndingBoard) white = true)
    by (vm_compute; reflexivity).
  rewrite H in E; [discriminate E | | vm_compute; reflexivity].
  exists (setupOf rookEndingBoard). vm_compute. reflexivity.
Qed.

Lemma pawn_owner b :
  board_inv b = true -> SquareSet.nonEmpty (Board.pawn b) = true ->
  exists c,
    SquareSet.nonEmpty (SquareSet.intersect (Board.byColor b c) (Board.pawn b)) = true.
Proof.
  intros Hinv Hne.
  destruct (board_inv_wf b Hinv) as (_ & _ & _ & Hwp & _).
  destruct (nonEmpty_has _ Hwp Hne) as (i & Hi & Hp).
  apply board_inv_local in Hinv as (pp & _ & _ & Hloc).
  specialize (Hloc i Hi). unfold squareOK in Hloc. cbn [roleSets map] in Hloc.
  rewrite Hp in Hloc. cbn [existsb orb] in Hloc.
  destruct (SquareSet.has (Board.white b) i) eqn:Hw.
  - exists white. apply has_nonEmpty with i; [assumption|].
    rewrite has_intersect by assumption. cbn [Board.byColor]. rewrite Hw, Hp. reflexivity.
  - destruct (SquareSet.has (Board.black b) i) eqn:Hb.
    + exists black. apply has_nonEmpty with i; [assumption|].
      rewrite has_intersect by assumption. cbn [Board.byColor]. rewrite Hb, Hp. reflexivity.
    + destruct (SquareSet.has (Board.occupied b) i); discriminate Hloc.
Qed.

(** The part that holds: for every position and every color,
    [hasInsufficientMaterial(color)] returns false whenever that color has
    at least one pawn on the board; and on a board that satisfies the
    board invariant [isInsufficientMaterial()] returns false whenever any
    pawn is on the board. *)
Lemma pawn_is_sufficient_material (pos : Position.t) :
  (forall c,
     SquareSet.nonEmpty
       (SquareSet.intersect (Board.byColor (Position.board pos) c)
                            (Board.pawn (Position.board pos))) = true ->
     Position.hasInsufficientMaterial pos c = false)
  /\ (board_inv (Position.board pos) = true ->
      SquareSet.nonEmpty (Board.pawn (Position.board pos)) = true ->
      Position.isInsufficientMaterial pos = false).
Proof.
  assert (H1 : forall c,
     SquareSet.nonEmpty
       (SquareSet.intersect (Board.byColor (Position.board pos) c)
                            (Board.pawn (Position.board pos))) = true ->
     Position.hasInsufficientMaterial pos c = false).
  { intros c H. unfold Position.hasInsufficientMaterial. rewrite H. reflexivity. }
  split; [exact H1|].
  intros Hinv Hne. destruct (pawn_owner _ Hinv Hne) as (c & Hc).
  apply H1 in Hc. unfold Position.isInsufficientMaterial, COLORS.
  cbn [forallb]. destruct c; rewrite Hc; [reflexivity|].
  rewrite andb_false_r. reflexivity.
Qed.

Lemma pawn_is_sufficient_material_pawn_on_file :
  Position.hasInsufficientMaterial (whiteToMove pawnOnFileBoard) black = false
  /\ Position.isInsufficientMaterial (whiteToMove pawnOnFileBoard) = false.
Proof.
  split.
  - apply (proj1 (pawn_is_sufficient_material (whiteToMove pawnOnFileBoard))).
    vm_compute. reflexivity.
  - apply (proj2 (pawn_is_sufficient_material (whiteToMove pawnOnFileBoard)));
      vm_compute; reflexivity.
Defined.

(** C4 (the code does otherwise). [hasInsufficientMaterial] tests the
    pawns of the color and then goes on to the knight and bishop cases:
    rooks and queens are never looked at.  In the valid position white
    Ke1, Ra1 against black Kh8 white has a rook, yet
    [hasInsufficientMaterial] is true of both colors and
    [isInsufficientMaterial()] is true; [isEnd()] is true and [outcome()]
    is a draw although the side to move has moves ([hasDests()] is
    true).  In the valid position white Ke1 against black Qd2, Kh8 black
    has a queen, and again [hasInsufficientMaterial] is true of both
    colors. *)
Theorem major_pieces_count_as_insufficient :
  (Makruk.fromSetup (setupOf rookEndingBoard) = Ret (Ok (whiteToMove rookEndingBoard))
   /\ SquareSet.has
        (SquareSet.intersect (Board.byColor rookEndingBoard white)
           (Board.rook rookEndingBoard)) 0 = true
   /\ Position.hasInsufficientMaterial (whiteToMove rookEndingBoard) white = true
   /\ Position.hasInsufficientMaterial (whiteToMove rookEndingBoard) black = true
   /\ Position.isInsufficientMaterial (whiteToMove rookEndingBoard) = true
   /\ Position.hasDests (whiteToMove rookEndingBoard) None = Ret true
   /\ Position.isEnd (whiteToMove rookEndingBoard) None = Ret true
   /\ Position.outcome (whiteToMove rookEndingBoard) None
      = Ret (Some (mkOutcome None)))
  /\ (Makruk.fromSetup (setupOf queenNextToKingBoard)
      = Ret (Ok (whiteToMove queenNextToKingBoard))
      /\ SquareSet.has
           (SquareSet.intersect (Board.byColor queenNextToKingBoard black)
              (Board.queen queenNextToKingBoard)) 11 = true
      /\ Position.hasInsufficientMaterial (whiteToMove queenNextToKingBoard) black
         = true
      /\ Position.hasInsufficientMaterial (whiteToMove queenNextToKingBoard) white
         = true
      /\ Position.isInsufficientMaterial (whiteToMove queenNextToKingBoard) = true).
Proof.
  split.
  - repeat (match goal with |- _ /\ _ => split end); vm_compute; reflexivity.
  - repeat (match goal with |- _ /\ _ => split end); vm_compute; reflexivity.
Qed.

(* ===================================================================== *)
(** ** Position: check, and destinations in check *)
(* ===================================================================== *)

Lemma no_dispatch_attack_pawn_on_file :
  ~ attackedByDispatch pawnOnFileBoard black 4.
Proof.
  intros (s & p & a & Hs & Hget & Hc & Ha & Hh).
  revert p a Hget Hc Ha Hh. pattern s. apply square_cases; [|exact Hs].
  clear s Hs. intros n Hn.
  do 64 (destruct n as [|n];
         [intros p a Hget Hc Ha Hh; vm_compute in Hget;
          try discriminate Hget; injection Hget as <-;
          try discriminate Hc;
          vm_compute in Ha; injection Ha as <-;
          vm_compute in Hh; discriminate Hh|]).
  lia.
Qed.

(** C1 (the code does otherwise). Two valid positions with white to
    move and the white king on e1.  With a black pawn on e7 and the black
    king on h8, [isCheck()] is true although no black piece attacks e1 by
    the attack dispatch.  With a black queen on d2 and the black king on
    h8, [isCheck()] is false although the queen attacks e1; the checkers
    of [ctx()] are empty there. *)
Theorem isCheck_disagrees_with_dispatch :
  (Makruk.fromSetup (setupOf pawnOnFileBoard) = Ret (Ok (whiteToMove pawnOnFileBoard))
   /\ Board.kingOf pawnOnFileBoard white = Some 4
   /\ Position.isCheck (whiteToMove pawnOnFileBoard) = Ret true
   /\ ~ attackedByDispatch pawnOnFileBoard black 4)
  /\ (Makruk.fromSetup (setupOf queenNextToKingBoard)
      = Ret (Ok (whiteToMove queenNextToKingBoard))
      /\ Board.kingOf queenNextToKingBoard white = Some 4
      /\ Position.isCheck (whiteToMove queenNextToKingBoard) = Ret false
      /\ (exists c, Position.ctx (whiteToMove queenNextToKingBoard) = Ret c
                    /\ Context.checkers c = SquareSet.empty)
      /\ attackedByDispatch queenNextToKingBoard black 4).
Proof.
  split.
  - split; [vm_compute; reflexivity|]. split; [vm_compute; reflexivity|].
    split; [vm_compute; reflexivity|]. apply no_dispatch_attack_pawn_on_file.
  - split; [vm_compute; reflexivity|]. split; [vm_compute; reflexivity|].
    split; [vm_compute; reflexivity|].
    split; [eexists; split; [vm_compute; reflexivity | reflexivity]|].
    exists 11, (mkPiece (Some queen) black None).
    exists (SquareSet.new 0x00140014 0).
    split; [lia|]. split; [vm_compute; reflexivity|].
    split; [reflexivity|]. split; vm_compute; reflexivity.
Qed.

(** C6 (the code does otherwise). [validate] asks [kingAttackers] whether
    the side not to move is in check, and [kingAttackers] counts every
    piece on the king's rank or file as a rook and no queen at all.  On
    the board white Ke1 against black pawn e7, Kh8 with black to move,
    [fromSetup] returns the opposite-check error although the board is
    not empty, each color has one king, no pawn stands on a back rank,
    and no black piece attacks e1.  On the board white Ke1 against black
    Qd2, Kh8 with black to move, the queen attacks the king of the side
    not to move and [fromSetup] returns the position. *)
Theorem fromSetup_misjudges_opposite_check :
  (board_inv pawnOnFileBoard = true
   /\ Makruk.fromSetup (blackSetupOf pawnOnFileBoard)
      = Ret (Err (mkPositionError OppositeCheck))
   /\ ~ emptyBoard pawnOnFileBoard
   /\ ~ kingCountWrong pawnOnFileBoard
   /\ ~ otherSideAttacked (blackSetupOf pawnOnFileBoard)
   /\ ~ pawnOnBackrank pawnOnFileBoard)
  /\ (board_inv queenNextToKingBoard = true
      /\ otherSideAttacked (blackSetupOf queenNextToKingBoard)
      /\ Makruk.fromSetup (blackSetupOf queenNextToKingBoard)
         = Ret (Ok (blackToMove queenNextToKingBoard))).
Proof.
  split.
  - split; [vm_compute; reflexivity|]. split; [vm_compute; reflexivity|].
    split; [|split; [|split]].
    + intros H. specialize (H 4 ltac:(lia)). vm_compute in H. discriminate H.
    + intros H. apply H. split.
      * exists 4. split; [lia | vm_compute; reflexivity].
      * exists 63. split; [lia | vm_compute; reflexivity].
    + intros (k & Hk & Ha). vm_compute in Hk. injection Hk as <-.
      apply no_dispatch_attack_pawn_on_file. exact Ha.
    + intros (sq & Hr & Hh).
      assert (Hsq : 0 <= sq < 64) by lia.
      revert Hr Hh. pattern sq. apply square_cases; [|exact Hsq].
      clear sq Hsq. intros n Hn.
      do 64 (destruct n as [|n];
             [intros Hr Hh; vm_compute in Hh; try discriminate Hh; cbn in Hr; lia|]).
      lia.
  - split; [vm_compute; reflexivity|]. split; [|vm_compute; reflexivity].
    exists 4. split; [vm_compute; reflexivity|].
    exists 11, (mkPiece (Some queen) black None).
    exists (SquareSet.new 0x00140014 0).
    split; [lia|]. split; [vm_compute; reflexivity|].
    split; [reflexivity|]. split; vm_compute; reflexivity.
Qed.

Lemma empty_dests_in_check (d : SquareSet.t) (k : Square) (cs : SquareSet.t) :
  d = SquareSet.empty ->
  match SquareSet.singleSquare cs with
  | None => d = SquareSet.empty
  | Some checker =>
      forall i, 0 <= i < 64 -> SquareSet.has d i = true ->
        exists bt, between checker k = Ret bt
                   /\ SquareSet.has (SquareSet.with_ bt checker) i = true
  end.
Proof.
  intros ->. destruct (SquareSet.singleSquare cs); [|reflexivity].
  intros i Hi H. rewrite has_empty in H by assumption. discriminate H.
Qed.

(** What [dests] does hold to when the side to move is in check: with one
    checker every destination set, the king's included, lies within the
    squares between checker and king together with the checker's square;
    with more than one checker every destination set is empty. *)
Lemma dests_in_check pos sq ctx d k :
  Position.dests pos sq (Some ctx) = Ret d ->
  Context.king ctx = Some k ->
  SquareSet.nonEmpty (Context.checkers ctx) = true ->
  match SquareSet.singleSquare (Context.checkers ctx) with
  | None => d = SquareSet.empty
  | Some checker =>
      forall i, 0 <= i < 64 -> SquareSet.has d i = true ->
        exists bt, between checker k = Ret bt
                   /\ SquareSet.has (SquareSet.with_ bt checker) i = true
  end.
Proof.
  intros H Hk Hne. unfold Position.dests in H. cbn [Position.ctxOr bind] in H.
  destruct (Context.variantEnd ctx);
    [apply empty_dests_in_check; congruence|].
  destruct (Board.get (Position.board pos) sq) as [[piece|]|]; cbn [bind] in H;
    [ | apply empty_dests_in_check; congruence | discriminate H].
  destruct (negb (Color_eqb (color piece) (Position.turn pos)));
    [apply empty_dests_in_check; congruence|].
  match type of H with bind ?m _ = _ => destruct m as [pseudo|] end;
    cbn [bind] in H; [|discriminate H].
  rewrite Hk in H.
  match type of H with bind ?m _ = _ => destruct m as [pseudo'|] end;
    cbn [bind] in H; [|discriminate H].
  rewrite Hne in H.
  destruct (SquareSet.singleSquare (Context.checkers ctx)) as [checker|];
    [|congruence].
  destruct (between checker k) as [bt|]; cbn [bind] in H; [|discriminate H].
  intros i Hi Hd. exists bt. split; [reflexivity|].
  destruct (SquareSet.has (Context.blockers ctx) sq).
  - destruct (ray sq k) as [r|]; cbn [bind] in H; [|discriminate H].
    injection H as <-. rewrite !has_intersect in Hd by assumption.
    apply andb_true_iff in Hd as [Hd _]. apply andb_true_iff in Hd as [_ Hd].
    exact Hd.
  - injection H as <-. rewrite has_intersect in Hd by assumption.
    apply andb_true_iff in Hd as [_ Hd]. exact Hd.
Qed.

(** C2 (the code does otherwise). Two valid positions with white to
    move and the white king on e1, in check by two pieces.  Against black
    Ra1, Re8, Kh8 both rooks attack the king; its pseudo-legal
    destinations that are not attacked on the board with the king removed
    are d2 and f2.  Against black knights d3 and f3 and Kh8 both knights
    attack the king (no piece stands on the king's rank or file, so
    [between] is never called); e2 is such a destination.  In both,
    [dests] returns the empty set for the king and [isCheckmate()] is
    true. *)
Theorem double_check_empties_king_dests :
  (let pos := whiteToMove doubleRookCheckBoard in
   Makruk.fromSetup (setupOf doubleRookCheckBoard) = Ret (Ok pos)
   /\ Position.ctx pos
      = Ret (Context.mk (Some 4) SquareSet.empty
               (SquareSet.union (SquareSet.fromSquare 0) (SquareSet.fromSquare 60))
               false false)
   /\ (exists a,
         attacks (mkPiece (Some rook) black None) 0
           (Board.occupied doubleRookCheckBoard) = Ret (Some a)
         /\ SquareSet.has a 4 = true)
   /\ (exists a,
         attacks (mkPiece (Some rook) black None) 60
           (Board.occupied doubleRookCheckBoard) = Ret (Some a)
         /\ SquareSet.has a 4 = true)
   /\ kingSafeDests pos 4
      = Ret (SquareSet.union (SquareSet.fromSquare 11) (SquareSet.fromSquare 13))
   /\ Position.dests pos 4 None = Ret SquareSet.empty
   /\ Position.isCheckmate pos None = Ret true)
  /\ (let pos := whiteToMove doubleKnightCheckBoard in
      Makruk.fromSetup (setupOf doubleKnightCheckBoard) = Ret (Ok pos)
      /\ Position.ctx pos
         = Ret (Context.mk (Some 4) SquareSet.empty
                  (SquareSet.union (SquareSet.fromSquare 19) (SquareSet.fromSquare 21))
                  false false)
      /\ (exists a,
            attacks (mkPiece (Some knight) black None) 19
              (Board.occupied doubleKnightCheckBoard) = Ret (Some a)
            /\ SquareSet.has a 4 = true)
      /\ (exists a,
            attacks (mkPiece (Some knight) black None) 21
              (Board.occupied doubleKnightCheckBoard) = Ret (Some a)
            /\ SquareSet.has a 4 = true)
      /\ kingSafeDests pos 4 = Ret (SquareSet.fromSquare 12)
      /\ Position.dests pos 4 None = Ret SquareSet.empty
      /\ Position.isCheckmate pos None = Ret true).
Proof.
  cbv zeta. split.
  - split; [vm_compute; reflexivity|]. split; [vm_compute; reflexivity|].
    split; [eexists; split; [vm_compute; reflexivity | vm_compute; reflexivity]|].
    split; [eexists; split; [vm_compute; reflexivity | vm_compute; reflexivity]|].
    split; [vm_compute; reflexivity|]. split; vm_compute; reflexivity.
  - split; [vm_compute; reflexivity|]. split; [vm_compute; reflexivity|].
    split; [eexists; split; [vm_compute; reflexivity | vm_compute; reflexivity]|].
    split; [eexists; split; [vm_compute; reflexivity | vm_compute; reflexivity]|].
    split; [vm_compute; reflexivity|]. split; vm_compute; reflexivity.
Qed.

(** C3 (the code does otherwise). From [Makruk.default()] the third
    move of the sequence e2e4, e7e5, d1h5, g8f6, f1c4, b8c6, h5f7 makes
    [play] throw a TypeError, because [Board.reset] leaves [promotedpawn]
    unassigned.  From the same layout with that set assigned empty, the
    sequence ends in a position whose checkers are empty, where the king
    on e8 may go to f7, and where [isCheckmate()] is false. *)
Theorem four_move_mate_not_detected :
  playAll Makruk.default fourMoveMate = Throw TypeError
  /\ Makruk.fromSetup (setupOf resetBoardAssigned)
     = Ret (Ok (whiteToMove resetBoardAssigned))
  /\ exists pos c,
       playAll (whiteToMove resetBoardAssigned) fourMoveMate = Ret pos
       /\ Position.ctx pos = Ret c
       /\ Context.king c = Some 60
       /\ Context.checkers c = SquareSet.empty
       /\ Position.dests pos 60 None = Ret (SquareSet.fromSquare 53)
       /\ Position.isCheckmate pos None = Ret false.
Proof.
  split; [vm_compute; reflexivity|]. split; [vm_compute; reflexivity|].
  eexists. eexists.
  split; [vm_compute; reflexivity|].
  split; [vm_compute; reflexivity|].
  split; [reflexivity|]. split; [reflexivity|].
  split; vm_compute; reflexivity.
Qed.

(* ===================================================================== *)
(** ** Square sets as sets of squares *)
(* ===================================================================== *)

Lemma has_xor s t i :
  0 <= i < 64 ->
  SquareSet.has (SquareSet.xor s t) i = xorb (SquareSet.has s i) (SquareSet.has t i).
Proof. unfold SquareSet.xor. has_op. Qed.

Lemma has_complement s i :
  0 <= i < 64 ->
  SquareSet.has (SquareSet.complement s) i = negb (SquareSet.has s i).
Proof. unfold SquareSet.complement. has_op. Qed.

Lemma has_full i : 0 <= i < 64 -> SquareSet.has SquareSet.full i = true.
Proof.
  revert i. apply square_cases. intros n Hn.
  do 64 (destruct n as [|n]; [vm_compute; reflexivity|]). lia.
Qed.

Lemma has_toggle s sq i :
  0 <= sq < 64 -> 0 <= i < 64 ->
  SquareSet.has (SquareSet.toggle s sq) i = xorb (i =? sq) (SquareSet.has s i).
Proof.
  intros Hsq Hi. unfold SquareSet.toggle.
  destruct (Z.leb_spec 32 sq); rewrite has_new, (has_testbit s) by assumption;
    destruct (Z.leb_spec 32 i);
    rewrite ?testbit_xor, ?testbit_shl_1 by lia;
    repeat match goal with
           | |- context [?a =? ?b] => destruct (Z.eqb_spec a b)
           end;
    try lia; rewrite ?xorb_true_r, ?xorb_false_r; reflexivity.
Qed.

(** The set operations are the Boolean operations on membership: on the
    squares 0..63, [union] is or, [intersect] is and, [diff] is and-not,
    [xor] is exclusive or and [complement] is not. *)
Theorem set_operations_membership (s t : SquareSet.t) (i : Square) :
  0 <= i < 64 ->
  SquareSet.has (SquareSet.union s t) i = SquareSet.has s i || SquareSet.has t i
  /\ SquareSet.has (SquareSet.intersect s t) i
     = SquareSet.has s i && SquareSet.has t i
  /\ SquareSet.has (SquareSet.diff s t) i
     = SquareSet.has s i && negb (SquareSet.has t i)
  /\ SquareSet.has (SquareSet.xor s t) i
     = xorb (SquareSet.has s i) (SquareSet.has t i)
  /\ SquareSet.has (SquareSet.complement s) i = negb (SquareSet.has s i).
Proof.
  intros Hi.
  rewrite has_union, has_intersect, has_diff, has_xor, has_complement by assumption.
  repeat split.
Qed.

Lemma set_operations_membership_corners :
  SquareSet.has (SquareSet.union SquareSet.corners SquareSet.center) 7
  = SquareSet.has SquareSet.corners 7 || SquareSet.has SquareSet.center 7
  /\ SquareSet.has (SquareSet.intersect SquareSet.corners SquareSet.center) 7
     = SquareSet.has SquareSet.corners 7 && SquareSet.has SquareSet.center 7
  /\ SquareSet.has (SquareSet.diff SquareSet.corners SquareSet.center) 7
     = SquareSet.has SquareSet.corners 7 && negb (SquareSet.has SquareSet.center 7)
  /\ SquareSet.has (SquareSet.xor SquareSet.corners SquareSet.center) 7
     = xorb (SquareSet.has SquareSet.corners 7) (SquareSet.has SquareSet.center 7)
  /\ SquareSet.has (SquareSet.complement SquareSet.corners) 7
     = negb (SquareSet.has SquareSet.corners 7).
Proof. apply (set_operations_membership SquareSet.corners SquareSet.center 7). lia. Defined.

(** [with], [without], [toggle] and [fromSquare] change or hold exactly
    the one square they are given. *)
Theorem single_square_updates (s : SquareSet.t) (sq i : Square) :
  0 <= sq < 64 -> 0 <= i < 64 ->
  SquareSet.has (SquareSet.with_ s sq) i = (i =? sq) || SquareSet.has s i
  /\ SquareSet.has (SquareSet.without s sq) i = negb (i =? sq) && SquareSet.has s i
  /\ SquareSet.has (SquareSet.toggle s sq) i = xorb (i =? sq) (SquareSet.has s i)
  /\ SquareSet.has (SquareSet.fromSquare sq) i = (i =? sq).
Proof.
  intros Hsq Hi.
  rewrite has_with, has_without, has_toggle, has_fromSquare by assumption.
  repeat split.
Qed.

Lemma single_square_updates_corners :
  SquareSet.has (SquareSet.with_ SquareSet.corners 9) 9
  = (9 =? 9) || SquareSet.has SquareSet.corners 9
  /\ SquareSet.has (SquareSet.without SquareSet.corners 9) 9
     = negb (9 =? 9) && SquareSet.has SquareSet.corners 9
  /\ SquareSet.has (SquareSet.toggle SquareSet.corners 9) 9
     = xorb (9 =? 9) (SquareSet.has SquareSet.corners 9)
  /\ SquareSet.has (SquareSet.fromSquare 9) 9 = (9 =? 9).
Proof. apply (single_square_updates SquareSet.corners 9 9); lia. Defined.

(** Complement laws on constructor-made sets: a set and its complement
    make the full set and share no square, and the complement of the
    complement is the set itself. *)
Theorem complement_laws (s : SquareSet.t) :
  SquareSet.wf s = true ->
  SquareSet.union s (SquareSet.complement s) = SquareSet.full
  /\ SquareSet.intersect s (SquareSet.complement s) = SquareSet.empty
  /\ SquareSet.complement (SquareSet.complement s) = s.
Proof.
  intros Hwf. split; [|split].
  - apply SquareSet_ext; [apply wf_new | reflexivity |]. intros i Hi.
    rewrite has_union, has_complement, has_full by assumption. apply orb_negb_r.
  - apply SquareSet_ext; [apply wf_new | reflexivity |]. intros i Hi.
    rewrite has_intersect, has_complement, has_empty by assumption. apply andb_negb_r.
  - apply SquareSet_ext; [apply wf_new | assumption |]. intros i Hi.
    rewrite !has_complement by assumption. apply negb_involutive.
Qed.

Lemma complement_laws_corners :
  SquareSet.union SquareSet.corners (SquareSet.complement SquareSet.corners)
  = SquareSet.full
  /\ SquareSet.intersect SquareSet.corners (SquareSet.complement SquareSet.corners)
     = SquareSet.empty
  /\ SquareSet.complement (SquareSet.complement SquareSet.corners) = SquareSet.corners.
Proof. apply (complement_laws SquareSet.corners). reflexivity. Defined.

Lemma nonEmpty_iff s :
  SquareSet.wf s = true ->
  (SquareSet.nonEmpty s = true
   <-> exists i, 0 <= i < 64 /\ SquareSet.has s i = true).
Proof.
  intros Hwf. split; [apply nonEmpty_has; assumption|].
  intros (i & Hi & H). apply has_nonEmpty with i; assumption.
Qed.

Lemma isEmpty_iff s :
  SquareSet.wf s = true ->
  (SquareSet.isEmpty s = true
   <-> forall i, 0 <= i < 64 -> SquareSet.has s i = false).
Proof.
  intros Hwf. split.
  - intros H i Hi. apply isEmpty_has; assumption.
  - apply no_member_isEmpty. assumption.
Qed.

(** The predicates of a square set, read on its members (for
    constructor-made sets): [equals] is having the same members,
    [isEmpty] having none, [nonEmpty] having one, [intersects] sharing
    one, [isDisjoint] sharing none, and [subsetOf] / [supersetOf]
    inclusion. *)
Theorem set_predicates_membership (s t : SquareSet.t) :
  SquareSet.wf s = true -> SquareSet.wf t = true ->
  (SquareSet.equals s t = true
   <-> forall i, 0 <= i < 64 -> SquareSet.has s i = SquareSet.has t i)
  /\ (SquareSet.isEmpty s = true
      <-> forall i, 0 <= i < 64 -> SquareSet.has s i = false)
  /\ (SquareSet.nonEmpty s = true
      <-> exists i, 0 <= i < 64 /\ SquareSet.has s i = true)
  /\ (SquareSet.intersects s t = true
      <-> exists i, 0 <= i < 64 /\ SquareSet.has s i = true
                    /\ SquareSet.has t i = true)
  /\ (SquareSet.isDisjoint s t = true
      <-> forall i, 0 <= i < 64 -> SquareSet.has s i = true ->
                    SquareSet.has t i = false)
  /\ (SquareSet.subsetOf s t = true
      <-> forall i, 0 <= i < 64 -> SquareSet.has s i = true ->
                    SquareSet.has t i = true)
  /\ (SquareSet.supersetOf s t = true
      <-> forall i, 0 <= i < 64 -> SquareSet.has t i = true ->
                    SquareSet.has s i = true).
Proof.
  intros Hs Ht.
  assert (Hsub : forall a b,
            SquareSet.isEmpty (SquareSet.diff a b) = true
            <-> forall i, 0 <= i < 64 -> SquareSet.has a i = true ->
                          SquareSet.has b i = true).
  { intros a b. rewrite isEmpty_iff by apply wf_new. split.
    - intros H i Hi Ha. specialize (H i Hi). rewrite has_diff, Ha in H by assumption.
      destruct (SquareSet.has b i); [reflexivity | discriminate H].
    - intros H i Hi. rewrite has_diff by assumption.
      destruct (SquareSet.has a i) eqn:Ha; [|reflexivity].
      rewrite (H i Hi Ha). reflexivity. }
  split; [|split; [|split; [|split; [|split; [|split]]]]].
  - rewrite equals_eq. split; [intros -> i Hi; reflexivity|].
    intros H. apply SquareSet_ext; assumption.
  - apply isEmpty_iff. assumption.
  - apply nonEmpty_iff. assumption.
  - unfold SquareSet.intersects. rewrite nonEmpty_iff by apply wf_new. split.
    + intros (i & Hi & H). rewrite has_intersect in H by assumption.
      apply andb_true_iff in H. exists i. tauto.
    + intros (i & Hi & H1 & H2). exists i. split; [assumption|].
      rewrite has_intersect, H1, H2 by assumption. reflexivity.
  - rewrite isDisjoint_has. split.
    + intros H i Hi Ha. specialize (H i Hi). rewrite Ha in H. exact H.
    + intros H i Hi. destruct (SquareSet.has s i) eqn:Ha; [|reflexivity].
      rewrite (H i Hi Ha). reflexivity.
  - apply Hsub.
  - apply Hsub.
Qed.

Lemma set_predicates_membership_corners :
  SquareSet.isDisjoint SquareSet.corners SquareSet.center = true
  <-> forall i, 0 <= i < 64 -> SquareSet.has SquareSet.corners i = true ->
                SquareSet.has SquareSet.center i = false.
Proof.
  apply (set_predicates_membership SquareSet.corners SquareSet.center);
    reflexivity.
Defined.

Lemma testbit_shl a n k :
  0 <= n < 32 -> 0 <= k < 32 ->
  Z.testbit (JS.shl a n) k = (n <=? k) && Z.testbit a (k - n).
Proof.
  intros Hn Hk. unfold JS.shl. rewrite Z.mod_small by lia.
  rewrite testbit_toInt32 by assumption. rewrite Z.shiftl_spec by lia.
  destruct (Z.leb_spec n k).
  - rewrite testbit_toInt32 by lia. reflexivity.
  - apply Z.testbit_neg_r. lia.
Qed.

Lemma testbit_ushr a n k :
  0 <= n < 32 -> 0 <= k < 32 ->
  Z.testbit (JS.ushr a n) k = (k + n <? 32) && Z.testbit a (k + n).
Proof.
  intros Hn Hk. unfold JS.ushr. rewrite Z.mod_small by lia.
  rewrite Z.shiftr_spec by lia.
  destruct (Z.ltb_spec (k + n) 32).
  - rewrite testbit_toUint32 by lia. reflexivity.
  - unfold JS.toUint32. change 4294967296 with (2 ^ 32).
    apply Z.mod_pow2_bits_high. lia.
Qed.

Lemma has_shl64 s n i :
  0 <= n -> 0 <= i < 64 ->
  SquareSet.has (SquareSet.shl64 s n) i = (n <=? i) && SquareSet.has s (i - n).
Proof.
  intros Hn Hi. unfold SquareSet.shl64.
  destruct (Z.leb_spec 64 n).
  { rewrite has_empty by assumption. destruct (Z.leb_spec n i); [lia | reflexivity]. }
  destruct (Z.leb_spec 32 n).
  { rewrite has_new by assumption. destruct (Z.leb_spec 32 i).
    - rewrite testbit_shl by lia.
      destruct (Z.leb_spec (n - 32) (i - 32)), (Z.leb_spec n i); try (exfalso; lia);
        [|reflexivity].
      rewrite has_testbit by lia. destruct (Z.leb_spec 32 (i - n)); [lia|].
      cbn [andb]. f_equal. lia.
    - rewrite Z.bits_0. destruct (Z.leb_spec n i); [lia | reflexivity]. }
  destruct (Z.ltb_spec 0 n).
  2:{ assert (n = 0) by lia. subst n. rewrite Z.sub_0_r.
      destruct (Z.leb_spec 0 i); [reflexivity | lia]. }
  rewrite has_new by assumption. destruct (Z.leb_spec 32 i).
  - rewrite testbit_xor, testbit_shl, testbit_ushr by lia.
    destruct (Z.leb_spec n i); [|lia]. cbn [andb].
    rewrite has_testbit by lia.
    destruct (Z.leb_spec n (i - 32)), (Z.ltb_spec (i - 32 + (32 - n)) 32),
      (Z.leb_spec 32 (i - n)); try (exfalso; lia); cbn [andb].
    + rewrite xorb_false_r. f_equal. lia.
    + rewrite xorb_false_l. f_equal. lia.
  - rewrite testbit_shl by lia.
    destruct (Z.leb_spec n i); [|reflexivity]. cbn [andb].
    rewrite has_testbit by lia. destruct (Z.leb_spec 32 (i - n)); [lia | reflexivity].
Qed.

Lemma has_shr64 s n i :
  0 <= n -> 0 <= i < 64 ->
  SquareSet.has (SquareSet.shr64 s n) i = (i + n <? 64) && SquareSet.has s (i + n).
Proof.
  intros Hn Hi. unfold SquareSet.shr64.
  destruct (Z.leb_spec 64 n).
  { rewrite has_empty by assumption. destruct (Z.ltb_spec (i + n) 64); [lia | reflexivity]. }
  destruct (Z.leb_spec 32 n).
  { rewrite has_new by assumption. destruct (Z.leb_spec 32 i).
    - rewrite Z.bits_0. destruct (Z.ltb_spec (i + n) 64); [lia | reflexivity].
    - rewrite testbit_ushr by lia.
      destruct (Z.ltb_spec (i + (n - 32)) 32), (Z.ltb_spec (i + n) 64); try (exfalso; lia);
        [|reflexivity].
      rewrite has_testbit by lia. destruct (Z.leb_spec 32 (i + n)); [|lia].
      cbn [andb]. f_equal. lia. }
  destruct (Z.ltb_spec 0 n).
  2:{ assert (n = 0) by lia. subst n. rewrite Z.add_0_r.
      destruct (Z.ltb_spec i 64); [reflexivity | lia]. }
  rewrite has_new by assumption. destruct (Z.leb_spec 32 i).
  - rewrite testbit_ushr by lia.
    destruct (Z.ltb_spec (i - 32 + n) 32), (Z.ltb_spec (i + n) 64); try (exfalso; lia);
      [|reflexivity].
    cbn [andb]. rewrite has_testbit by lia.
    destruct (Z.leb_spec 32 (i + n)); [|lia]. f_equal. lia.
  - rewrite testbit_xor, testbit_ushr, testbit_shl by lia.
    destruct (Z.ltb_spec (i + n) 64); [|lia]. cbn [andb].
    rewrite has_testbit by lia.
    destruct (Z.ltb_spec (i + n) 32), (Z.leb_spec (32 - n) i),
      (Z.leb_spec 32 (i + n)); try (exfalso; lia); cbn [andb].
    + rewrite xorb_false_r. reflexivity.
    + rewrite xorb_false_l. f_equal. lia.
Qed.

(** [shl64] and [shr64] move every member by the shift amount and drop
    what leaves the board: square [i] is in [s.shl64(n)] exactly when
    [i - n] is a square of [s], and in [s.shr64(n)] exactly when [i + n]
    is; a shift of 64 or more gives the empty set. *)
Theorem shifts_move_members (s : SquareSet.t) (n : Z) (i : Square) :
  0 <= n -> 0 <= i < 64 ->
  SquareSet.has (SquareSet.shl64 s n) i = (n <=? i) && SquareSet.has s (i - n)
  /\ SquareSet.has (SquareSet.shr64 s n) i
     = (i + n <? 64) && SquareSet.has s (i + n)
  /\ (64 <= n -> SquareSet.shl64 s n = SquareSet.empty
                 /\ SquareSet.shr64 s n = SquareSet.empty).
Proof.
  intros Hn Hi. split; [apply has_shl64; assumption|].
  split; [apply has_shr64; assumption|].
  intros H64. unfold SquareSet.shl64, SquareSet.shr64.
  destruct (Z.leb_spec 64 n); [split; reflexivity | lia].
Qed.

Lemma shifts_move_members_corners :
  SquareSet.has (SquareSet.shl64 SquareSet.corners 9) 16
  = (9 <=? 16) && SquareSet.has SquareSet.corners (16 - 9)
  /\ SquareSet.has (SquareSet.shr64 SquareSet.corners 9) 16
     = (16 + 9 <? 64) && SquareSet.has SquareSet.corners (16 + 9)
  /\ (64 <= 9 -> SquareSet.shl64 SquareSet.corners 9 = SquareSet.empty
                 /\ SquareSet.shr64 SquareSet.corners 9 = SquareSet.empty).
Proof. apply (shifts_move_members SquareSet.corners 9 16); lia. Defined.

(* ===================================================================== *)
(** ** Iteration order, first and last member *)
(* ===================================================================== *)

(** The index the iterator computes from a non-zero half is its lowest
    set bit. *)
Lemma lowest_bit_least x :
  x = JS.toInt32 x -> x <> 0 ->
  forall k, 0 <= k < 31 - JS.clz32 (JS.and x (- x)) -> Z.testbit x k = false.
Proof.
  intros Hx Hnz.
  destruct (odd_times_pow2 x Hnz) as (j & m & Hj & E).
  assert (Hj32 : j < 32).
  { destruct (Z.lt_ge_cases j 32) as [|Hge]; [assumption | exfalso].
    apply Hnz. apply (toUint32_zero x Hx). unfold JS.toUint32. rewrite E.
    replace j with (32 + (j - 32)) by lia. rewrite Z.pow_add_r by lia.
    change (2 ^ 32) with 4294967296.
    rewrite <- Z.mul_assoc. rewrite Z.mul_comm. apply Z_mod_mult. }
  assert (Hand : JS.toUint32 (JS.and x (- x)) = 2 ^ j).
  { rewrite <- toUint32_pow2 by lia.
    rewrite <- (toUint32_toInt32 (JS.and x (- x))), <- (toUint32_toInt32 (2 ^ j)).
    f_equal. apply int32_ext. intros k Hk.
    rewrite testbit_and by assumption.
    rewrite <- Z.land_spec. rewrite E at 1 2. rewrite land_opp_pow2 by assumption.
    reflexivity. }
  assert (Hclz : JS.clz32 (JS.and x (- x)) = 31 - j).
  { unfold JS.clz32. rewrite Hand.
    destruct (Z.eqb_spec (2 ^ j) 0) as [E0|_].
    - pose proof (Z.pow_pos_nonneg 2 j ltac:(lia) Hj). lia.
    - rewrite Z.log2_pow2 by assumption. reflexivity. }
  rewrite Hclz. intros k Hk. rewrite E, Z.mul_comm.
  apply Z.mul_pow2_bits_low. lia.
Qed.

(** [31 - Math.clz32(x)] is the highest set bit of a non-zero int32. *)
Lemma highest_bit x :
  x = JS.toInt32 x -> x <> 0 ->
  let idx := 31 - JS.clz32 x in
  0 <= idx < 32 /\ Z.testbit x idx = true
  /\ forall k, idx < k < 32 -> Z.testbit x k = false.
Proof.
  intros Hx Hnz. cbv zeta.
  assert (Hu : JS.toUint32 x <> 0) by (rewrite (toUint32_zero x Hx); exact Hnz).
  pose proof (toUint32_range x) as Hr.
  unfold JS.clz32. destruct (Z.eqb_spec (JS.toUint32 x) 0) as [|_]; [contradiction|].
  replace (31 - (31 - Z.log2 (JS.toUint32 x))) with (Z.log2 (JS.toUint32 x)) by lia.
  assert (Hlog : 0 <= Z.log2 (JS.toUint32 x) < 32).
  { split; [apply Z.log2_nonneg|]. apply Z.log2_lt_pow2; [lia|].
    change (2 ^ 32) with 4294967296. lia. }
  split; [exact Hlog|]. split.
  - rewrite <- testbit_toUint32 by exact Hlog. apply Z.bit_log2. lia.
  - intros k Hk. rewrite <- testbit_toUint32 by lia.
    apply Z.bits_above_log2; lia.
Qed.

Lemma filter_none {A : Type} (f : A -> bool) (l : list A) :
  (forall x, In x l -> f x = false) -> filter f l = [].
Proof.
  induction l as [|x l IH]; intros H; [reflexivity|]. cbn [filter].
  rewrite (H x (or_introl eq_refl)). apply IH. intros y Hy. apply H. right. exact Hy.
Qed.

(** Removing the least member of an ascending range removes the head of
    the list of members. *)
Lemma filter_pop_min (f g : Z -> bool) (j : Z) (n : nat) :
  forall a : nat,
    Z.of_nat a <= j < Z.of_nat (a + n) ->
    f j = true ->
    (forall i, Z.of_nat a <= i < j -> f i = false) ->
    (forall i, Z.of_nat a <= i < Z.of_nat (a + n) -> g i = negb (i =? j) && f i) ->
    filter f (map Z.of_nat (seq a n)) = j :: filter g (map Z.of_nat (seq a n)).
Proof.
  induction n as [|n IH]; intros a Hj Hf Hmin Hg; [lia|].
  cbn [seq map filter].
  destruct (Z.eq_dec (Z.of_nat a) j) as [E | Hne].
  - rewrite E, Hf, (Hg j) by lia. rewrite Z.eqb_refl. cbn [negb andb].
    f_equal. apply filter_ext_in. intros i Hi.
    apply in_map_iff in Hi as (k & <- & Hk). apply in_seq in Hk.
    rewrite Hg by lia. destruct (Z.eqb_spec (Z.of_nat k) j); [lia | reflexivity].
  - rewrite (Hg (Z.of_nat a)) by lia. rewrite (Hmin (Z.of_nat a)) by lia.
    rewrite andb_false_r. apply IH; try assumption; try lia.
    + intros i Hi. apply Hmin. lia.
    + intros i Hi. apply Hg. lia.
Qed.

(** Removing the greatest member removes the end of the list of members. *)
Lemma filter_pop_max (f g : Z -> bool) (j : Z) (a : nat) :
  forall n : nat,
    Z.of_nat a <= j < Z.of_nat (a + n) ->
    f j = true ->
    (forall i, j < i < Z.of_nat (a + n) -> f i = false) ->
    (forall i, Z.of_nat a <= i < Z.of_nat (a + n) -> g i = negb (i =? j) && f i) ->
    filter f (map Z.of_nat (seq a n)) = filter g (map Z.of_nat (seq a n)) ++ [j].
Proof.
  induction n as [|n IH]; intros Hj Hf Hmax Hg; [lia|].
  rewrite seq_S, map_app, !filter_app. cbn [map filter].
  destruct (Z.eq_dec (Z.of_nat (a + n)) j) as [E | Hne].
  - rewrite E, Hf, (Hg j) by lia. rewrite Z.eqb_refl. cbn [negb andb].
    rewrite app_nil_r. f_equal. apply filter_ext_in. intros i Hi.
    apply in_map_iff in Hi as (k & <- & Hk). apply in_seq in Hk.
    rewrite Hg by lia. destruct (Z.eqb_spec (Z.of_nat k) j); [lia | reflexivity].
  - rewrite (Hg (Z.of_nat (a + n))) by lia. rewrite (Hmax (Z.of_nat (a + n))) by lia.
    rewrite andb_false_r, !app_nil_r. apply IH; try assumption; try lia.
    + intros i Hi. destruct (Z.eq_dec i (Z.of_nat (a + n))) as [-> | Hi'].
      * apply Hmax. lia.
      * apply Hmax. lia.
    + intros i Hi. apply Hg. lia.
Qed.

Lemma has_mk_zero i : 0 <= i < 64 -> SquareSet.has (SquareSet.mk 0 0) i = false.
Proof.
  intros Hi. rewrite has_testbit by assumption. cbn [SquareSet.lo SquareSet.hi].
  destruct (32 <=? i); apply Z.bits_0.
Qed.

Lemma iterate_filter fuel :
  forall lo hi,
    lo = JS.toInt32 lo -> hi = JS.toInt32 hi ->
    (length (filter (SquareSet.has (SquareSet.mk lo hi)) allSquares) <= fuel)%nat ->
    SquareSet.iterate fuel lo hi
    = filter (SquareSet.has (SquareSet.mk lo hi)) allSquares.
Proof.
  induction fuel as [|fuel IH]; intros lo hi Hlo Hhi Hlen.
  - cbn [SquareSet.iterate].
    destruct (filter (SquareSet.has (SquareSet.mk lo hi)) allSquares);
      [reflexivity | cbn [length] in Hlen; lia].
  - cbn [SquareSet.iterate]. unfold JS.truthy.
    destruct (Z.eqb_spec lo 0) as [El | Nl]; cbn [negb].
    + destruct (Z.eqb_spec hi 0) as [Eh | Nh]; cbn [negb].
      * subst lo hi. symmetry. apply filter_none. intros i Hi.
        apply has_mk_zero. apply allSquares_In. exact Hi.
      * destruct (lowest_bit hi Hhi Nh) as [Hidx Hb].
        pose proof (lowest_bit_least hi Hhi Nh) as Hmin.
        set (idx := 31 - JS.clz32 (JS.and hi (- hi))) in *. clearbody idx.
        assert (E : filter (SquareSet.has (SquareSet.mk lo hi)) allSquares
                    = (32 + idx)
                      :: filter (SquareSet.has
                                   (SquareSet.mk lo (JS.xor hi (JS.shl 1 idx))))
                           allSquares).
        { unfold allSquares. apply filter_pop_min.
          - lia.
          - rewrite has_testbit by lia. cbn [SquareSet.hi].
            destruct (Z.leb_spec 32 (32 + idx)); [|lia].
            replace (32 + idx - 32) with idx by lia. exact Hb.
          - intros i Hi. rewrite has_testbit by lia.
            cbn [SquareSet.lo SquareSet.hi]. destruct (Z.leb_spec 32 i).
            + apply Hmin. lia.
            + rewrite El. apply Z.bits_0.
          - intros i Hi. apply has_mk_xor_hi; try assumption; try lia. }
        rewrite E. f_equal. apply IH; [assumption | apply xor_int32 |].
        rewrite E in Hlen. cbn [length] in Hlen. lia.
    + destruct (lowest_bit lo Hlo Nl) as [Hidx Hb].
      pose proof (lowest_bit_least lo Hlo Nl) as Hmin.
      set (idx := 31 - JS.clz32 (JS.and lo (- lo))) in *. clearbody idx.
      assert (E : filter (SquareSet.has (SquareSet.mk lo hi)) allSquares
                  = idx :: filter (SquareSet.has
                                     (SquareSet.mk (JS.xor lo (JS.shl 1 idx)) hi))
                             allSquares).
      { unfold allSquares. apply filter_pop_min.
        - lia.
        - rewrite has_testbit by lia. cbn [SquareSet.lo].
          destruct (Z.leb_spec 32 idx); [lia | exact Hb].
        - intros i Hi. rewrite has_testbit by lia.
          cbn [SquareSet.lo SquareSet.hi]. destruct (Z.leb_spec 32 i); [lia|].
          apply Hmin. lia.
        - intros i Hi. apply has_mk_xor_lo; try assumption; try lia. }
      rewrite E. f_equal. apply IH; [apply xor_int32 | assumption |].
      rewrite E in Hlen. cbn [length] in Hlen. lia.
Qed.

Lemma reversed_iterate_filter fuel :
  forall lo hi,
    lo = JS.toInt32 lo -> hi = JS.toInt32 hi ->
    (length (filter (SquareSet.has (SquareSet.mk lo hi)) allSquares) <= fuel)%nat ->
    reversed_iterate fuel lo hi
    = rev (filter (SquareSet.has (SquareSet.mk lo hi)) allSquares).
Proof.
  induction fuel as [|fuel IH]; intros lo hi Hlo Hhi Hlen.
  - cbn [reversed_iterate].
    destruct (filter (SquareSet.has (SquareSet.mk lo hi)) allSquares);
      [reflexivity | cbn [length] in Hlen; lia].
  - cbn [reversed_iterate]. unfold JS.truthy.
    destruct (Z.eqb_spec hi 0) as [Eh | Nh]; cbn [negb].
    + destruct (Z.eqb_spec lo 0) as [El | Nl]; cbn [negb].
      * subst lo hi. rewrite filter_none; [reflexivity|]. intros i Hi.
        apply has_mk_zero. apply allSquares_In. exact Hi.
      * destruct (highest_bit lo Hlo Nl) as (Hidx & Hb & Hmax).
        set (idx := 31 - JS.clz32 lo) in *. clearbody idx.
        assert (E : filter (SquareSet.has (SquareSet.mk lo hi)) allSquares
                    = filter (SquareSet.has
                                (SquareSet.mk (JS.xor lo (JS.shl 1 idx)) hi))
                        allSquares ++ [idx]).
        { unfold allSquares. apply filter_pop_max.
          - lia.
          - rewrite has_testbit by lia. cbn [SquareSet.lo].
            destruct (Z.leb_spec 32 idx); [lia | exact Hb].
          - intros i Hi. rewrite has_testbit by lia.
            cbn [SquareSet.lo SquareSet.hi]. destruct (Z.leb_spec 32 i).
            + rewrite Eh. apply Z.bits_0.
            + apply Hmax. lia.
          - intros i Hi. apply has_mk_xor_lo; try assumption; try lia. }
        rewrite E, rev_unit. f_equal. apply IH; [apply xor_int32 | assumption |].
        rewrite E, length_app in Hlen. cbn [length] in Hlen. lia.
    + destruct (highest_bit hi Hhi Nh) as (Hidx & Hb & Hmax).
      set (idx := 31 - JS.clz32 hi) in *. clearbody idx.
      assert (E : filter (SquareSet.has (SquareSet.mk lo hi)) allSquares
                  = filter (SquareSet.has
                              (SquareSet.mk lo (JS.xor hi (JS.shl 1 idx))))
                      allSquares ++ [32 + idx]).
      { unfold allSquares. apply filter_pop_max.
        - lia.
        - rewrite has_testbit by lia. cbn [SquareSet.hi].
          destruct (Z.leb_spec 32 (32 + idx)); [|lia].
          replace (32 + idx - 32) with idx by lia. exact Hb.
        - intros i Hi. rewrite has_testbit by lia.
          cbn [SquareSet.lo SquareSet.hi]. destruct (Z.leb_spec 32 i); [|lia].
          apply Hmax. lia.
        - intros i Hi. apply has_mk_xor_hi; try assumption; try lia. }
      rewrite E, rev_unit. f_equal. apply IH; [assumption | apply xor_int32 |].
      rewrite E, length_app in Hlen. cbn [length] in Hlen. lia.
Qed.

Lemma members_length_le s :
  (length (filter (SquareSet.has s) allSquares) <= 64)%nat.
Proof.
  etransitivity; [apply filter_length_le|]. reflexivity.
Qed.

Lemma squares_filter s :
  SquareSet.wf s = true ->
  SquareSet.squares s = filter (SquareSet.has s) allSquares.
Proof.
  intros Hwf. apply wf_halves in Hwf as [Hl Hh].
  unfold SquareSet.squares. destruct s as [lo hi].
  cbn [SquareSet.lo SquareSet.hi] in *.
  apply iterate_filter; try assumption. apply members_length_le.
Qed.

Lemma reversed_filter s :
  SquareSet.wf s = true ->
  reversed s = rev (filter (SquareSet.has s) allSquares).
Proof.
  intros Hwf. apply wf_halves in Hwf as [Hl Hh].
  unfold reversed. destruct s as [lo hi].
  cbn [SquareSet.lo SquareSet.hi] in *.
  apply reversed_iterate_filter; try assumption. apply members_length_le.
Qed.

(** Iterating over a set yields its members, each once, in ascending
    order of square; [reversed] yields them in descending order.  Neither
    is cut short by the 64 calls of [next] the model allows. *)
Theorem iteration_order (s : SquareSet.t) :
  SquareSet.wf s = true ->
  SquareSet.squares s = filter (SquareSet.has s) allSquares
  /\ reversed s = rev (filter (SquareSet.has s) allSquares).
Proof.
  intros Hwf. split; [apply squares_filter | apply reversed_filter]; exact Hwf.
Qed.

Lemma iteration_order_center :
  SquareSet.squares SquareSet.center
  = filter (SquareSet.has SquareSet.center) allSquares
  /\ reversed SquareSet.center
     = rev (filter (SquareSet.has SquareSet.center) allSquares).
Proof. apply (iteration_order SquareSet.center). reflexivity. Defined.

Lemma first_least s :
  SquareSet.wf s = true ->
  match SquareSet.first s with
  | Some k => 0 <= k < 64 /\ SquareSet.has s k = true
              /\ forall i, 0 <= i < k -> SquareSet.has s i = false
  | None => s = SquareSet.empty
  end.
Proof.
  intros Hwf. apply wf_halves in Hwf as [Hl Hh].
  destruct s as [lo hi]. cbn [SquareSet.lo SquareSet.hi] in *.
  unfold SquareSet.first. cbn [SquareSet.lo SquareSet.hi].
  destruct (Z.eqb_spec lo 0) as [El | Nl]; cbn [negb].
  + destruct (Z.eqb_spec hi 0) as [Eh | Nh]; cbn [negb].
    * subst. reflexivity.
    * destruct (lowest_bit hi Hh Nh) as [Hidx Hb].
      pose proof (lowest_bit_least hi Hh Nh) as Hmin.
      set (idx := 31 - JS.clz32 (JS.and hi (- hi))) in *.
      replace (63 - JS.clz32 (JS.and hi (- hi))) with (32 + idx)
        by (unfold idx; lia).
      clearbody idx. split; [lia|]. split.
      -- rewrite has_testbit by lia. cbn [SquareSet.hi].
         destruct (Z.leb_spec 32 (32 + idx)); [|lia].
         replace (32 + idx - 32) with idx by lia. exact Hb.
      -- intros i Hi. rewrite has_testbit by lia.
         cbn [SquareSet.lo SquareSet.hi]. destruct (Z.leb_spec 32 i).
         ++ apply Hmin. lia.
         ++ rewrite El. apply Z.bits_0.
  + destruct (lowest_bit lo Hl Nl) as [Hidx Hb].
    pose proof (lowest_bit_least lo Hl Nl) as Hmin.
    set (idx := 31 - JS.clz32 (JS.and lo (- lo))) in *. clearbody idx.
    split; [lia|]. split.
    * rewrite has_testbit by lia. cbn [SquareSet.lo].
      destruct (Z.leb_spec 32 idx); [lia | exact Hb].
    * intros i Hi. rewrite has_testbit by lia.
      cbn [SquareSet.lo SquareSet.hi]. destruct (Z.leb_spec 32 i); [lia|].
      apply Hmin. lia.
Qed.

Lemma last_greatest s :
  SquareSet.wf s = true ->
  match SquareSet.last s with
  | Some k => 0 <= k < 64 /\ SquareSet.has s k = true
              /\ forall i, k < i < 64 -> SquareSet.has s i = false
  | None => s = SquareSet.empty
  end.
Proof.
  intros Hwf. apply wf_halves in Hwf as [Hl Hh].
  destruct s as [lo hi]. cbn [SquareSet.lo SquareSet.hi] in *.
  unfold SquareSet.last. cbn [SquareSet.lo SquareSet.hi].
  destruct (Z.eqb_spec hi 0) as [Eh | Nh]; cbn [negb].
  + destruct (Z.eqb_spec lo 0) as [El | Nl]; cbn [negb].
    * subst. reflexivity.
    * destruct (highest_bit lo Hl Nl) as (Hidx & Hb & Hmax).
      set (idx := 31 - JS.clz32 lo) in *. clearbody idx.
      split; [lia|]. split.
      -- rewrite has_testbit by lia. cbn [SquareSet.lo].
         destruct (Z.leb_spec 32 idx); [lia | exact Hb].
      -- intros i Hi. rewrite has_testbit by lia.
         cbn [SquareSet.lo SquareSet.hi]. destruct (Z.leb_spec 32 i).
         ++ rewrite Eh. apply Z.bits_0.
         ++ apply Hmax. lia.
  + destruct (highest_bit hi Hh Nh) as (Hidx & Hb & Hmax).
    set (idx := 31 - JS.clz32 hi) in *.
    replace (63 - JS.clz32 hi) with (32 + idx) by (unfold idx; lia).
    clearbody idx. split; [lia|]. split.
    * rewrite has_testbit by lia. cbn [SquareSet.hi].
      destruct (Z.leb_spec 32 (32 + idx)); [|lia].
      replace (32 + idx - 32) with idx by lia. exact Hb.
    * intros i Hi. rewrite has_testbit by lia.
      cbn [SquareSet.lo SquareSet.hi]. destruct (Z.leb_spec 32 i); [|lia].
      apply Hmax. lia.
Qed.

(** [first] is the least member and [last] the greatest; both are
    [undefined] exactly on a set without members. *)
Theorem first_last_extremal (s : SquareSet.t) :
  SquareSet.wf s = true ->
  match SquareSet.first s with
  | Some k => 0 <= k < 64 /\ SquareSet.has s k = true
              /\ forall i, 0 <= i < k -> SquareSet.has s i = false
  | None => s = SquareSet.empty
  end
  /\ match SquareSet.last s with
     | Some k => 0 <= k < 64 /\ SquareSet.has s k = true
                 /\ forall i, k < i < 64 -> SquareSet.has s i = false
     | None => s = SquareSet.empty
     end.
Proof.
  intros Hwf. split; [apply first_least | apply last_greatest]; exact Hwf.
Qed.

Lemma first_last_extremal_center :
  match SquareSet.first SquareSet.center with
  | Some k => 0 <= k < 64 /\ SquareSet.has SquareSet.center k = true
              /\ forall i, 0 <= i < k -> SquareSet.has SquareSet.center i = false
  | None => SquareSet.center = SquareSet.empty
  end
  /\ match SquareSet.last SquareSet.center with
     | Some k => 0 <= k < 64 /\ SquareSet.has SquareSet.center k = true
                 /\ forall i, k < i < 64 -> SquareSet.has SquareSet.center i = false
     | None => SquareSet.center = SquareSet.empty
     end.
Proof. apply (first_last_extremal SquareSet.center). reflexivity. Defined.

(* ===================================================================== *)
(** ** Sets of one square *)
(* ===================================================================== *)

Lemma moreThanOne_fromSquare k :
  0 <= k < 64 -> SquareSet.moreThanOne (SquareSet.fromSquare k) = false.
Proof.
  intros Hk. pattern k. apply square_cases; [|exact Hk].
  intros n Hn. do 64 (destruct n as [|n]; [vm_compute; reflexivity|]). lia.
Qed.

Lemma nonEmpty_fromSquare k :
  0 <= k < 64 -> SquareSet.nonEmpty (SquareSet.fromSquare k) = true.
Proof.
  intros Hk. apply (has_nonEmpty _ k Hk). rewrite has_fromSquare by assumption.
  apply Z.eqb_refl.
Qed.

Lemma last_nonEmpty s :
  SquareSet.nonEmpty s = true -> exists k, SquareSet.last s = Some k.
Proof.
  unfold SquareSet.nonEmpty, SquareSet.last. intros H.
  destruct (negb (SquareSet.hi s =? 0)); [eexists; reflexivity|].
  destruct (negb (SquareSet.lo s =? 0)); [eexists; reflexivity | discriminate H].
Qed.

Lemma isSingleSquare_inv s :
  SquareSet.wf s = true -> SquareSet.isSingleSquare s = true ->
  exists k, 0 <= k < 64 /\ s = SquareSet.fromSquare k.
Proof.
  intros Hwf H. unfold SquareSet.isSingleSquare in H.
  apply andb_true_iff in H as [Hne Hm]. apply negb_true_iff in Hm.
  destruct (last_nonEmpty s Hne) as [k Hk]. exists k.
  apply singleSquare_inv; [exact Hwf|]. unfold SquareSet.singleSquare.
  rewrite Hm. exact Hk.
Qed.

Lemma only_member_fromSquare s a :
  SquareSet.wf s = true -> 0 <= a < 64 ->
  (forall i, 0 <= i < 64 -> SquareSet.has s i = (i =? a)) ->
  s = SquareSet.fromSquare a.
Proof.
  intros Hwf Ha H. apply SquareSet_ext; [exact Hwf | apply wf_fromSquare |].
  intros i Hi. rewrite has_fromSquare by assumption. apply H. exact Hi.
Qed.

Lemma moreThanOne_two_members s :
  SquareSet.wf s = true ->
  (SquareSet.moreThanOne s = true
   <-> exists a b, 0 <= a /\ a < b /\ b < 64
                   /\ SquareSet.has s a = true /\ SquareSet.has s b = true).
Proof.
  intros Hwf. split.
  - intros Hm. pose proof (first_least s Hwf) as Hf.
    pose proof (last_greatest s Hwf) as Hl.
    destruct (SquareSet.first s) as [a|].
    2:{ subst s. discriminate Hm. }
    destruct (SquareSet.last s) as [b|].
    2:{ subst s. discriminate Hm. }
    destruct Hf as (Ha & Hha & Hmin). destruct Hl as (Hb & Hhb & Hmax).
    assert (Hab : a <= b).
    { destruct (Z.le_gt_cases a b) as [|Hgt]; [assumption|].
      rewrite (Hmin b) in Hhb by lia. discriminate Hhb. }
    destruct (Z.eq_dec a b) as [E | Hne].
    + exfalso. subst b.
      assert (Es : s = SquareSet.fromSquare a).
      { apply only_member_fromSquare; try assumption. intros i Hi.
        destruct (Z.eqb_spec i a) as [-> | Hia]; [exact Hha|].
        destruct (Z.lt_ge_cases i a); [apply Hmin | apply Hmax]; lia. }
      rewrite Es, moreThanOne_fromSquare in Hm by assumption. discriminate Hm.
    + exists a, b. repeat (split; [lia|]). split; assumption.
  - intros (a & b & Ha & Hab & Hb & Hha & Hhb).
    destruct (SquareSet.moreThanOne s) eqn:Hm; [reflexivity | exfalso].
    assert (Hs : SquareSet.isSingleSquare s = true).
    { unfold SquareSet.isSingleSquare. rewrite Hm.
      rewrite (has_nonEmpty s a) by (try assumption; lia). reflexivity. }
    destruct (isSingleSquare_inv s Hwf Hs) as (k & Hk & ->).
    rewrite has_fromSquare in Hha, Hhb by lia.
    apply Z.eqb_eq in Hha, Hhb. lia.
Qed.

(** [singleSquare] returns [k] exactly on the set whose only member is
    [k]; [isSingleSquare] holds exactly on the one-square sets; and
    [moreThanOne] holds exactly when the set has two different members. *)
Theorem single_square_characterised (s : SquareSet.t) :
  SquareSet.wf s = true ->
  (forall k, SquareSet.singleSquare s = Some k
             <-> 0 <= k < 64 /\ s = SquareSet.fromSquare k)
  /\ (SquareSet.isSingleSquare s = true
      <-> exists k, 0 <= k < 64 /\ s = SquareSet.fromSquare k)
  /\ (SquareSet.moreThanOne s = true
      <-> exists a b, 0 <= a /\ a < b /\ b < 64
                      /\ SquareSet.has s a = true /\ SquareSet.has s b = true).
Proof.
  intros Hwf. split; [|split].
  - intros k. split; [apply singleSquare_inv; exact Hwf|].
    intros [Hk ->]. apply singleSquare_fromSquare. exact Hk.
  - split; [apply isSingleSquare_inv; exact Hwf|].
    intros (k & Hk & ->). unfold SquareSet.isSingleSquare.
    rewrite nonEmpty_fromSquare, moreThanOne_fromSquare by assumption. reflexivity.
  - apply moreThanOne_two_members. exact Hwf.
Qed.

Lemma single_square_characterised_corners :
  (forall k, SquareSet.singleSquare SquareSet.corners = Some k
             <-> 0 <= k < 64 /\ SquareSet.corners = SquareSet.fromSquare k)
  /\ (SquareSet.isSingleSquare SquareSet.corners = true
      <-> exists k, 0 <= k < 64 /\ SquareSet.corners = SquareSet.fromSquare k)
  /\ (SquareSet.moreThanOne SquareSet.corners = true
      <-> exists a b, 0 <= a /\ a < b /\ b < 64
                      /\ SquareSet.has SquareSet.corners a = true
                      /\ SquareSet.has SquareSet.corners b = true).
Proof. apply (single_square_characterised SquareSet.corners). reflexivity. Defined.

(* ===================================================================== *)
(** ** The step tables of attacks.ts *)
(* ===================================================================== *)

Lemma tableAgrees_spec table step :
  tableAgrees table step = true ->
  forall a, 0 <= a < 64 ->
    attacksAre (index table a) (step a).
Proof.
  intros H a Ha. unfold tableAgrees in H. rewrite forallb_forall in H.
  specialize (H a (proj2 (allSquares_In a) Ha)).
  destruct (index table a) as [t|]; [|discriminate H].
  apply andb_true_iff in H as [Hwf H].
  exists t. split; [reflexivity|]. split; [exact Hwf|]. intros b Hb.
  rewrite forallb_forall in H. specialize (H b (proj2 (allSquares_In b) Hb)).
  apply eqb_prop in H. exact H.
Qed.

Lemma index_outside {T} (table : BySquare T) sq :
  length table = 64%nat -> ~ 0 <= sq < 64 -> index table sq = None.
Proof.
  intros Hlen Hsq. unfold index. destruct (Z.ltb_spec sq 0); [reflexivity|].
  apply nth_error_None. lia.
Qed.

Lemma kingAttacks_geometry a :
  0 <= a < 64 -> attacksAre (kingAttacks a) (kingStep a).
Proof.
  apply (tableAgrees_spec KING_ATTACKS kingStep). vm_compute. reflexivity.
Qed.

Lemma queenAttacks_geometry a :
  0 <= a < 64 -> attacksAre (queenAttacks a) (diagonalStep a).
Proof.
  apply (tableAgrees_spec QUEEN_ATTACKS diagonalStep). vm_compute. reflexivity.
Qed.

Lemma knightAttacks_geometry a :
  0 <= a < 64 -> attacksAre (knightAttacks a) (knightStep a).
Proof.
  apply (tableAgrees_spec KNIGHT_ATTACKS knightStep). vm_compute. reflexivity.
Qed.

Lemma bishopAttacks_geometry c a :
  0 <= a < 64 ->
  attacksAre (bishopAttacks c a) (fun b => diagonalStep a b || forwardStep c a b).
Proof.
  apply (tableAgrees_spec (BISHOP_ATTACKS c)
           (fun a b => diagonalStep a b || forwardStep c a b)).
  destruct c; vm_compute; reflexivity.
Qed.

Lemma pawnAttacks_geometry c a :
  0 <= a < 64 -> attacksAre (pawnAttacks c a) (forwardDiagonalStep c a).
Proof.
  apply (tableAgrees_spec (PAWN_ATTACKS c) (forwardDiagonalStep c)).
  destruct c; vm_compute; reflexivity.
Qed.

(** On the board every step table is defined and holds the squares one
    step away: the king's eight neighbours, the four diagonal neighbours
    for the queen and the promoted pawn, the knight's jumps, the diagonal
    neighbours and the square straight ahead for the bishop, and the two
    squares diagonally ahead for the pawn.  No table wraps around the
    edge of the board. *)
Theorem step_tables_geometry (a : Square) :
  0 <= a < 64 ->
  attacksAre (kingAttacks a) (kingStep a)
  /\ attacksAre (queenAttacks a) (diagonalStep a)
  /\ attacksAre (knightAttacks a) (knightStep a)
  /\ (forall c, attacksAre (bishopAttacks c a)
                  (fun b => diagonalStep a b || forwardStep c a b))
  /\ (forall c, attacksAre (pawnAttacks c a) (forwardDiagonalStep c a)).
Proof.
  intros Ha. split; [|split; [|split; [|split]]].
  - apply kingAttacks_geometry. exact Ha.
  - apply queenAttacks_geometry. exact Ha.
  - apply knightAttacks_geometry. exact Ha.
  - intros c. apply bishopAttacks_geometry. exact Ha.
  - intros c. apply pawnAttacks_geometry. exact Ha.
Qed.

Lemma step_tables_geometry_d4 :
  attacksAre (kingAttacks 27) (kingStep 27)
  /\ attacksAre (queenAttacks 27) (diagonalStep 27)
  /\ attacksAre (knightAttacks 27) (knightStep 27)
  /\ (forall c, attacksAre (bishopAttacks c 27)
                  (fun b => diagonalStep 27 b || forwardStep c 27 b))
  /\ (forall c, attacksAre (pawnAttacks c 27) (forwardDiagonalStep c 27)).
Proof. apply (step_tables_geometry 27). lia. Defined.

Lemma tables_off_board sq c :
  ~ 0 <= sq < 64 ->
  kingAttacks sq = None /\ queenAttacks sq = None /\ knightAttacks sq = None
  /\ bishopAttacks c sq = None /\ pawnAttacks c sq = None.
Proof.
  intros Hsq.
  unfold kingAttacks, queenAttacks, knightAttacks, bishopAttacks, pawnAttacks.
  repeat match goal with |- _ /\ _ => split end;
    apply index_outside; try exact Hsq; destruct c; reflexivity.
Qed.

(* ===================================================================== *)
(** ** Rook attacks slide until the first occupied square *)
(* ===================================================================== *)

Lemma testbit_fromBits l :
  forall k, 0 <= k -> Z.testbit (fromBits l) k = nth (Z.to_nat k) l false.
Proof.
  induction l as [|b l IH]; intros k Hk.
  - cbn [fromBits]. rewrite Z.bits_0. destruct (Z.to_nat k); reflexivity.
  - cbn [fromBits]. destruct (Z.eq_dec k 0) as [-> | Hnz].
    + rewrite Z.testbit_0_r. reflexivity.
    + replace k with (Z.succ (k - 1)) at 1 by lia.
      rewrite Z.testbit_succ_r by lia. rewrite IH by lia.
      replace (Z.to_nat k) with (S (Z.to_nat (k - 1))) by lia. reflexivity.
Qed.

Lemma nth_map_range (p : Square -> bool) (a n k : nat) :
  (k < n)%nat ->
  nth k (map p (map Z.of_nat (seq a n))) false = p (Z.of_nat (a + k)).
Proof.
  intros Hk. rewrite (nth_indep _ false (p (Z.of_nat 0)))
    by (rewrite !length_map, length_seq; exact Hk).
  rewrite map_nth. rewrite (map_nth Z.of_nat). rewrite seq_nth by exact Hk.
  reflexivity.
Qed.

Lemma has_setOfPred p m :
  0 <= m < 64 -> SquareSet.has (setOfPred p) m = p m.
Proof.
  intros Hm. unfold setOfPred. rewrite has_new by assumption.
  destruct (Z.leb_spec 32 m).
  - rewrite testbit_fromBits by lia. rewrite nth_map_range by lia.
    f_equal. lia.
  - rewrite testbit_fromBits by lia. rewrite nth_map_range by lia.
    f_equal. lia.
Qed.

Lemma allBools_complete (l : list bool) : In l (allBools (length l)).
Proof.
  induction l as [|b l IH]; [left; reflexivity|].
  cbn [length allBools]. apply in_or_app.
  destruct b; [right | left]; apply in_map; exact IH.
Qed.

Lemma lookupBit_map (f : Square -> bool) (L : list Square) m :
  lookupBit L (map f L) m = existsb (Z.eqb m) L && f m.
Proof.
  induction L as [|x L IH]; cbn [map lookupBit existsb]; [reflexivity|].
  rewrite (Z.eqb_sym m x).
  destruct (Z.eqb_spec x m) as [-> | Hne]; [reflexivity | exact IH].
Qed.

Lemma existsb_members range m :
  0 <= m < 64 ->
  existsb (Z.eqb m) (filter (SquareSet.has range) allSquares) = SquareSet.has range m.
Proof.
  intros Hm. destruct (SquareSet.has range m) eqn:E.
  - apply existsb_exists. exists m. split; [|apply Z.eqb_refl].
    apply filter_In. split; [apply allSquares_In; exact Hm | exact E].
  - apply not_true_is_false. intros H. apply existsb_exists in H as (x & Hx & Ex).
    apply Z.eqb_eq in Ex. subst x. apply filter_In in Hx as [_ Hx]. congruence.
Qed.

Lemma checkLine_spec attack table step :
  checkLine attack table step = true ->
  (forall a range occ occ',
      index table a = Some range ->
      SquareSet.intersect occ range = SquareSet.intersect occ' range ->
      attack a occ = attack a occ') ->
  (forall a range f g b,
      index table a = Some range ->
      (forall m, 0 <= m < 64 -> SquareSet.has range m = true -> f m = g m) ->
      step f a b = step g a b) ->
  forall a occ, 0 <= a < 64 ->
    exists r, attack a occ = Ret r /\ SquareSet.wf r = true
              /\ forall b, 0 <= b < 64 ->
                   SquareSet.has r b = step (SquareSet.has occ) a b.
Proof.
  intros Hchk Hcongr Hlocal a occ Ha.
  unfold checkLine in Hchk. rewrite forallb_forall in Hchk.
  specialize (Hchk a (proj2 (allSquares_In a) Ha)).
  destruct (index table a) as [range|] eqn:Er; [|discriminate Hchk].
  cbv zeta in Hchk. rewrite forallb_forall in Hchk.
  set (L := filter (SquareSet.has range) allSquares) in *.
  assert (HL : forall x, In x L -> 0 <= x < 64).
  { intros x Hx. apply filter_In in Hx as [Hx _]. apply allSquares_In. exact Hx. }
  specialize (Hchk (map (SquareSet.has occ) L)).
  rewrite <- (length_map (SquareSet.has occ) L) in Hchk at 1.
  specialize (Hchk (allBools_complete _)).
  assert (Hocc : SquareSet.intersect occ range
                 = SquareSet.intersect
                     (setOfPred (lookupBit L (map (SquareSet.has occ) L))) range).
  { apply SquareSet_ext; try apply wf_new. intros m Hm.
    rewrite !has_intersect by assumption.
    rewrite has_setOfPred, lookupBit_map by assumption.
    unfold L. rewrite existsb_members by assumption.
    destruct (SquareSet.has range m); [reflexivity | rewrite !andb_false_r; reflexivity]. }
  rewrite (Hcongr a range occ _ Er Hocc).
  destruct (attack a (setOfPred (lookupBit L (map (SquareSet.has occ) L)))) as [r|];
    [|discriminate Hchk].
  apply equals_eq in Hchk. exists r. split; [reflexivity|]. split.
  - rewrite Hchk. apply wf_new.
  - intros b Hb. rewrite Hchk, has_setOfPred by assumption.
    apply (Hlocal a range _ _ b Er). intros m Hm Hr.
    rewrite lookupBit_map. unfold L. rewrite existsb_members by assumption.
    rewrite Hr. reflexivity.
Qed.

Lemma forallb_ext_in {A : Type} (f g : A -> bool) (l : list A) :
  (forall x, In x l -> f x = g x) -> forallb f l = forallb g l.
Proof.
  induction l as [|x l IH]; intros H; [reflexivity|]. cbn [forallb].
  rewrite (H x (or_introl eq_refl)). f_equal. apply IH.
  intros y Hy. apply H. right. exact Hy.
Qed.

(** *** The mask-based computations equal the embedding *)

Lemma Fast_toInt32 x : JS.toInt32 x = Fast.toInt32 x.
Proof.
  unfold JS.toInt32, Fast.toInt32. change 4294967295 with (Z.ones 32).
  rewrite Z.land_ones by lia. reflexivity.
Qed.

Lemma Fast_toUint32 x : JS.toUint32 x = Fast.toUint32 x.
Proof.
  unfold JS.toUint32, Fast.toUint32. change 4294967295 with (Z.ones 32).
  rewrite Z.land_ones by lia. reflexivity.
Qed.

Lemma mod32_land n : n mod 32 = Z.land n 31.
Proof. change 31 with (Z.ones 5). rewrite Z.land_ones by lia. reflexivity. Qed.

Lemma Fast_and a b : JS.and a b = Fast.and a b.
Proof. unfold JS.and, Fast.and. rewrite !Fast_toInt32. reflexivity. Qed.

Lemma Fast_or a b : JS.or a b = Fast.or a b.
Proof. unfold JS.or, Fast.or. rewrite !Fast_toInt32. reflexivity. Qed.

Lemma Fast_xor a b : JS.xor a b = Fast.xor a b.
Proof. unfold JS.xor, Fast.xor. rewrite !Fast_toInt32. reflexivity. Qed.

Lemma Fast_shl a n : JS.shl a n = Fast.shl a n.
Proof. unfold JS.shl, Fast.shl. rewrite !Fast_toInt32, mod32_land. reflexivity. Qed.

Lemma Fast_ushr a n : JS.ushr a n = Fast.ushr a n.
Proof. unfold JS.ushr, Fast.ushr. rewrite Fast_toUint32, mod32_land. reflexivity. Qed.

Ltac fast_ops :=
  cbv zeta; rewrite ?Fast_and, ?Fast_or, ?Fast_xor, ?Fast_shl, ?Fast_ushr.

Lemma Fast_bswap32 n : bswap32 n = Fast.bswap32 n.
Proof. unfold bswap32, Fast.bswap32. fast_ops. reflexivity. Qed.

Lemma Fast_rbit32 n : rbit32 n = Fast.rbit32 n.
Proof. unfold rbit32, Fast.rbit32. fast_ops. reflexivity. Qed.

Lemma Fast_new lo hi : SquareSet.new lo hi = Fast.new lo hi.
Proof. unfold SquareSet.new, Fast.new. rewrite !Fast_toInt32. reflexivity. Qed.

Lemma Fast_fromSquare sq : SquareSet.fromSquare sq = Fast.fromSquare sq.
Proof.
  unfold SquareSet.fromSquare, Fast.fromSquare.
  rewrite !Fast_new, !Fast_shl. reflexivity.
Qed.

Lemma Fast_intersect s t : SquareSet.intersect s t = Fast.intersect s t.
Proof.
  unfold SquareSet.intersect, Fast.intersect. rewrite Fast_new, !Fast_and. reflexivity.
Qed.

Lemma Fast_setXor s t : SquareSet.xor s t = Fast.setXor s t.
Proof. unfold SquareSet.xor, Fast.setXor. rewrite Fast_new, !Fast_xor. reflexivity. Qed.

Lemma Fast_bswap64 s : SquareSet.bswap64 s = Fast.bswap64 s.
Proof.
  unfold SquareSet.bswap64, Fast.bswap64. rewrite Fast_new, !Fast_bswap32. reflexivity.
Qed.

Lemma Fast_rbit64 s : SquareSet.rbit64 s = Fast.rbit64 s.
Proof.
  unfold SquareSet.rbit64, Fast.rbit64. rewrite Fast_new, !Fast_rbit32. reflexivity.
Qed.

Lemma Fast_minus64 s t : SquareSet.minus64 s t = Fast.minus64 s t.
Proof.
  unfold SquareSet.minus64, Fast.minus64. cbv zeta.
  rewrite Fast_new, !Fast_ushr, !Fast_and. reflexivity.
Qed.

Lemma Fast_hyperbola bit range occ : hyperbola bit range occ = Fast.hyperbola bit range occ.
Proof.
  unfold hyperbola, Fast.hyperbola. cbv zeta.
  rewrite !Fast_intersect, !Fast_bswap64, !Fast_minus64, !Fast_setXor,
    ?Fast_intersect, ?Fast_bswap64.
  reflexivity.
Qed.

Lemma Fast_fileAttacks a occ : fileAttacks a occ = Fast.fileAttacks a occ.
Proof.
  unfold fileAttacks, Fast.fileAttacks.
  destruct (index FILE_RANGE a); cbn [deref bind]; [|reflexivity].
  rewrite Fast_hyperbola, Fast_fromSquare. reflexivity.
Qed.

Lemma Fast_rankAttacks a occ : rankAttacks a occ = Fast.rankAttacks a occ.
Proof.
  unfold rankAttacks, Fast.rankAttacks.
  destruct (index RANK_RANGE a); cbn [deref bind]; [|reflexivity].
  cbv zeta.
  rewrite !Fast_intersect, !Fast_rbit64, !Fast_minus64, !Fast_setXor,
    ?Fast_intersect, ?Fast_rbit64, !Fast_fromSquare.
  reflexivity.
Qed.

Lemma checkLine_ext attack attack' table step :
  (forall a occ, attack a occ = attack' a occ) ->
  checkLine attack table step = checkLine attack' table step.
Proof.
  intros H. unfold checkLine. apply forallb_ext_in. intros a _.
  destruct (index table a); [|reflexivity]. cbv zeta.
  apply forallb_ext_in. intros bits _. rewrite H. reflexivity.
Qed.

Lemma fileAttacks_congr a range occ occ' :
  index FILE_RANGE a = Some range ->
  SquareSet.intersect occ range = SquareSet.intersect occ' range ->
  fileAttacks a occ = fileAttacks a occ'.
Proof.
  intros Er E. unfold fileAttacks. rewrite Er. cbn [deref bind].
  unfold hyperbola. cbv zeta. rewrite E. reflexivity.
Qed.

Lemma rankAttacks_congr a range occ occ' :
  index RANK_RANGE a = Some range ->
  SquareSet.intersect occ range = SquareSet.intersect occ' range ->
  rankAttacks a occ = rankAttacks a occ'.
Proof.
  intros Er E. unfold rankAttacks. rewrite Er. cbn [deref bind].
  cbv zeta. rewrite E. reflexivity.
Qed.

Lemma FILE_RANGE_geometry a :
  0 <= a < 64 ->
  attacksAre (index FILE_RANGE a) (fun m => sameFile a m && negb (m =? a)).
Proof.
  apply (tableAgrees_spec FILE_RANGE (fun a m => sameFile a m && negb (m =? a))).
  vm_compute. reflexivity.
Qed.

Lemma RANK_RANGE_geometry a :
  0 <= a < 64 ->
  attacksAre (index RANK_RANGE a) (fun m => sameRank a m && negb (m =? a)).
Proof.
  apply (tableAgrees_spec RANK_RANGE (fun a m => sameRank a m && negb (m =? a))).
  vm_compute. reflexivity.
Qed.

Lemma numBetween_neq a m b : numBetween a m b = true -> m <> a.
Proof.
  unfold numBetween. intros H E. subst m.
  rewrite Z.ltb_irrefl, andb_false_r in H. cbn [andb orb] in H. discriminate H.
Qed.

Lemma lineStep_local (same : Square -> Square -> bool) (f g : Square -> bool) a b :
  (forall m, 0 <= m < 64 -> same a m && negb (m =? a) = true -> f m = g m) ->
  lineStep same f a b = lineStep same g a b.
Proof.
  intros H. unfold lineStep, pathClear.
  destruct (a =? b); [reflexivity|]. destruct (same a b); [|reflexivity].
  apply forallb_ext_in. intros m Hm. apply allSquares_In in Hm.
  destruct (numBetween a m b) eqn:Eb; [|reflexivity].
  destruct (same a m) eqn:Es; [|reflexivity]. cbn [andb].
  rewrite (H m Hm); [reflexivity|]. rewrite Es. cbn [andb].
  apply numBetween_neq in Eb. destruct (Z.eqb_spec m a); [contradiction | reflexivity].
Qed.

Lemma fileAttacks_slides a occ :
  0 <= a < 64 ->
  exists r, fileAttacks a occ = Ret r /\ SquareSet.wf r = true
            /\ forall b, 0 <= b < 64 ->
                 SquareSet.has r b = lineStep sameFile (SquareSet.has occ) a b.
Proof.
  intros Ha.
  apply (checkLine_spec fileAttacks FILE_RANGE (lineStep sameFile)); try exact Ha.
  - rewrite (checkLine_ext fileAttacks Fast.fileAttacks) by apply Fast_fileAttacks.
    vm_compute. reflexivity.
  - apply fileAttacks_congr.
  - intros a0 range f g b Er H.
    destruct (Z_le_gt_dec 0 a0) as [H0 | H0];
      [destruct (Z_lt_ge_dec a0 64) as [H1 | H1]|].
    + destruct (FILE_RANGE_geometry a0 (conj H0 H1)) as (t & Et & _ & Ht).
      rewrite Er in Et. injection Et as <-.
      apply lineStep_local. intros m Hm Hs. apply H; [exact Hm|].
      rewrite Ht by exact Hm. exact Hs.
    + rewrite index_outside in Er by (try reflexivity; lia). discriminate Er.
    + rewrite index_outside in Er by (try reflexivity; lia). discriminate Er.
Qed.

Lemma rankAttacks_slides a occ :
  0 <= a < 64 ->
  exists r, rankAttacks a occ = Ret r /\ SquareSet.wf r = true
            /\ forall b, 0 <= b < 64 ->
                 SquareSet.has r b = lineStep sameRank (SquareSet.has occ) a b.
Proof.
  intros Ha.
  apply (checkLine_spec rankAttacks RANK_RANGE (lineStep sameRank)); try exact Ha.
  - rewrite (checkLine_ext rankAttacks Fast.rankAttacks) by apply Fast_rankAttacks.
    vm_compute. reflexivity.
  - apply rankAttacks_congr.
  - intros a0 range f g b Er H.
    destruct (Z_le_gt_dec 0 a0) as [H0 | H0];
      [destruct (Z_lt_ge_dec a0 64) as [H1 | H1]|].
    + destruct (RANK_RANGE_geometry a0 (conj H0 H1)) as (t & Et & _ & Ht).
      rewrite Er in Et. injection Et as <-.
      apply lineStep_local. intros m Hm Hs. apply H; [exact Hm|].
      rewrite Ht by exact Hm. exact Hs.
    + rewrite index_outside in Er by (try reflexivity; lia). discriminate Er.
    + rewrite index_outside in Er by (try reflexivity; lia). discriminate Er.
Qed.

Lemma same_file_rank a b : sameFile a b = true -> sameRank a b = true -> a = b.
Proof.
  unfold sameFile, sameRank. rewrite !Z.eqb_eq.
  change 7 with (Z.ones 3). rewrite !Z.land_ones, !Z.shiftr_div_pow2 by lia.
  change (2 ^ 3) with 8. intros Hf Hr.
  rewrite (Z.div_mod a 8), (Z.div_mod b 8) by lia. rewrite Hf, Hr. reflexivity.
Qed.

Lemma lineStep_exclusive f g a b :
  lineStep sameFile f a b && lineStep sameRank g a b = false.
Proof.
  unfold lineStep. destruct (Z.eqb_spec a b) as [E | Hne]; [reflexivity|].
  destruct (sameFile a b) eqn:Ef; [|reflexivity].
  destruct (sameRank a b) eqn:Er; [|apply andb_false_r].
  exfalso. apply Hne. apply same_file_rank; assumption.
Qed.

Lemma rookAttacks_slides_on_board a occ :
  0 <= a < 64 ->
  exists r, rookAttacks a occ = Ret r /\ SquareSet.wf r = true
            /\ forall b, 0 <= b < 64 ->
                 SquareSet.has r b = rookStep (SquareSet.has occ) a b.
Proof.
  intros Ha.
  destruct (fileAttacks_slides a occ Ha) as (f & Ef & _ & Hf).
  destruct (rankAttacks_slides a occ Ha) as (r & Er & _ & Hr).
  unfold rookAttacks. rewrite Ef, Er. cbn [bind].
  exists (SquareSet.xor f r). split; [reflexivity|]. split; [apply wf_new|].
  intros b Hb. rewrite has_xor, Hf, Hr by assumption. unfold rookStep.
  pose proof (lineStep_exclusive (SquareSet.has occ) (SquareSet.has occ) a b) as Hx.
  destruct (lineStep sameFile (SquareSet.has occ) a b),
           (lineStep sameRank (SquareSet.has occ) a b);
    try reflexivity; discriminate Hx.
Qed.

(** A rook on [a] attacks exactly the other squares of its file and of
    its rank that it reaches before passing an occupied square: the first
    occupied square in each direction is attacked, nothing behind it is.
    Whether [a] itself is occupied makes no difference. *)
Theorem rookAttacks_slides (a : Square) (occupied : SquareSet.t) :
  0 <= a < 64 ->
  exists r, rookAttacks a occupied = Ret r /\ SquareSet.wf r = true
            /\ forall b, 0 <= b < 64 ->
                 SquareSet.has r b = rookStep (SquareSet.has occupied) a b.
Proof. apply rookAttacks_slides_on_board. Qed.

Lemma rookAttacks_slides_d4 :
  exists r, rookAttacks 27 SquareSet.corners = Ret r /\ SquareSet.wf r = true
            /\ forall b, 0 <= b < 64 ->
                 SquareSet.has r b = rookStep (SquareSet.has SquareSet.corners) 27 b.
Proof. apply (rookAttacks_slides 27 SquareSet.corners). lia. Defined.

(* ===================================================================== *)
(** ** Rays, and lookups off the board *)
(* ===================================================================== *)

Lemma intersects_fromSquare s b :
  0 <= b < 64 ->
  SquareSet.intersects s (SquareSet.fromSquare b) = SquareSet.has s b.
Proof.
  intros Hb. unfold SquareSet.intersects. destruct (SquareSet.has s b) eqn:E.
  - apply (has_nonEmpty _ b Hb). rewrite has_intersect, has_fromSquare by assumption.
    rewrite E, Z.eqb_refl. reflexivity.
  - apply not_true_is_false. intros H.
    apply nonEmpty_has in H as (i & Hi & H); [|apply wf_new].
    rewrite has_intersect, has_fromSquare in H by assumption.
    apply andb_true_iff in H as [H1 H2]. apply Z.eqb_eq in H2. subst i. congruence.
Qed.

Lemma sameRank_refl a : sameRank a a = true.
Proof. apply Z.eqb_refl. Qed.

Lemma sameFile_refl a : sameFile a a = true.
Proof. apply Z.eqb_refl. Qed.

(** [ray a b] is the whole rank of [a] when [b] is another square of
    that rank, the whole file of [a] when [b] is another square of that
    file, and empty otherwise: for [a = b] and for squares that share
    only a diagonal. *)
Theorem ray_is_rank_or_file (a b : Square) :
  0 <= a < 64 -> 0 <= b < 64 ->
  exists r, ray a b = Ret r /\ SquareSet.wf r = true
            /\ forall m, 0 <= m < 64 -> SquareSet.has r m = rayStep a b m.
Proof.
  intros Ha Hb.
  destruct (RANK_RANGE_geometry a Ha) as (rank & Erank & Wrank & Hrank).
  destruct (FILE_RANGE_geometry a Ha) as (file & Efile & Wfile & Hfile).
  unfold ray, rayStep. rewrite Erank. cbn [deref bind].
  rewrite intersects_fromSquare, Hrank by assumption.
  rewrite (Z.eqb_sym b a).
  destruct (Z.eqb_spec a b) as [E | Hne].
  - subst b. rewrite andb_false_r. rewrite Efile. cbn [deref bind].
    rewrite intersects_fromSquare, Hfile by assumption.
    rewrite Z.eqb_refl, andb_false_r.
    exists SquareSet.empty. split; [reflexivity|]. split; [reflexivity|].
    intros m Hm. apply has_empty. exact Hm.
  - cbn [negb]. rewrite andb_true_r. destruct (sameRank a b) eqn:Er.
    + exists (SquareSet.with_ rank a). split; [reflexivity|].
      split; [apply wf_with|]. intros m Hm.
      rewrite has_with, Hrank by assumption.
      destruct (Z.eqb_spec m a) as [-> | _]; [rewrite sameRank_refl; reflexivity|].
      rewrite andb_true_r. reflexivity.
    + rewrite Efile. cbn [deref bind].
      rewrite intersects_fromSquare, Hfile by assumption.
      destruct (Z.eqb_spec b a) as [E | _]; [congruence|].
      cbn [negb]. rewrite andb_true_r. destruct (sameFile a b) eqn:Ef.
      * exists (SquareSet.with_ file a). split; [reflexivity|].
        split; [apply wf_with|]. intros m Hm.
        rewrite has_with, Hfile by assumption.
        destruct (Z.eqb_spec m a) as [-> | _]; [rewrite sameFile_refl; reflexivity|].
        rewrite andb_true_r. reflexivity.
      * exists SquareSet.empty. split; [reflexivity|]. split; [reflexivity|].
        intros m Hm. apply has_empty. exact Hm.
Qed.

Lemma ray_is_rank_or_file_a1_h8 :
  exists r, ray 0 63 = Ret r /\ SquareSet.wf r = true
            /\ forall m, 0 <= m < 64 -> SquareSet.has r m = rayStep 0 63 m.
Proof. apply (ray_is_rank_or_file 0 63); lia. Defined.

Lemma rookAttacks_off_board sq occ :
  ~ 0 <= sq < 64 -> rookAttacks sq occ = Throw TypeError.
Proof.
  intros Hsq. unfold rookAttacks, fileAttacks.
  rewrite index_outside by (try reflexivity; exact Hsq). reflexivity.
Qed.

(** With the square off the board no table has an entry: the step
    tables answer [undefined], [rookAttacks] and [ray] throw a
    [TypeError], and the attack dispatch throws for a rook and returns
    [undefined] for every other role. *)
Theorem lookups_off_board (sq b : Square) (c : Color) (occupied : SquareSet.t)
    (piece : Piece) :
  ~ 0 <= sq < 64 ->
  (kingAttacks sq = None /\ queenAttacks sq = None /\ knightAttacks sq = None
   /\ bishopAttacks c sq = None /\ pawnAttacks c sq = None)
  /\ rookAttacks sq occupied = Throw TypeError
  /\ ray sq b = Throw TypeError
  /\ attacks piece sq occupied
     = match role piece with
       | Some rook => Throw TypeError
       | _ => Ret None
       end.
Proof.
  intros Hsq. split; [apply tables_off_board; exact Hsq|].
  split; [apply rookAttacks_off_board; exact Hsq|]. split.
  - unfold ray. rewrite index_outside by (try reflexivity; exact Hsq). reflexivity.
  - unfold attacks.
    destruct (role piece) as [[]|]; try reflexivity;
      unfold pawnAttacks, knightAttacks, bishopAttacks, queenAttacks, kingAttacks;
      try (rewrite index_outside by (try exact Hsq; try reflexivity;
                                     destruct (color piece); reflexivity);
           reflexivity).
    rewrite rookAttacks_off_board by exact Hsq. reflexivity.
Qed.

Lemma lookups_off_board_64 :
  (kingAttacks 64 = None /\ queenAttacks 64 = None /\ knightAttacks 64 = None
   /\ bishopAttacks white 64 = None /\ pawnAttacks white 64 = None)
  /\ rookAttacks 64 SquareSet.empty = Throw TypeError
  /\ ray 64 0 = Throw TypeError
  /\ attacks (mkPiece (Some rook) white None) 64 SquareSet.empty
     = match role (mkPiece (Some rook) white None) with
       | Some rook => Throw TypeError
       | _ => Ret None
       end.
Proof.
  apply (lookups_off_board 64 0 white SquareSet.empty
           (mkPiece (Some rook) white None)). lia.
Defined.

(* ===================================================================== *)
(** ** Boards: other squares, equality, boards built by [set] *)
(* ===================================================================== *)

Local Opaque SquareSet.has SquareSet.without SquareSet.with_ SquareSet.wf.

(** [get] reads the colour sets and the role sets at the square only. *)
Lemma get_agree b1 b2 i :
  SquareSet.has (Board.white b1) i = SquareSet.has (Board.white b2) i ->
  SquareSet.has (Board.black b1) i = SquareSet.has (Board.black b2) i ->
  SquareSet.has (Board.pawn b1) i = SquareSet.has (Board.pawn b2) i ->
  option_map (fun s => SquareSet.has s i) (Board.promotedpawn b1)
  = option_map (fun s => SquareSet.has s i) (Board.promotedpawn b2) ->
  SquareSet.has (Board.knight b1) i = SquareSet.has (Board.knight b2) i ->
  SquareSet.has (Board.bishop b1) i = SquareSet.has (Board.bishop b2) i ->
  SquareSet.has (Board.rook b1) i = SquareSet.has (Board.rook b2) i ->
  SquareSet.has (Board.queen b1) i = SquareSet.has (Board.queen b2) i ->
  SquareSet.has (Board.king b1) i = SquareSet.has (Board.king b2) i ->
  Board.get b1 i = Board.get b2 i.
Proof.
  intros Hw Hbl Hp Hpp Hn Hbi Hr Hq Hk.
  unfold Board.get, Board.getColor, Board.getRole, ROLES.
  cbn [Board.getRole_from Board.byRole deref bind].
  rewrite Hw, Hbl, Hp, Hn, Hbi, Hr, Hq, Hk.
  destruct (Board.promotedpawn b1) as [p1|], (Board.promotedpawn b2) as [p2|];
    cbn [option_map] in Hpp; try discriminate Hpp; [|reflexivity].
  injection Hpp as Hpp. cbn [deref bind]. rewrite Hpp. reflexivity.
Qed.

Lemma take_frame b sq i :
  board_inv b = true -> 0 <= sq < 64 -> 0 <= i < 64 -> i <> sq ->
  exists old b',
    Board.take b sq = Ret (old, b')
    /\ Board.get b' i = Board.get b i /\ Board.has b' i = Board.has b i.
Proof.
  intros Hinv Hsq Hi Hne.
  destruct (take_mapSets b sq Hinv Hsq) as (old & _ & Htake).
  exists old, (Board_mapSets (fun s => SquareSet.without s sq) b).
  split; [exact Htake|].
  assert (Hw : forall s, SquareSet.has (SquareSet.without s sq) i = SquareSet.has s i).
  { intros s. rewrite has_without by assumption.
    destruct (Z.eqb_spec i sq); [contradiction | reflexivity]. }
  destruct b as [occ w bl p opp n bi rk q k]. split.
  - apply get_agree; board_fields; rewrite ?Hw; try reflexivity.
    destruct opp; cbn [option_map]; rewrite ?Hw; reflexivity.
  - unfold Board.has. board_fields. apply Hw.
Qed.

Lemma set_frame b sq i c r prm :
  board_inv b = true -> 0 <= sq < 64 -> 0 <= i < 64 -> i <> sq ->
  exists old b',
    Board.set b sq (mkPiece (Some r) c prm) = Ret (old, b')
    /\ Board.get b' i = Board.get b i /\ Board.has b' i = Board.has b i.
Proof.
  intros Hinv Hsq Hi Hne.
  destruct (take_mapSets b sq Hinv Hsq) as (old & _ & Htake).
  apply board_inv_local in Hinv as (pp & Hpp & _ & _).
  exists old. unfold Board.set. rewrite Htake. cbn [bind].
  assert (Hwo : forall s, SquareSet.has (SquareSet.without s sq) i = SquareSet.has s i).
  { intros s. rewrite has_without by assumption.
    destruct (Z.eqb_spec i sq); [contradiction | reflexivity]. }
  assert (Hwi : forall s, SquareSet.has (SquareSet.with_ s sq) i = SquareSet.has s i).
  { intros s. rewrite has_with by assumption.
    destruct (Z.eqb_spec i sq); [contradiction | reflexivity]. }
  destruct b as [occ w bl p opp n bi rk q k]. board_fields. subst opp.
  destruct c, r; cbn [role color deref bind]; board_fields;
    eexists; (split; [reflexivity|]);
    (split;
     [ apply get_agree; board_fields; rewrite ?Hwi, ?Hwo; reflexivity
     | unfold Board.has; board_fields; rewrite ?Hwi, ?Hwo; reflexivity ]).
Qed.

(** [take] and [set] change one square: on a board that satisfies the
    invariant, [get] and [has] answer at every other square as they did
    before the call. *)
Theorem take_set_leave_other_squares (b : Board.t) (square i : Square) :
  board_inv b = true -> 0 <= square < 64 -> 0 <= i < 64 -> i <> square ->
  (exists old b',
      Board.take b square = Ret (old, b')
      /\ Board.get b' i = Board.get b i /\ Board.has b' i = Board.has b i)
  /\ (forall c r prm,
        exists old b',
          Board.set b square (mkPiece (Some r) c prm) = Ret (old, b')
          /\ Board.get b' i = Board.get b i /\ Board.has b' i = Board.has b i).
Proof.
  intros Hinv Hsq Hi Hne. split.
  - apply take_frame; assumption.
  - intros c r prm. apply set_frame; assumption.
Qed.

Lemma take_set_leave_other_squares_rook_ending :
  (exists old b',
      Board.take rookEndingBoard 0 = Ret (old, b')
      /\ Board.get b' 4 = Board.get rookEndingBoard 4
      /\ Board.has b' 4 = Board.has rookEndingBoard 4)
  /\ (forall c r prm,
        exists old b',
          Board.set rookEndingBoard 0 (mkPiece (Some r) c prm) = Ret (old, b')
          /\ Board.get b' 4 = Board.get rookEndingBoard 4
          /\ Board.has b' 4 = Board.has rookEndingBoard 4).
Proof.
  apply (take_set_leave_other_squares rookEndingBoard 0 4);
    [vm_compute; reflexivity | lia | lia | lia].
Defined.

Lemma squareOK_occupied o w bl rs :
  squareOK o w bl rs = true ->
  o = existsb (fun x => x) rs /\ bl = o && negb w.
Proof.
  unfold squareOK. intros H.
  apply andb_true_iff in H as [H _]. apply andb_true_iff in H as [H Hd].
  apply andb_true_iff in H as [Ho Hr]. apply eqb_prop in Ho, Hr.
  split; [exact Hr|]. subst o. destruct w, bl; try reflexivity; discriminate Hd.
Qed.

(** On boards that satisfy the invariant [boardEquals] decides equality
    of the two boards, although it compares [white] and the role sets
    only: [occupied] and [black] follow from them. *)
Theorem boardEquals_decides_equality (left right : Board.t) :
  board_inv left = true -> board_inv right = true ->
  exists v, boardEquals left right = Ret v /\ (v = true <-> left = right).
Proof.
  revert left right. intros l r.
  intros Hl Hr.
  apply board_inv_local in Hl as (ppl & Hppl & Hwfl & Hlocl).
  apply board_inv_local in Hr as (ppr & Hppr & Hwfr & Hlocr).
  destruct l as [occ w bl p opp n bi rk q k].
  destruct r as [occ' w' bl' p' opp' n' bi' rk' q' k'].
  board_fields. subst opp opp'.
  unfold boardEquals, ROLES.
  cbn [Board.rolesEqual Board.byRole deref bind Board.white Board.pawn
       Board.promotedpawn Board.knight Board.bishop Board.rook Board.queen
       Board.king].
  repeat match goal with
         | |- context [SquareSet.equals ?a ?b] =>
             let E := fresh "E" in
             destruct (SquareSet.equals a b) eqn:E;
             [apply equals_eq in E; subst
             | exists false; split; [reflexivity|];
               split; [discriminate|];
               intros Heq; injection Heq; intros; subst;
               rewrite (proj2 (equals_eq _ _) eq_refl) in E; discriminate E]
         end.
  exists true. split; [reflexivity|]. split; [intros _ | reflexivity].
  split_wf Hwfl. split_wf Hwfr.
  assert (Hocc : occ = occ').
  { apply SquareSet_ext; try assumption. intros i Hi.
    destruct (squareOK_occupied _ _ _ _ (Hlocl i Hi)) as [E1 _].
    destruct (squareOK_occupied _ _ _ _ (Hlocr i Hi)) as [E2 _].
    rewrite E1, E2. reflexivity. }
  assert (Hbl : bl = bl').
  { apply SquareSet_ext; try assumption. intros i Hi.
    destruct (squareOK_occupied _ _ _ _ (Hlocl i Hi)) as [_ E1].
    destruct (squareOK_occupied _ _ _ _ (Hlocr i Hi)) as [_ E2].
    rewrite E1, E2, Hocc. reflexivity. }
  subst. reflexivity.
Qed.

Lemma boardEquals_decides_equality_endings :
  exists v, boardEquals rookEndingBoard bareKingsBoard = Ret v
            /\ (v = true <-> rookEndingBoard = bareKingsBoard).
Proof.
  apply (boardEquals_decides_equality rookEndingBoard bareKingsBoard);
    vm_compute; reflexivity.
Defined.

(** When [promotedpawn] is unassigned on either board, as it is after
    [Board.default()], and the two boards have the same white squares and
    the same pawns, [boardEquals] throws a [TypeError] instead of
    answering. *)
Theorem boardEquals_throws_without_promotedpawn (left right : Board.t) :
  Board.promotedpawn left = None \/ Board.promotedpawn right = None ->
  Board.white left = Board.white right ->
  Board.pawn left = Board.pawn right ->
  boardEquals left right = Throw TypeError.
Proof.
  revert left right. intros l r.
  intros Hpp Hw Hp. unfold boardEquals, ROLES.
  rewrite (proj2 (equals_eq _ _) Hw).
  cbn [Board.rolesEqual Board.byRole deref bind].
  rewrite (proj2 (equals_eq _ _) Hp).
  destruct Hpp as [E | E]; rewrite E; [reflexivity|].
  destruct (Board.promotedpawn l); reflexivity.
Qed.

Lemma boardEquals_throws_without_promotedpawn_default :
  boardEquals Board.default Board.default = Throw TypeError.
Proof.
  apply (boardEquals_throws_without_promotedpawn Board.default Board.default);
    [left; reflexivity | reflexivity | reflexivity].
Defined.
Local Transparent SquareSet.has SquareSet.without SquareSet.with_ SquareSet.wf.

(* ===================================================================== *)
(** ** [get], boards built by [set], and [play] *)
(* ===================================================================== *)

Local Opaque SquareSet.has SquareSet.without SquareSet.with_ SquareSet.wf.

(** On a board that satisfies the invariant [get] finds a colour and a
    role exactly on the occupied squares. *)
Lemma get_cases b sq :
  board_inv b = true -> 0 <= sq < 64 ->
  (Board.get b sq = Ret None /\ Board.has b sq = false
   /\ SquareSet.has (Board.pawn b) sq = false)
  \/ (exists c r, Board.get b sq = Ret (Some (mkPiece (Some r) c None))
                  /\ Board.has b sq = true
                  /\ SquareSet.has (Board.byColor b c) sq = true
                  /\ SquareSet.has (Board.pawn b) sq = Role_eqb r pawn).
Proof.
  intros Hinv Hsq. apply board_inv_local in Hinv as (pp & Hpp & Hwf & Hloc).
  specialize (Hloc sq Hsq).
  destruct b as [occ w bl p opp n bi r q k]. board_fields. subst opp.
  unfold Board.get, Board.getColor, Board.getRole, ROLES, Board.has.
  cbn [Board.occupied Board.white Board.black Board.pawn Board.promotedpawn
       Board.knight Board.bishop Board.rook Board.queen Board.king
       Board.getRole_from Board.byRole deref bind].
  destruct (SquareSet.has occ sq) eqn:Ho, (SquareSet.has w sq) eqn:Hw,
    (SquareSet.has bl sq) eqn:Hbl, (SquareSet.has p sq) eqn:Hp,
    (SquareSet.has pp sq) eqn:Hpp', (SquareSet.has n sq) eqn:Hn,
    (SquareSet.has bi sq) eqn:Hbi, (SquareSet.has r sq) eqn:Hr,
    (SquareSet.has q sq) eqn:Hq, (SquareSet.has k sq) eqn:Hk;
    try discriminate Hloc; cbn [bind deref];
    first [ left; split; [reflexivity|]; split; reflexivity
          | right; do 2 eexists; split; [reflexivity|]; split; [reflexivity|];
            split; [cbn [Board.byColor Board.white Board.black]; eassumption
                   | reflexivity] ].
Qed.

Lemma placeAll_inv ps :
  forall b, board_inv b = true -> onBoard ps ->
            exists b', placeAll b ps = Ret b' /\ board_inv b' = true.
Proof.
  induction ps as [|[[sq c] r] ps IH]; intros b Hinv Hon.
  - exists b. split; [reflexivity | exact Hinv].
  - assert (Hsq : 0 <= sq < 64) by (apply (Hon sq c r); left; reflexivity).
    destruct (set_inv b sq c r None Hinv Hsq) as (old & b1 & _ & Hset & Hinv1 & _).
    cbn [placeAll]. rewrite Hset. cbn [bind].
    apply IH; [exact Hinv1|]. intros sq' c' r' Hin. apply (Hon sq' c' r'). right. exact Hin.
Qed.

(** Every board built from the empty board by [set] calls on squares of
    the board, the way a board is read from a FEN, satisfies the
    invariant; no call throws. *)
Theorem boards_built_by_set_satisfy_invariant (ps : list (Square * Color * Role)) :
  onBoard ps ->
  exists b, placeAll Board.empty ps = Ret b /\ board_inv b = true.
Proof.
  intros Hon. apply placeAll_inv; [vm_compute; reflexivity | exact Hon].
Qed.

Lemma boards_built_by_set_satisfy_invariant_kings :
  exists b, placeAll Board.empty [(0, white, king); (63, black, king)] = Ret b
            /\ board_inv b = true.
Proof.
  apply (boards_built_by_set_satisfy_invariant [(0, white, king); (63, black, king)]).
  intros sq c r [E | [E | []]]; injection E as <- _ _; lia.
Defined.

(** On a board that satisfies the invariant [get] never throws: it
    returns no piece on an unoccupied square, and on an occupied square a
    piece with a colour and a role, the role being [pawn] exactly when
    the square is in the pawn set. *)
Theorem get_on_boards (b : Board.t) (square : Square) :
  board_inv b = true -> 0 <= square < 64 ->
  (Board.get b square = Ret None /\ Board.has b square = false
   /\ SquareSet.has (Board.pawn b) square = false)
  \/ (exists c r, Board.get b square = Ret (Some (mkPiece (Some r) c None))
                  /\ Board.has b square = true
                  /\ SquareSet.has (Board.byColor b c) square = true
                  /\ SquareSet.has (Board.pawn b) square = Role_eqb r pawn).
Proof. apply get_cases. Qed.

Lemma get_on_boards_rook_ending :
  (Board.get rookEndingBoard 0 = Ret None /\ Board.has rookEndingBoard 0 = false
   /\ SquareSet.has (Board.pawn rookEndingBoard) 0 = false)
  \/ (exists c r, Board.get rookEndingBoard 0 = Ret (Some (mkPiece (Some r) c None))
                  /\ Board.has rookEndingBoard 0 = true
                  /\ SquareSet.has (Board.byColor rookEndingBoard c) 0 = true
                  /\ SquareSet.has (Board.pawn rookEndingBoard) 0 = Role_eqb r pawn).
Proof. apply (get_on_boards rookEndingBoard 0); [vm_compute; reflexivity | lia]. Defined.

Lemma get_unassigned b sq :
  Board.promotedpawn b = None ->
  Board.get b sq
  = match Board.getColor b sq with
    | None => Ret None
    | Some c =>
        if SquareSet.has (Board.pawn b) sq
        then Ret (Some (mkPiece (Some pawn) c None))
        else Throw TypeError
    end.
Proof.
  intros Hpp. unfold Board.get, Board.getRole, ROLES.
  destruct (Board.getColor b sq) as [c|]; [|reflexivity].
  cbn [Board.getRole_from Board.byRole deref bind]. rewrite Hpp.
  destruct (SquareSet.has (Board.pawn b) sq); reflexivity.
Qed.

Lemma play_get_throws pos move e :
  Board.get (Position.board pos) (from move) = Throw e ->
  Position.play pos move = Throw e.
Proof.
  intros H. unfold Position.play, Board.take.
  cbn [Position.board Position.setHalfmoves Position.setFullmoves Position.setTurn].
  destruct (Position.turn pos);
    cbn [Position.board Position.setHalfmoves Position.setFullmoves Position.setTurn];
    rewrite H; reflexivity.
Qed.

(** While [promotedpawn] is unassigned, as on the board of
    [Board.default()], [get] answers only for empty squares and pawns: on
    the square of any other piece it throws a [TypeError], and so does
    [play] for a move from such a square. *)
Theorem unassigned_promotedpawn_throws (pos : Position.t) (move : Move) :
  Board.promotedpawn (Position.board pos) = None ->
  Board.getColor (Position.board pos) (from move) <> None ->
  SquareSet.has (Board.pawn (Position.board pos)) (from move) = false ->
  Board.get (Position.board pos) (from move) = Throw TypeError
  /\ Position.play pos move = Throw TypeError.
Proof.
  intros Hpp Hc Hp.
  assert (H : Board.get (Position.board pos) (from move) = Throw TypeError).
  { rewrite get_unassigned by exact Hpp.
    destruct (Board.getColor (Position.board pos) (from move)); [|contradiction].
    rewrite Hp. reflexivity. }
  split; [exact H | apply play_get_throws; exact H].
Qed.

Lemma unassigned_promotedpawn_throws_default_knight :
  Board.get (Position.board Makruk.default) (from (mkMove 1 18 None)) = Throw TypeError
  /\ Position.play Makruk.default (mkMove 1 18 None) = Throw TypeError.
Proof.
  apply (unassigned_promotedpawn_throws Makruk.default (mkMove 1 18 None));
    [reflexivity | vm_compute; discriminate | vm_compute; reflexivity].
Defined.

(** Lifting a piece from [f] and putting it, with role [r'], on [t]. *)
Lemma move_piece b f t c r r' prm :
  board_inv b = true -> 0 <= f < 64 -> 0 <= t < 64 ->
  Board.get b f = Ret (Some (mkPiece (Some r) c None)) ->
  exists b1 cap b2,
    Board.take b f = Ret (Some (mkPiece (Some r) c None), b1)
    /\ Board.set b1 t (mkPiece (Some r') c prm) = Ret (cap, b2)
    /\ board_inv b2 = true
    /\ Board.get b2 t = Ret (Some (mkPiece (Some r') c None))
    /\ (f <> t -> Board.get b2 f = Ret None)
    /\ (forall i, 0 <= i < 64 -> i <> f -> i <> t -> Board.get b2 i = Board.get b i)
    /\ (cap = None <-> f = t \/ Board.has b t = false).
Proof.
  intros Hinv Hf Ht Hget.
  destruct (take_mapSets b f Hinv Hf) as (old & Hget' & Htake).
  rewrite Hget in Hget'. injection Hget' as <-.
  set (b1 := Board_mapSets (fun s => SquareSet.without s f) b) in *.
  assert (Hinv1 : board_inv b1 = true) by (apply board_inv_without; assumption).
  destruct (set_inv b1 t c r' prm Hinv1 Ht) as (cap & b2 & Hcap & Hset & Hinv2 & Hget2).
  exists b1, cap, b2. split; [exact Htake|]. split; [exact Hset|].
  split; [exact Hinv2|]. split; [exact Hget2|]. split; [|split].
  - intros Hne.
    destruct (set_frame b1 t f c r' prm Hinv1 Ht Hf Hne) as (o & b' & Hset' & Hg & _).
    rewrite Hset in Hset'. injection Hset' as _ <-.
    rewrite Hg. apply get_after_take. exact Hf.
  - intros i Hi Hif Hit.
    destruct (set_frame b1 t i c r' prm Hinv1 Ht Hi Hit) as (o & b' & Hset' & Hg & _).
    rewrite Hset in Hset'. injection Hset' as _ <-.
    rewrite Hg.
    destruct (take_frame b f i Hinv Hf Hi Hif) as (o' & b'' & Htake' & Hg' & _).
    rewrite Htake in Htake'. injection Htake' as _ <-. exact Hg'.
  - destruct (Z.eq_dec f t) as [E | Hne].
    + subst t. unfold b1 in Hcap. rewrite get_after_take in Hcap by exact Hf.
      injection Hcap as <-. split; [intros _; left; reflexivity | reflexivity].
    + destruct (take_frame b f t Hinv Hf Ht (not_eq_sym Hne))
        as (o' & b'' & Htake' & Hg' & _).
      rewrite Htake in Htake'. injection Htake' as _ <-.
      rewrite Hg' in Hcap.
      destruct (get_cases b t Hinv Ht) as [(Hn & Hh & _) | (c' & r'' & Hs & Hh & _)].
      * rewrite Hn in Hcap. injection Hcap as <-.
        split; [intros _; right; exact Hh | reflexivity].
      * rewrite Hs in Hcap. injection Hcap as <-.
        split; [discriminate|]. intros [E | E]; [contradiction | congruence].
Qed.

Lemma play_result pos move :
  board_inv (Position.board pos) = true ->
  0 <= from move < 64 -> 0 <= to move < 64 ->
  Position.remainingChecks pos = None ->
  exists pos',
    Position.play pos move = Ret pos'
    /\ Position.rules pos' = Position.rules pos
    /\ Position.turn pos' = opposite (Position.turn pos)
    /\ Position.remainingChecks pos' = None
    /\ Position.fullmoves pos'
       = Position.fullmoves pos
         + match Position.turn pos with black => 1 | white => 0 end
    /\ Position.halfmoves pos'
       = (if resetsClock (Position.board pos) move then 0
          else Position.halfmoves pos + 1)
    /\ board_inv (Position.board pos') = true
    /\ match Board.get (Position.board pos) (from move) with
       | Ret (Some p) =>
           exists r,
             role p = Some r
             /\ Board.get (Position.board pos') (to move)
                = Ret (Some (mkPiece (Some (movedRole r (promotion move)))
                               (color p) None))
             /\ (from move <> to move ->
                 Board.get (Position.board pos') (from move) = Ret None)
             /\ (forall i, 0 <= i < 64 -> i <> from move -> i <> to move ->
                   Board.get (Position.board pos') i
                   = Board.get (Position.board pos) i)
       | _ => Position.board pos' = Position.board pos
       end.
Proof.
  intros Hinv Hf Ht Hrc.
  destruct pos as [rl b tn rc hm fm]. destruct move as [f t promo].
  cbn [Position.board Position.remainingChecks Position.turn Position.rules
       Position.halfmoves Position.fullmoves from to promotion] in *.
  subst rc. unfold resetsClock. cbn [from to].
  destruct (get_cases b f Hinv Hf) as [(Hn & Hh & Hp) | (c & r & Hs & Hh & _ & Hp)].
  - rewrite Hn, Hp, Hh. cbn [orb andb].
    exists (Position.mk rl b (opposite tn) None (hm + 1)
              (fm + match tn with black => 1 | white => 0 end)).
    split.
    + unfold Position.play, Board.take.
      destruct tn;
        cbn [Position.board Position.turn Position.halfmoves Position.fullmoves
             Position.rules Position.remainingChecks
             Position.setHalfmoves Position.setFullmoves Position.setTurn
             Position.setBoard from to promotion];
        rewrite Hn; cbn [bind Position.setBoard Position.board Position.turn
                         Position.halfmoves Position.fullmoves Position.rules
                         Position.remainingChecks];
        rewrite ?Z.add_0_r; reflexivity.
    + cbn [Position.board Position.turn Position.halfmoves Position.fullmoves
           Position.rules Position.remainingChecks].
      repeat (split; [reflexivity|]). split; [exact Hinv | reflexivity].
  - rewrite Hs, Hp, Hh. cbn [andb role color].
    assert (Hgen : forall r' prm,
               (match r with
                | pawn =>
                    match promo with
                    | Some r0 => mkPiece (Some r0) c (Some true)
                    | None => mkPiece (Some r) c None
                    end
                | _ => mkPiece (Some r) c None
                end) = mkPiece (Some r') c prm ->
               r' = movedRole r promo ->
               exists pos',
                 Position.play (Position.mk rl b tn None hm fm) (mkMove f t promo)
                 = Ret pos'
                 /\ Position.rules pos' = rl
                 /\ Position.turn pos' = opposite tn
                 /\ Position.remainingChecks pos' = None
                 /\ Position.fullmoves pos'
                    = fm + match tn with black => 1 | white => 0 end
                 /\ Position.halfmoves pos'
                    = (if Role_eqb r pawn || true && Board.has b t && negb (f =? t)
                       then 0 else hm + 1)
                 /\ board_inv (Position.board pos') = true
                 /\ exists r0,
                      Some r = Some r0
                      /\ Board.get (Position.board pos') t
                         = Ret (Some (mkPiece (Some (movedRole r0 promo)) c None))
                      /\ (f <> t -> Board.get (Position.board pos') f = Ret None)
                      /\ (forall i, 0 <= i < 64 -> i <> f -> i <> t ->
                            Board.get (Position.board pos') i = Board.get b i)).
    { intros r' prm Hpiece Hr'.
      destruct (move_piece b f t c r r' prm Hinv Hf Ht Hs)
        as (b1 & cap & b2 & Htake & Hset & Hinv2 & Hget2 & Hfrom & Hother & Hcap).
      assert (Hclock : (if Role_eqb r pawn || true && Board.has b t && negb (f =? t)
                        then 0 else hm + 1)
                       = match cap with
                         | Some _ => 0
                         | None => if Role_eqb r pawn then 0 else hm + 1
                         end).
      { cbn [andb]. destruct cap as [x|].
        - assert (Hx : ~ (f = t \/ Board.has b t = false)).
          { intros H. apply Hcap in H. discriminate H. }
          destruct (Z.eqb_spec f t) as [E | _]; [exfalso; apply Hx; left; exact E|].
          destruct (Board.has b t); [|exfalso; apply Hx; right; reflexivity].
          rewrite orb_true_r. reflexivity.
        - destruct (proj1 Hcap eq_refl) as [E | E].
          + subst t. rewrite Z.eqb_refl, andb_false_r, orb_false_r. reflexivity.
          + rewrite E. cbn [andb]. rewrite orb_false_r. reflexivity. }
      exists (Position.mk rl b2 (opposite tn) None
                (match cap with
                 | Some _ => 0
                 | None => if Role_eqb r pawn then 0 else hm + 1
                 end)
                (fm + match tn with black => 1 | white => 0 end)).
      split.
      - unfold Position.play.
        destruct tn;
          cbn [Position.board Position.turn Position.halfmoves Position.fullmoves
               Position.rules Position.remainingChecks
               Position.setHalfmoves Position.setFullmoves Position.setTurn
               Position.setBoard from to promotion];
          rewrite Htake; cbn [bind role color];
          (destruct r;
           [ destruct promo as [r0|];
             cbn [Position.board Position.turn Position.halfmoves
                  Position.fullmoves Position.rules Position.remainingChecks
                  Position.setHalfmoves Position.setFullmoves Position.setTurn
                  Position.setBoard Role_eqb] in *;
             rewrite Hpiece, Hset; cbn [bind];
             destruct cap;
             cbn [Position.board Position.turn Position.halfmoves
                  Position.fullmoves Position.rules Position.remainingChecks
                  Position.setHalfmoves Position.setFullmoves Position.setTurn
                  Position.setBoard];
             rewrite ?Z.add_0_r; reflexivity
           | cbn [Position.board Position.turn Position.halfmoves
                  Position.fullmoves Position.rules Position.remainingChecks
                  Position.setHalfmoves Position.setFullmoves Position.setTurn
                  Position.setBoard Role_eqb] in *;
             rewrite Hpiece, Hset; cbn [bind];
             destruct cap;
             cbn [Position.board Position.turn Position.halfmoves
                  Position.fullmoves Position.rules Position.remainingChecks
                  Position.setHalfmoves Position.setFullmoves Position.setTurn
                  Position.setBoard];
             rewrite ?Z.add_0_r; reflexivity .. ]).
      - cbn [Position.board Position.turn Position.halfmoves Position.fullmoves
             Position.rules Position.remainingChecks].
        repeat (split; [reflexivity|]). split; [symmetry; exact Hclock|].
        split; [exact Hinv2|].
        exists r. split; [reflexivity|]. rewrite <- Hr'. split; [exact Hget2|].
        split; [exact Hfrom | exact Hother]. }
    destruct (Hgen (movedRole r promo)
                (match r, promo with pawn, Some _ => Some true | _, _ => None end))
      as (pos' & Hplay & H1 & H2 & H3 & H4 & H5 & H6 & r0 & E0 & H7).
    { destruct r, promo; reflexivity. }
    { reflexivity. }
    exists pos'. split; [exact Hplay|]. split; [exact H1|]. split; [exact H2|].
    split; [exact H3|]. split; [exact H4|].
    split; [cbn [andb] in H5; exact H5|]. split; [exact H6|].
    exists r0. split; [exact E0|]. exact H7.
Qed.

(** [play] on a position whose board satisfies the invariant, with both
    squares on the board, no remaining-checks counters, and counters that
    are integers between [-2^53] and [2^53 - 1], where the code's [+= 1]
    on a JavaScript number is exact: the call does not throw, the turn
    passes to the other side, the fullmove number goes up after a black
    move, and the halfmove clock goes back to zero when a pawn moves or a
    piece lands on another occupied square and up by one otherwise; both
    counters are again integers of absolute value at most [2^53].  This
    holds whether or not the move is legal, and also when [from] is
    empty. *)
Theorem play_updates_turn_and_counters (pos : Position.t) (move : Move) :
  board_inv (Position.board pos) = true ->
  0 <= from move < 64 -> 0 <= to move < 64 ->
  Position.remainingChecks pos = None ->
  countsExactly (Position.halfmoves pos) ->
  countsExactly (Position.fullmoves pos) ->
  exists pos',
    Position.play pos move = Ret pos'
    /\ Position.rules pos' = Position.rules pos
    /\ Position.turn pos' = opposite (Position.turn pos)
    /\ Position.remainingChecks pos' = None
    /\ Position.fullmoves pos'
       = Position.fullmoves pos
         + match Position.turn pos with black => 1 | white => 0 end
    /\ Position.halfmoves pos'
       = (if resetsClock (Position.board pos) move then 0
          else Position.halfmoves pos + 1)
    /\ counterValue (Position.halfmoves pos')
    /\ counterValue (Position.fullmoves pos').
Proof.
  intros Hinv Hf Ht Hrc Hh Hfm.
  destruct (play_result pos move Hinv Hf Ht Hrc)
    as (pos' & H0 & H1 & H2 & H3 & H4 & H5 & _).
  exists pos'. repeat (split; [assumption|]).
  unfold countsExactly in Hh, Hfm. unfold counterValue. rewrite H4, H5. split.
  - destruct (resetsClock (Position.board pos) move); lia.
  - destruct (Position.turn pos); lia.
Qed.

Lemma play_updates_turn_and_counters_rook_lift :
  exists pos',
    Position.play (whiteToMove rookEndingBoard) (mkMove 0 56 None) = Ret pos'
    /\ Position.rules pos' = Position.rules (whiteToMove rookEndingBoard)
    /\ Position.turn pos' = opposite (Position.turn (whiteToMove rookEndingBoard))
    /\ Position.remainingChecks pos' = None
    /\ Position.fullmoves pos'
       = Position.fullmoves (whiteToMove rookEndingBoard)
         + match Position.turn (whiteToMove rookEndingBoard) with
           | black => 1
           | white => 0
           end
    /\ Position.halfmoves pos'
       = (if resetsClock (Position.board (whiteToMove rookEndingBoard))
               (mkMove 0 56 None)
          then 0
          else Position.halfmoves (whiteToMove rookEndingBoard) + 1)
    /\ counterValue (Position.halfmoves pos')
    /\ counterValue (Position.fullmoves pos').
Proof.
  apply (play_updates_turn_and_counters (whiteToMove rookEndingBoard)
           (mkMove 0 56 None));
    [vm_compute; reflexivity | cbn; lia | cbn; lia | reflexivity
    | unfold countsExactly; cbn; lia | unfold countsExactly; cbn; lia].
Defined.

(** What [play] does to the board: the piece on [from] is lifted and put
    on [to], a pawn taking the role the move names; [from] is left
    empty, every other square keeps what it held, and the board still
    satisfies the invariant.  With no piece on [from] the board is left
    as it was. *)
Theorem play_moves_the_piece (pos : Position.t) (move : Move) :
  board_inv (Position.board pos) = true ->
  0 <= from move < 64 -> 0 <= to move < 64 ->
  Position.remainingChecks pos = None ->
  exists pos',
    Position.play pos move = Ret pos'
    /\ board_inv (Position.board pos') = true
    /\ match Board.get (Position.board pos) (from move) with
       | Ret (Some p) =>
           exists r,
             role p = Some r
             /\ Board.get (Position.board pos') (to move)
                = Ret (Some (mkPiece (Some (movedRole r (promotion move)))
                               (color p) None))
             /\ (from move <> to move ->
                 Board.get (Position.board pos') (from move) = Ret None)
             /\ (forall i, 0 <= i < 64 -> i <> from move -> i <> to move ->
                   Board.get (Position.board pos') i
                   = Board.get (Position.board pos) i)
       | _ => Position.board pos' = Position.board pos
       end.
Proof.
  intros Hinv Hf Ht Hrc.
  destruct (play_result pos move Hinv Hf Ht Hrc)
    as (pos' & H0 & _ & _ & _ & _ & _ & H6 & H7).
  exists pos'. split; [exact H0|]. split; [exact H6 | exact H7].
Qed.

Lemma play_moves_the_piece_rook_lift :
  exists pos',
    Position.play (whiteToMove rookEndingBoard) (mkMove 0 56 None) = Ret pos'
    /\ board_inv (Position.board pos') = true
    /\ match Board.get (Position.board (whiteToMove rookEndingBoard))
               (from (mkMove 0 56 None)) with
       | Ret (Some p) =>
           exists r,
             role p = Some r
             /\ Board.get (Position.board pos') (to (mkMove 0 56 None))
                = Ret (Some (mkPiece
                               (Some (movedRole r (promotion (mkMove 0 56 None))))
                               (color p) None))
             /\ (from (mkMove 0 56 None) <> to (mkMove 0 56 None) ->
                 Board.get (Position.board pos') (from (mkMove 0 56 None)) = Ret None)
             /\ (forall i, 0 <= i < 64 -> i <> from (mkMove 0 56 None) ->
                   i <> to (mkMove 0 56 None) ->
                   Board.get (Position.board pos') i
                   = Board.get (Position.board (whiteToMove rookEndingBoard)) i)
       | _ => Position.board pos' = Position.board (whiteToMove rookEndingBoard)
       end.
Proof.
  apply (play_moves_the_piece (whiteToMove rookEndingBoard) (mkMove 0 56 None));
    [vm_compute; reflexivity | cbn; lia | cbn; lia | reflexivity].
Defined.

(** Playing any sequence of [n] moves between squares of the board,
    legal or not, from a position whose board satisfies the invariant
    and whose counters are non-negative integers that stay at or below
    [2^53] when [n] is added, so that every [+= 1] along the way is
    exact: no call throws; the board still satisfies the invariant, the
    turn has alternated once per move, the fullmove number has gone up by
    the number of black moves, and the counters are still non-negative
    and at most [2^53]. *)
Theorem playAll_keeps_invariant (pos : Position.t) (moves : list Move) :
  board_inv (Position.board pos) = true ->
  Position.remainingChecks pos = None ->
  movesOnBoard moves ->
  roomFor (length moves) pos ->
  exists pos',
    playAll pos moves = Ret pos'
    /\ board_inv (Position.board pos') = true
    /\ Position.remainingChecks pos' = None
    /\ Position.turn pos' = turnAfter (length moves) (Position.turn pos)
    /\ Position.fullmoves pos'
       = Position.fullmoves pos
         + (Z.of_nat (length moves)
            + match Position.turn pos with white => 0 | black => 1 end) / 2
    /\ roomFor 0 pos'.
Proof.
  revert pos.
  induction moves as [|m moves IH]; intros pos Hinv Hrc Hon Hroom.
  - exists pos. cbn [playAll length turnAfter] in *.
    repeat (split; [first [reflexivity | assumption]|]).
    split; [destruct (Position.turn pos); cbn; lia | exact Hroom].
  - assert (Hm : 0 <= from m < 64 /\ 0 <= to m < 64) by (apply Hon; left; reflexivity).
    destruct Hm as [Hf Ht].
    destruct (play_result pos m Hinv Hf Ht Hrc)
      as (p1 & H0 & _ & H2 & H3 & H4 & H5 & H6 & _).
    assert (Hroom1 : roomFor (length moves) p1).
    { unfold roomFor in *. cbn [length] in Hroom. rewrite Nat2Z.inj_succ in Hroom.
      rewrite H4, H5.
      destruct (resetsClock (Position.board pos) m), (Position.turn pos); lia. }
    destruct (IH p1 H6 H3 (fun x Hx => Hon x (or_intror Hx)) Hroom1)
      as (pos' & E & I1 & I2 & I3 & I4 & I5).
    exists pos'. cbn [playAll]. rewrite H0. cbn [bind].
    split; [exact E|]. split; [exact I1|]. split; [exact I2|]. split; [|split].
    + rewrite I3, H2. reflexivity.
    + rewrite I4, H4, H2. cbn [length].
      destruct (Position.turn pos); cbn [opposite];
        rewrite Nat2Z.inj_succ; Z.div_mod_to_equations; lia.
    + exact I5.
Qed.

Lemma playAll_keeps_invariant_king_shuffle :
  exists pos',
    playAll (whiteToMove bareKingsBoard) (kingShuffle 1) = Ret pos'
    /\ board_inv (Position.board pos') = true
    /\ Position.remainingChecks pos' = None
    /\ Position.turn pos'
       = turnAfter (length (kingShuffle 1))
           (Position.turn (whiteToMove bareKingsBoard))
    /\ Position.fullmoves pos'
       = Position.fullmoves (whiteToMove bareKingsBoard)
         + (Z.of_nat (length (kingShuffle 1))
            + match Position.turn (whiteToMove bareKingsBoard) with
              | white => 0
              | black => 1
              end) / 2
    /\ roomFor 0 pos'.
Proof.
  apply (playAll_keeps_invariant (whiteToMove bareKingsBoard) (kingShuffle 1));
    [vm_compute; reflexivity | reflexivity | | unfold roomFor; cbn; lia].
  intros m Hm. cbn [kingShuffle In] in Hm.
  destruct Hm as [<- | [<- | [<- | [<- | []]]]]; cbn [from to]; lia.
Defined.

Local Transparent SquareSet.has SquareSet.without SquareSet.with_ SquareSet.wf.

(* ===================================================================== *)
(** ** Attackers of a square, and destinations *)
(* ===================================================================== *)

(** The set [attacksTo] returns for a square of the board: the pieces of
    the attacking colour that stand where a rook on the square would
    reach, whatever their role, together with the bishops, knights, kings
    and pawns one step of their kind away.  The queen's diagonal squares
    are intersected with the kings, so a queen is counted only when it
    stands on the square's rank or file. *)
Theorem attacksTo_members (sq : Square) (attacker : Color) (board : Board.t)
    (occupied : SquareSet.t) :
  0 <= sq < 64 ->
  exists a, attacksTo sq attacker board occupied = Ret a /\ SquareSet.wf a = true
            /\ forall i, 0 <= i < 64 ->
                 SquareSet.has a i
                 = attackerStep board attacker (SquareSet.has occupied) sq i.
Proof.
  revert occupied. intros occ.
  intros Hsq.
  destruct (rookAttacks_slides_on_board sq occ Hsq) as (r & Er & _ & Hr).
  destruct (bishopAttacks_geometry (opposite attacker) sq Hsq) as (b & Eb & _ & Hb).
  destruct (knightAttacks_geometry sq Hsq) as (n & En & _ & Hn).
  destruct (kingAttacks_geometry sq Hsq) as (k & Ek & _ & Hk).
  destruct (queenAttacks_geometry sq Hsq) as (q & Eq & _ & Hq).
  destruct (pawnAttacks_geometry (opposite attacker) sq Hsq) as (p & Ep & _ & Hp).
  unfold attacksTo. rewrite Er, Eb, En, Ek, Eq, Ep. cbn [deref bind].
  eexists. split; [reflexivity|]. split; [apply wf_new|].
  intros i Hi. rewrite has_intersect, !has_union, !has_intersect by assumption.
  rewrite Hr, Hb, Hn, Hk, Hq, Hp by assumption. reflexivity.
Qed.

Lemma attacksTo_members_rook_ending :
  exists a, attacksTo 63 white rookEndingBoard (Board.occupied rookEndingBoard) = Ret a
            /\ SquareSet.wf a = true
            /\ forall i, 0 <= i < 64 ->
                 SquareSet.has a i
                 = attackerStep rookEndingBoard white
                     (SquareSet.has (Board.occupied rookEndingBoard)) 63 i.
Proof.
  apply (attacksTo_members 63 white rookEndingBoard (Board.occupied rookEndingBoard)).
  lia.
Defined.

Lemma has_without_within s sq : within (SquareSet.without s sq) s.
Proof.
  intros i Hi H. unfold SquareSet.without in H.
  destruct (32 <=? sq); rewrite has_new in H by assumption;
    rewrite has_testbit by assumption;
    destruct (Z.leb_spec 32 i); try exact H;
    rewrite testbit_and in H by lia; apply andb_true_iff in H as [H _]; exact H.
Qed.

Lemma within_refl s : within s s.
Proof. intros i _ H. exact H. Qed.

Lemma within_trans a b c : within a b -> within b c -> within a c.
Proof. intros Hab Hbc i Hi H. apply Hbc; [exact Hi|]. apply Hab; assumption. Qed.

Lemma within_intersect_l a b : within (SquareSet.intersect a b) a.
Proof.
  intros i Hi H. rewrite has_intersect in H by assumption.
  apply andb_true_iff in H as [H _]. exact H.
Qed.

Lemma within_empty s : within SquareSet.empty s.
Proof. intros i Hi H. rewrite has_empty in H by assumption. discriminate H. Qed.

Lemma kingFilter_within pos occ tos :
  forall pseudo d,
    Position.kingFilter pos occ tos pseudo = Ret d -> within d pseudo.
Proof.
  induction tos as [|to tos IH]; intros pseudo d H; cbn [Position.kingFilter] in H.
  - injection H as <-. apply within_refl.
  - destruct (Position.kingAttackers pos to (opposite (Position.turn pos)) occ)
      as [a|]; cbn [bind] in H; [|discriminate H].
    apply IH in H. destruct (SquareSet.nonEmpty a); [|exact H].
    eapply within_trans; [exact H | apply has_without_within].
Qed.

Lemma Color_eqb_eq a b : Color_eqb a b = true -> a = b.
Proof. destruct a, b; intros H; try reflexivity; discriminate H. Qed.

Lemma moreThanOne_nonEmpty s :
  SquareSet.moreThanOne s = true -> SquareSet.nonEmpty s = true.
Proof.
  unfold SquareSet.moreThanOne, SquareSet.nonEmpty. destruct s as [lo hi].
  cbn [SquareSet.lo SquareSet.hi].
  destruct (Z.eqb_spec lo 0) as [-> | _]; [|reflexivity].
  destruct (Z.eqb_spec hi 0) as [-> | _]; [|reflexivity].
  intros H. vm_compute in H. discriminate H.
Qed.

Lemma kingFilter_safe pos occ tos :
  forall pseudo d,
    Position.kingFilter pos occ tos pseudo = Ret d ->
    forall to, In to tos -> 0 <= to < 64 -> SquareSet.has d to = true ->
      exists a, Position.kingAttackers pos to (opposite (Position.turn pos)) occ = Ret a
                /\ SquareSet.nonEmpty a = false.
Proof.
  induction tos as [|t tos IH]; intros pseudo d H to Hin Hto Hd; [destruct Hin|].
  cbn [Position.kingFilter] in H.
  destruct (Position.kingAttackers pos t (opposite (Position.turn pos)) occ)
    as [a|] eqn:Ea; cbn [bind] in H; [|discriminate H].
  destruct (SquareSet.nonEmpty a) eqn:Ene.
  - destruct (Z.eq_dec t to) as [E | Hne].
    + subst t. apply kingFilter_within in H. apply H in Hd; [|exact Hto].
      rewrite has_without, Z.eqb_refl in Hd by assumption. discriminate Hd.
    + destruct Hin as [E | Hin]; [contradiction|]. apply (IH _ _ H to Hin Hto Hd).
  - destruct (Z.eq_dec t to) as [E | Hne].
    + subst t. exists a. split; [exact Ea | exact Ene].
    + destruct Hin as [E | Hin]; [contradiction|]. apply (IH _ _ H to Hin Hto Hd).
Qed.

Lemma dests_result pos sq ctx d :
  Position.dests pos sq ctx = Ret d ->
  exists c,
    Position.ctxOr pos ctx = Ret c
    /\ (d = SquareSet.empty
        \/ exists piece pseudo P1,
             let P0 := SquareSet.diff pseudo
                         (Board.byColor (Position.board pos) (Position.turn pos)) in
             Context.variantEnd c = false
             /\ Board.get (Position.board pos) sq = Ret (Some piece)
             /\ color piece = Position.turn pos
             /\ within d P1 /\ within P1 P0
             /\ match Context.king c with
                | Some k =>
                    match role piece with
                    | Some king =>
                        Position.kingFilter pos
                          (SquareSet.without (Board.occupied (Position.board pos)) sq)
                          (SquareSet.squares P0) P0 = Ret P1
                    | _ => P1 = P0
                    end
                    /\ (SquareSet.moreThanOne (Context.checkers c) = true ->
                        d = SquareSet.empty)
                    /\ (SquareSet.has (Context.blockers c) sq = true ->
                        forall i, 0 <= i < 64 -> SquareSet.has d i = true ->
                          exists r, ray sq k = Ret r /\ SquareSet.has r i = true)
                | None => d = P0 /\ P1 = P0
                end).
Proof.
  intros H. unfold Position.dests in H.
  destruct (Position.ctxOr pos ctx) as [c|]; cbn [bind] in H; [|discriminate H].
  exists c. split; [reflexivity|].
  destruct (Context.variantEnd c) eqn:Eve; [left; congruence|].
  destruct (Board.get (Position.board pos) sq) as [[piece|]|]; cbn [bind] in H;
    [ | left; congruence | discriminate H].
  destruct (Color_eqb (color piece) (Position.turn pos)) eqn:Ec; cbn [negb] in H;
    [|left; congruence].
  apply Color_eqb_eq in Ec.
  match type of H with bind ?m _ = _ => destruct m as [pseudo|] end;
    cbn [bind] in H; [|discriminate H].
  right. exists piece, pseudo. cbv zeta.
  set (P0 := SquareSet.diff pseudo
               (Board.byColor (Position.board pos) (Position.turn pos))) in *.
  destruct (Context.king c) as [k|].
  2:{ injection H as <-. exists P0. split; [reflexivity|].
      split; [reflexivity|]. split; [exact Ec|].
      split; [apply within_refl|]. split; [apply within_refl|].
      split; reflexivity. }
  match type of H with bind ?m _ = _ => destruct m as [P1|] eqn:E1 end;
    cbn [bind] in H; [|discriminate H].
  exists P1. split; [reflexivity|]. split; [reflexivity|]. split; [exact Ec|].
  assert (H1 : within P1 P0).
  { destruct (role piece) as [[]|];
      try (injection E1 as <-; apply within_refl).
    apply kingFilter_within in E1. exact E1. }
  assert (HE1 : match role piece with
                | Some king =>
                    Position.kingFilter pos
                      (SquareSet.without (Board.occupied (Position.board pos)) sq)
                      (SquareSet.squares P0) P0 = Ret P1
                | _ => P1 = P0
                end).
  { destruct (role piece) as [[]|]; try exact E1; injection E1 as <-; reflexivity. }
  assert (Hblock : forall P2 d',
             within P2 P1 ->
             (if SquareSet.has (Context.blockers c) sq
              then r <- ray sq k ;; Ret (SquareSet.intersect P2 r)
              else Ret P2) = Ret d' ->
             within d' P1
             /\ (SquareSet.has (Context.blockers c) sq = true ->
                 forall i, 0 <= i < 64 -> SquareSet.has d' i = true ->
                   exists r, ray sq k = Ret r /\ SquareSet.has r i = true)).
  { intros P2 d' H2 Hd. destruct (SquareSet.has (Context.blockers c) sq).
    - destruct (ray sq k) as [r|]; cbn [bind] in Hd; [|discriminate Hd].
      injection Hd as <-. split.
      + eapply within_trans; [apply within_intersect_l | exact H2].
      + intros _ i Hi Hm. exists r. split; [reflexivity|].
        rewrite has_intersect in Hm by assumption.
        apply andb_true_iff in Hm as [_ Hm]. exact Hm.
    - injection Hd as <-. split; [exact H2 | discriminate]. }
  destruct (SquareSet.nonEmpty (Context.checkers c)) eqn:Ene.
  - unfold SquareSet.singleSquare in H.
    destruct (SquareSet.moreThanOne (Context.checkers c)) eqn:Emo.
    + injection H as <-. split; [apply within_empty|]. split; [exact H1|].
      split; [exact HE1|]. split; [reflexivity|].
      intros _ i Hi Hm. rewrite has_empty in Hm by assumption. discriminate Hm.
    + destruct (SquareSet.last (Context.checkers c)) as [checker|].
      * destruct (between checker k) as [bt|]; cbn [bind] in H; [|discriminate H].
        cbv zeta in H.
        destruct (Hblock _ _ (within_intersect_l _ _) H) as [Hw Hr].
        split; [exact Hw|]. split; [exact H1|]. split; [exact HE1|].
        split; [discriminate | exact Hr].
      * injection H as <-. split; [apply within_empty|]. split; [exact H1|].
        split; [exact HE1|]. split; [reflexivity|].
        intros _ i Hi Hm. rewrite has_empty in Hm by assumption. discriminate Hm.
  - destruct (Hblock _ _ (within_refl _) H) as [Hw Hr].
    split; [exact Hw|]. split; [exact H1|]. split; [exact HE1|].
    split; [|exact Hr].
    intros Hmo. apply moreThanOne_nonEmpty in Hmo. congruence.
Qed.

(** Whatever [dests] returns for a square lies on no square of the side
    to move, and it is empty unless the square holds a piece of the side
    to move.  While the context knows the king, it is empty when there is
    more than one checker, and for a piece on a blocker square it lies on
    the piece's ray with the king. *)
Theorem dests_bounds (pos : Position.t) (square : Square)
    (ctx : option Context.t) (d : SquareSet.t) :
  Position.dests pos square ctx = Ret d ->
  (forall i, 0 <= i < 64 -> SquareSet.has d i = true ->
     SquareSet.has (Board.byColor (Position.board pos) (Position.turn pos)) i
     = false)
  /\ (d <> SquareSet.empty ->
      exists piece, Board.get (Position.board pos) square = Ret (Some piece)
                    /\ color piece = Position.turn pos)
  /\ (forall c k,
        Position.ctxOr pos ctx = Ret c -> Context.king c = Some k ->
        (SquareSet.moreThanOne (Context.checkers c) = true -> d = SquareSet.empty)
        /\ (SquareSet.has (Context.blockers c) square = true ->
            forall i, 0 <= i < 64 -> SquareSet.has d i = true ->
              exists r, ray square k = Ret r /\ SquareSet.has r i = true)).
Proof.
  intros H. destruct (dests_result pos square ctx d H)
    as (c' & Hc' & [-> | (piece & pseudo & P1 & _ & Hget & Hc & Hw & Hw1 & Hking)]).
  - split; [|split; [intros Hne; contradiction|]].
    + intros i Hi Hd. rewrite has_empty in Hd by assumption. discriminate Hd.
    + intros c k _ _. split; [reflexivity|]. intros _ i Hi Hd.
      rewrite has_empty in Hd by assumption. discriminate Hd.
  - split; [|split].
    + intros i Hi Hd. apply Hw in Hd; [|exact Hi]. apply Hw1 in Hd; [|exact Hi].
      rewrite has_diff in Hd by assumption.
      apply andb_true_iff in Hd as [_ Hd]. apply negb_true_iff in Hd. exact Hd.
    + intros _. exists piece. split; assumption.
    + intros c k Hc0 Hk. rewrite Hc0 in Hc'. injection Hc' as <-.
      cbv zeta in Hking. rewrite Hk in Hking. destruct Hking as (_ & Hmo & Hbl).
      split; assumption.
Qed.

Lemma dests_bounds_rook_a1 :
  (forall i, 0 <= i < 64 ->
     SquareSet.has (SquareSet.new 0x0101010E 0x01010101) i = true ->
     SquareSet.has (Board.byColor (Position.board (whiteToMove rookEndingBoard))
                      (Position.turn (whiteToMove rookEndingBoard))) i
     = false)
  /\ (SquareSet.new 0x0101010E 0x01010101 <> SquareSet.empty ->
      exists piece,
        Board.get (Position.board (whiteToMove rookEndingBoard)) 0 = Ret (Some piece)
        /\ color piece = Position.turn (whiteToMove rookEndingBoard))
  /\ (forall c k,
        Position.ctxOr (whiteToMove rookEndingBoard) None = Ret c ->
        Context.king c = Some k ->
        (SquareSet.moreThanOne (Context.checkers c) = true ->
         SquareSet.new 0x0101010E 0x01010101 = SquareSet.empty)
        /\ (SquareSet.has (Context.blockers c) 0 = true ->
            forall i, 0 <= i < 64 ->
              SquareSet.has (SquareSet.new 0x0101010E 0x01010101) i = true ->
              exists r, ray 0 k = Ret r /\ SquareSet.has r i = true)).
Proof.
  apply (dests_bounds (whiteToMove rookEndingBoard) 0 None
           (SquareSet.new 0x0101010E 0x01010101)).
  vm_compute. reflexivity.
Defined.

(** A king is never given a destination on which [kingAttackers] finds
    an attacker once the king is lifted off its square: for every
    destination [dests] returns for a king, while the context knows the
    king of the side to move, the attackers of that square are computed
    and empty. *)
Theorem king_dests_not_attacked (pos : Position.t) (square : Square)
    (ctx : option Context.t) (c : Context.t) (k : Square) (piece : Piece)
    (d : SquareSet.t) :
  Position.dests pos square ctx = Ret d ->
  Position.ctxOr pos ctx = Ret c ->
  Context.king c = Some k ->
  Board.get (Position.board pos) square = Ret (Some piece) ->
  role piece = Some king ->
  forall to, 0 <= to < 64 -> SquareSet.has d to = true ->
    exists a,
      Position.kingAttackers pos to (opposite (Position.turn pos))
        (SquareSet.without (Board.occupied (Position.board pos)) square) = Ret a
      /\ SquareSet.nonEmpty a = false.
Proof.
  intros H Hc Hk Hget Hrole to Hto Hd.
  destruct (dests_result pos square ctx d H)
    as (c' & Hc' & [-> | (piece' & pseudo & P1 & _ & Hget' & _ & Hw & Hw1 & Hking)]).
  - rewrite has_empty in Hd by assumption. discriminate Hd.
  - rewrite Hc in Hc'. injection Hc' as <-.
    rewrite Hget in Hget'. injection Hget' as <-.
    cbv zeta in Hking. rewrite Hk, Hrole in Hking. destruct Hking as (Hf & _).
    apply Hw in Hd; [|exact Hto].
    apply (kingFilter_safe _ _ _ _ _ Hf to); [|exact Hto | exact Hd].
    apply squares_members; [apply wf_new|]. split; [exact Hto|].
    apply Hw1; assumption.
Qed.

Lemma king_dests_not_attacked_rook_ending :
  exists a,
    Position.kingAttackers (whiteToMove rookEndingBoard) 3
      (opposite (Position.turn (whiteToMove rookEndingBoard)))
      (SquareSet.without (Board.occupied (Position.board (whiteToMove rookEndingBoard)))
         4) = Ret a
    /\ SquareSet.nonEmpty a = false.
Proof.
  apply (king_dests_not_attacked (whiteToMove rookEndingBoard) 4 None
           (Context.mk (Some 4) SquareSet.empty SquareSet.empty false false) 4
           (mkPiece (Some king) white None) (SquareSet.new 14376 0));
    [vm_compute; reflexivity | vm_compute; reflexivity | reflexivity
    | vm_compute; reflexivity | reflexivity | lia | vm_compute; reflexivity].
Defined.

(* ===================================================================== *)
(** ** [allDests], [hasDests] and the end of the game *)
(* ===================================================================== *)

Lemma ctxOr_Some pos c : Position.ctxOr pos (Some c) = Ret c.
Proof. reflexivity. Qed.

Lemma allDests_from_spec pos c sqs :
  forall l,
    Position.allDests_from pos c sqs = Ret l ->
    map fst l = sqs
    /\ (forall sq d, In (sq, d) l -> Position.dests pos sq (Some c) = Ret d)
    /\ Position.hasDests_from pos c sqs
       = Ret (existsb (fun e => SquareSet.nonEmpty (snd e)) l).
Proof.
  induction sqs as [|sq sqs IH]; intros l H; cbn [Position.allDests_from] in H.
  - injection H as <-. split; [reflexivity|]. split; [intros ? ? []|reflexivity].
  - destruct (Position.dests pos sq (Some c)) as [d|] eqn:Ed; cbn [bind] in H;
      [|discriminate H].
    destruct (Position.allDests_from pos c sqs) as [ds|]; cbn [bind] in H;
      [|discriminate H].
    injection H as <-. destruct (IH ds eq_refl) as (Hk & Hd & Hh).
    split; [cbn [map fst]; rewrite Hk; reflexivity|]. split.
    + intros sq' d' [E | Hin]; [injection E as <- <-; exact Ed | apply Hd; exact Hin].
    + cbn [Position.hasDests_from existsb snd]. rewrite Ed. cbn [bind].
      destruct (SquareSet.nonEmpty d); [reflexivity | exact Hh].
Qed.

Lemma hasDests_from_variantEnd pos c sqs :
  Context.variantEnd c = true -> Position.hasDests_from pos c sqs = Ret false.
Proof.
  intros Hve. induction sqs as [|sq sqs IH]; [reflexivity|].
  cbn [Position.hasDests_from]. unfold Position.dests at 1.
  cbn [Position.ctxOr bind]. rewrite Hve. cbn [bind].
  change (SquareSet.nonEmpty SquareSet.empty) with false. cbv iota. exact IH.
Qed.

(** When [allDests] returns, its keys are the squares of the side to
    move in the order of iteration, each entry holds what [dests] returns
    for its square, and [hasDests] answers whether some entry is
    non-empty. *)
Theorem allDests_lists_dests (pos : Position.t) (ctx : option Context.t)
    (c : Context.t) (l : list (Square * SquareSet.t)) :
  Position.allDests pos ctx = Ret l ->
  Position.ctxOr pos ctx = Ret c ->
  (Context.variantEnd c = false ->
   map fst l
   = SquareSet.squares (Board.byColor (Position.board pos) (Position.turn pos)))
  /\ (forall sq d, In (sq, d) l -> Position.dests pos sq (Some c) = Ret d)
  /\ Position.hasDests pos ctx
     = Ret (existsb (fun e => SquareSet.nonEmpty (snd e)) l).
Proof.
  intros H Hc. unfold Position.allDests in H. unfold Position.hasDests.
  rewrite Hc in *. cbn [bind] in *.
  destruct (Context.variantEnd c) eqn:Eve.
  - injection H as <-. split; [discriminate|]. split; [intros ? ? []|].
    apply hasDests_from_variantEnd. exact Eve.
  - destruct (allDests_from_spec _ _ _ _ H) as (Hk & Hd & Hh).
    split; [intros _; exact Hk|]. split; [exact Hd | exact Hh].
Qed.

Lemma allDests_lists_dests_rook_ending :
  (Context.variantEnd
     (Context.mk (Some 4) SquareSet.empty SquareSet.empty false false) = false ->
   map fst [(0, SquareSet.new 0x0101010E 0x01010101); (4, SquareSet.new 14376 0)]
   = SquareSet.squares
       (Board.byColor (Position.board (whiteToMove rookEndingBoard))
          (Position.turn (whiteToMove rookEndingBoard))))
  /\ (forall sq d,
        In (sq, d)
           [(0, SquareSet.new 0x0101010E 0x01010101); (4, SquareSet.new 14376 0)] ->
        Position.dests (whiteToMove rookEndingBoard) sq
          (Some (Context.mk (Some 4) SquareSet.empty SquareSet.empty false false))
        = Ret d)
  /\ Position.hasDests (whiteToMove rookEndingBoard) None
     = Ret (existsb (fun e => SquareSet.nonEmpty (snd e))
              [(0, SquareSet.new 0x0101010E 0x01010101); (4, SquareSet.new 14376 0)]).
Proof.
  apply (allDests_lists_dests (whiteToMove rookEndingBoard) None
           (Context.mk (Some 4) SquareSet.empty SquareSet.empty false false)
           [(0, SquareSet.new 0x0101010E 0x01010101); (4, SquareSet.new 14376 0)]);
    vm_compute; reflexivity.
Defined.

Lemma hasDests_eq pos ctx c :
  Position.ctxOr pos ctx = Ret c ->
  Position.hasDests pos ctx = Position.hasDests pos (Some c).
Proof.
  intros Hc. unfold Position.hasDests. rewrite Hc. reflexivity.
Qed.

Lemma isCheckmate_inv pos ctx :
  Position.isCheckmate pos ctx = Ret true ->
  exists c, Position.ctxOr pos ctx = Ret c
            /\ Context.variantEnd c = false
            /\ SquareSet.nonEmpty (Context.checkers c) = true
            /\ Position.hasDests pos (Some c) = Ret false.
Proof.
  intros H. unfold Position.isCheckmate in H.
  destruct (Position.ctxOr pos ctx) as [c|]; cbn [bind] in H; [|discriminate H].
  exists c. split; [reflexivity|].
  destruct (Context.variantEnd c); cbn [negb andb] in H; [discriminate H|].
  destruct (SquareSet.nonEmpty (Context.checkers c)); [|discriminate H].
  destruct (Position.hasDests pos (Some c)) as [h|]; cbn [bind] in H; [|discriminate H].
  destruct h; [discriminate H|]. repeat split.
Qed.

(** A checkmate is no stalemate, it ends the game, and [outcome] names
    the side that is not to move as the winner. *)
Theorem checkmate_consequences (pos : Position.t) (ctx : option Context.t) :
  Position.isCheckmate pos ctx = Ret true ->
  Position.isStalemate pos ctx = Ret false
  /\ Position.hasDests pos ctx = Ret false
  /\ Position.isEnd pos ctx = Ret true
  /\ Position.outcome pos ctx
     = Ret (Some (mkOutcome (Some (opposite (Position.turn pos))))).
Proof.
  intros H. pose proof H as H'.
  apply isCheckmate_inv in H as (c & Hc & Hve & Hne & Hh).
  assert (Hh' : Position.hasDests pos ctx = Ret false).
  { rewrite (hasDests_eq pos ctx c Hc). exact Hh. }
  split; [|split; [exact Hh'|split]].
  - unfold Position.isStalemate. rewrite Hc. cbn [bind].
    rewrite isEmpty_nonEmpty, Hne, Hve. reflexivity.
  - unfold Position.isEnd.
    assert (E : match ctx with
                | Some c0 => Context.variantEnd c0
                | None => Position.isVariantEnd pos
                end = false).
    { destruct ctx as [c0|]; [|reflexivity].
      cbn [Position.ctxOr] in Hc. injection Hc as ->. exact Hve. }
    rewrite E. destruct (Position.isInsufficientMaterial pos); [reflexivity|].
    rewrite Hh'. reflexivity.
  - unfold Position.outcome. cbn [Position.variantOutcome]. rewrite Hc. cbn [bind].
    unfold Position.isCheckmate. cbn [Position.ctxOr bind].
    rewrite Hve, Hne, Hh. reflexivity.
Qed.

Lemma checkmate_consequences_double_rook :
  Position.isStalemate (whiteToMove doubleRookCheckBoard) None = Ret false
  /\ Position.hasDests (whiteToMove doubleRookCheckBoard) None = Ret false
  /\ Position.isEnd (whiteToMove doubleRookCheckBoard) None = Ret true
  /\ Position.outcome (whiteToMove doubleRookCheckBoard) None
     = Ret (Some (mkOutcome
                    (Some (opposite (Position.turn (whiteToMove doubleRookCheckBoard)))))).
Proof.
  apply (checkmate_consequences (whiteToMove doubleRookCheckBoard) None).
  vm_compute. reflexivity.
Defined.

Lemma bind_Ret_inv {A B} (m : M A) (f : A -> M B) (b : B) :
  bind m f = Ret b -> exists a, m = Ret a /\ f a = Ret b.
Proof.
  destruct m as [a|e]; cbn [bind]; intros H; [|discriminate H].
  exists a. split; [reflexivity | exact H].
Qed.

Lemma ctx_Some pos k :
  Board.kingOf (Position.board pos) (Position.turn pos) = Some k ->
  Position.ctx pos
  = (r <- rookAttacks k SquareSet.empty ;;
     blockers <- Position.ctx_blockers pos k
                   (SquareSet.squares
                      (SquareSet.intersect r
                         (Board.byColor (Position.board pos)
                            (opposite (Position.turn pos)))))
                   SquareSet.empty ;;
     checkers <- Position.kingAttackers pos k (opposite (Position.turn pos))
                   (Board.occupied (Position.board pos)) ;;
     Ret (Context.mk (Some k) blockers checkers (Position.isVariantEnd pos) false)).
Proof. intros Hk. unfold Position.ctx. rewrite Hk. reflexivity. Qed.

(** [isCheck] and the checkers of [ctx] agree: when both return,
    [isCheck] is true exactly when the context has a checker. *)
Theorem isCheck_matches_ctx (pos : Position.t) (b : bool) (c : Context.t) :
  Position.isCheck pos = Ret b ->
  Position.ctx pos = Ret c ->
  b = SquareSet.nonEmpty (Context.checkers c)
  /\ Context.king c = Board.kingOf (Position.board pos) (Position.turn pos).
Proof.
  intros Hb Hc.
  destruct (Board.kingOf (Position.board pos) (Position.turn pos)) as [k|] eqn:Hk.
  - rewrite (ctx_Some pos k Hk) in Hc.
    apply bind_Ret_inv in Hc as (r & _ & Hc).
    apply bind_Ret_inv in Hc as (bl & _ & Hc).
    apply bind_Ret_inv in Hc as (a & Ha & Hc).
    injection Hc as <-.
    unfold Position.isCheck in Hb. rewrite Hk, Ha in Hb. injection Hb as <-.
    split; reflexivity.
  - unfold Position.isCheck in Hb. unfold Position.ctx in Hc. rewrite Hk in Hb, Hc.
    injection Hb as <-. injection Hc as <-. split; reflexivity.
Qed.

Lemma isCheck_matches_ctx_double_rook :
  true
  = SquareSet.nonEmpty
      (Context.checkers
         (Context.mk (Some 4) SquareSet.empty
            (SquareSet.union (SquareSet.fromSquare 0) (SquareSet.fromSquare 60))
            false false))
  /\ Context.king
       (Context.mk (Some 4) SquareSet.empty
          (SquareSet.union (SquareSet.fromSquare 0) (SquareSet.fromSquare 60))
          false false)
     = Board.kingOf (Position.board (whiteToMove doubleRookCheckBoard))
         (Position.turn (whiteToMove doubleRookCheckBoard)).
Proof.
  apply (isCheck_matches_ctx (whiteToMove doubleRookCheckBoard) true
           (Context.mk (Some 4) SquareSet.empty
              (SquareSet.union (SquareSet.fromSquare 0) (SquareSet.fromSquare 60))
              false false));
    vm_compute; reflexivity.
Defined.

(* ===================================================================== *)
(** ** Coordinates, square names and UCI moves *)
(* ===================================================================== *)

Lemma squareFile_mod sq : 0 <= sq < 64 -> squareFile sq = sq mod 8.
Proof.
  intros Hsq. pattern sq. apply square_cases; [|exact Hsq].
  intros n Hn. do 64 (destruct n as [|n]; [vm_compute; reflexivity|]). lia.
Qed.

Lemma squareRank_div sq : 0 <= sq < 64 -> squareRank sq = sq / 8.
Proof.
  intros Hsq. pattern sq. apply square_cases; [|exact Hsq].
  intros n Hn. do 64 (destruct n as [|n]; [vm_compute; reflexivity|]). lia.
Qed.

Lemma squareFromCoords_inv file rank sq :
  squareFromCoords file rank = Some sq ->
  0 <= file < 8 /\ 0 <= rank < 8 /\ sq = file + 8 * rank.
Proof.
  unfold squareFromCoords.
  destruct (Z.leb_spec 0 file), (Z.ltb_spec file 8), (Z.leb_spec 0 rank),
    (Z.ltb_spec rank 8); cbn [andb]; intros E; try discriminate E.
  assert (Es : sq = file + 8 * rank) by congruence. lia.
Qed.

Lemma squareFromCoords_on_board sq :
  0 <= sq < 64 -> squareFromCoords (sq mod 8) (sq / 8) = Some sq.
Proof.
  intros Hsq. unfold squareFromCoords.
  pose proof (Z.mod_pos_bound sq 8 ltac:(lia)) as Hm.
  assert (Hd : 0 <= sq / 8 < 8).
  { split; [apply Z.div_pos; lia | apply Z.div_lt_upper_bound; lia]. }
  destruct (Z.leb_spec 0 (sq mod 8)), (Z.ltb_spec (sq mod 8) 8),
    (Z.leb_spec 0 (sq / 8)), (Z.ltb_spec (sq / 8) 8); try lia.
  cbn [andb]. f_equal. rewrite (Z.div_mod sq 8) at 3 by lia. lia.
Qed.

Lemma coords_of_sum file rank :
  0 <= file < 8 -> 0 <= rank < 8 ->
  0 <= file + 8 * rank < 64
  /\ (file + 8 * rank) mod 8 = file /\ (file + 8 * rank) / 8 = rank.
Proof.
  intros Hf Hr. split; [lia|].
  replace (file + 8 * rank) with (file + rank * 8) by lia.
  rewrite Z.mod_add, Z.div_add by lia.
  rewrite Z.mod_small, Z.div_small by lia. lia.
Qed.

Lemma makeSquare_chars sq :
  0 <= sq < 64 -> makeSquare sq = [97 + sq mod 8; 49 + sq / 8].
Proof.
  intros Hsq. pattern sq. apply square_cases; [|exact Hsq].
  intros n Hn. do 64 (destruct n as [|n]; [vm_compute; reflexivity|]). lia.
Qed.

Lemma parseSquare_makeSquare sq :
  0 <= sq < 64 -> parseSquare (makeSquare sq) = Some sq.
Proof.
  intros Hsq. rewrite makeSquare_chars by exact Hsq. unfold parseSquare.
  replace (97 + sq mod 8 - 97) with (sq mod 8) by lia.
  replace (49 + sq / 8 - 49) with (sq / 8) by lia.
  apply squareFromCoords_on_board. exact Hsq.
Qed.

Lemma makeSquare_parseSquare str sq :
  parseSquare str = Some sq -> 0 <= sq < 64 /\ makeSquare sq = str.
Proof.
  unfold parseSquare. destruct str as [|c0 [|c1 [|c2 rest]]]; try discriminate.
  intros H. apply squareFromCoords_inv in H as (Hf & Hr & ->).
  destruct (coords_of_sum _ _ Hf Hr) as (Hb & Em & Ed).
  split; [exact Hb|]. rewrite makeSquare_chars by exact Hb.
  rewrite Em, Ed. f_equal; [lia|]. f_equal. lia.
Qed.

(** On the board [squareFile] and [squareRank] are the remainder and the
    quotient of the square by 8; [squareFromCoords] returns the square
    for exactly this file and rank; and [parseSquare] and [makeSquare]
    are inverse to each other: the name of the square parses back to it,
    and no other string parses to it. *)
Theorem coordinates_and_names_roundtrip (sq : Square) :
  0 <= sq < 64 ->
  squareFile sq = sq mod 8 /\ squareRank sq = sq / 8
  /\ (forall file rank,
        squareFromCoords file rank = Some sq <->
        file = squareFile sq /\ rank = squareRank sq)
  /\ (forall str, parseSquare str = Some sq <-> str = makeSquare sq).
Proof.
  intros Hsq. rewrite squareFile_mod, squareRank_div by exact Hsq.
  split; [reflexivity|]. split; [reflexivity|]. split.
  - intros file rank. split.
    + intros H. apply squareFromCoords_inv in H as (Hf & Hr & ->).
      destruct (coords_of_sum file rank Hf Hr) as (_ & Em & Ed).
      rewrite Em, Ed. split; reflexivity.
    + intros [-> ->]. apply squareFromCoords_on_board. exact Hsq.
  - intros str. split.
    + intros H. apply makeSquare_parseSquare in H as [_ H]. symmetry. exact H.
    + intros ->. apply parseSquare_makeSquare. exact Hsq.
Qed.

Lemma coordinates_and_names_roundtrip_d4 :
  squareFile 27 = 27 mod 8 /\ squareRank 27 = 27 / 8
  /\ (forall file rank,
        squareFromCoords file rank = Some 27 <->
        file = squareFile 27 /\ rank = squareRank 27)
  /\ (forall str, parseSquare str = Some 27 <-> str = makeSquare 27).
Proof. apply (coordinates_and_names_roundtrip 27). lia. Defined.

Lemma charToRole_roleToChar r : charToRole (roleToChar r) = Some (readBackRole r).
Proof. destruct r; reflexivity. Qed.

Lemma toLowerCase_not_M s : isAscii s -> strEqb (toLowerCase s) [77] = false.
Proof.
  intros _. destruct s as [|c [|c' rest]]; [reflexivity | |].
  - cbn [toLowerCase map strEqb]. rewrite andb_true_r.
    destruct (Z.leb_spec 65 c), (Z.leb_spec c 90); cbn [andb];
      apply Z.eqb_neq; lia.
  - cbn [toLowerCase map strEqb]. apply andb_false_r.
Qed.

Lemma charToRole_never_promotedpawn ch :
  isAscii ch -> charToRole ch <> Some promotedpawn.
Proof.
  intros Ha. unfold charToRole. cbv zeta.
  rewrite (toLowerCase_not_M ch Ha).
  repeat match goal with
         | |- context [if ?b then _ else _] => destruct b; [discriminate|]
         end.
  discriminate.
Qed.

Lemma parseUci_makeUci move :
  0 <= from move < 64 -> 0 <= to move < 64 ->
  parseUci (makeUci move)
  = Some (mkMove (from move) (to move) (option_map readBackRole (promotion move))).
Proof.
  intros Hf Ht. destruct move as [f t promo]. cbn [from to promotion] in *.
  pose proof (parseSquare_makeSquare f Hf) as Pf.
  pose proof (parseSquare_makeSquare t Ht) as Pt.
  unfold makeUci. cbn [from to promotion].
  rewrite (makeSquare_chars f Hf), (makeSquare_chars t Ht) in *.
  destruct promo as [r|].
  - assert (Er : exists c, roleToChar r = [c]) by (destruct r; eexists; reflexivity).
    destruct Er as [c Er]. pose proof (charToRole_roleToChar r) as Hc.
    rewrite Er in *. unfold parseUci.
    cbn [app length Nat.eqb orb slice Nat.sub skipn firstn].
    rewrite Pf, Pt, Hc. reflexivity.
  - unfold parseUci.
    cbn [app length Nat.eqb orb slice Nat.sub skipn firstn].
    rewrite Pf, Pt. reflexivity.
Qed.

(** Writing a move between squares of the board in UCI notation and
    parsing it back gives the move again, except that a promotion to
    [promotedpawn] comes back as [queen]: [charToRole] lower-cases its
    argument before comparing it with 'M', so on ASCII input it never
    returns [promotedpawn]. *)
Theorem uci_roundtrip (move : Move) (ch : JSString) :
  0 <= from move < 64 -> 0 <= to move < 64 -> isAscii ch ->
  parseUci (makeUci move)
  = Some (mkMove (from move) (to move) (option_map readBackRole (promotion move)))
  /\ (forall r, charToRole (roleToChar r) = Some (readBackRole r))
  /\ charToRole ch <> Some promotedpawn.
Proof.
  intros Hf Ht Ha. split; [apply parseUci_makeUci; assumption|].
  split; [apply charToRole_roleToChar | apply charToRole_never_promotedpawn; exact Ha].
Qed.

Lemma uci_roundtrip_promotion :
  parseUci (makeUci (mkMove 48 56 (Some promotedpawn)))
  = Some (mkMove (from (mkMove 48 56 (Some promotedpawn)))
            (to (mkMove 48 56 (Some promotedpawn)))
            (option_map readBackRole (promotion (mkMove 48 56 (Some promotedpawn)))))
  /\ (forall r, charToRole (roleToChar r) = Some (readBackRole r))
  /\ charToRole [77] <> Some promotedpawn.
Proof.
  apply (uci_roundtrip (mkMove 48 56 (Some promotedpawn)) [77]);
    [cbn; lia | cbn; lia |].
  intros c [<- | []]. lia.
Defined.

(* ===================================================================== *)
(** ** [size] counts the members *)
(* ===================================================================== *)

Lemma pow2_pos w : 0 <= w -> 0 < 2 ^ w.
Proof. intros. apply Z.pow_pos_nonneg; lia. Qed.

Lemma testbit_low_high w x y k :
  0 <= w -> 0 <= x < 2 ^ w -> 0 <= k ->
  Z.testbit (x + 2 ^ w * y) k
  = if k <? w then Z.testbit x k else Z.testbit y (k - w).
Proof.
  intros Hw Hx Hk. destruct (Z.ltb_spec k w).
  - rewrite <- (Z.mod_pow2_bits_low (x + 2 ^ w * y) w k) by lia.
    rewrite Z.mul_comm, Z.mod_add by lia. rewrite Z.mod_small by lia. reflexivity.
  - replace k with ((k - w) + w) at 1 by lia.
    rewrite <- Z.div_pow2_bits by lia.
    rewrite Z.mul_comm, Z.div_add by lia. rewrite Z.div_small by lia. reflexivity.
Qed.

Lemma land_low_high w a A m M :
  0 <= w -> 0 <= a < 2 ^ w -> 0 <= m < 2 ^ w ->
  Z.land (a + 2 ^ w * A) (m + 2 ^ w * M) = Z.land a m + 2 ^ w * Z.land A M.
Proof.
  intros Hw Ha Hm.
  assert (Hl : 0 <= Z.land a m < 2 ^ w).
  { split; [apply Z.land_nonneg; lia|].
    destruct (Z.eq_dec (Z.land a m) 0) as [E | Hnz]; [rewrite E; apply pow2_pos; lia|].
    apply Z.log2_lt_pow2; [pose proof (Z.land_nonneg a m); lia|].
    eapply Z.le_lt_trans; [apply Z.log2_land; lia|].
    apply Z.min_lt_iff. left.
    destruct (Z.eq_dec a 0) as [-> | Ha0]; [rewrite Z.land_0_l in Hnz; contradiction|].
    apply Z.log2_lt_pow2; lia. }
  apply Z.bits_inj'. intros k Hk.
  rewrite Z.land_spec, !testbit_low_high by assumption.
  destruct (k <? w); symmetry; apply Z.land_spec.
Qed.

Lemma shiftr_low_high w a A :
  0 <= w -> 0 <= a < 2 ^ w -> Z.shiftr (a + 2 ^ w * A) w = A.
Proof.
  intros Hw Ha. rewrite Z.shiftr_div_pow2 by assumption.
  rewrite Z.mul_comm, Z.div_add by lia. rewrite Z.div_small by lia. reflexivity.
Qed.

Lemma fields_cons w c cs : fields w (c :: cs) = c + 2 ^ w * fields w cs.
Proof. reflexivity. Qed.

Lemma fields_range w cs :
  0 <= w -> Forall (fun c => 0 <= c < 2 ^ w) cs ->
  0 <= fields w cs < 2 ^ (w * Z.of_nat (length cs)).
Proof.
  intros Hw H. induction H as [|c cs Hc _ IH].
  - cbn. rewrite Z.mul_0_r. cbn. lia.
  - rewrite fields_cons. cbn [length]. rewrite Nat2Z.inj_succ.
    replace (w * Z.succ (Z.of_nat (length cs))) with (w + w * Z.of_nat (length cs)) by lia.
    rewrite Z.pow_add_r by lia. pose proof (pow2_pos w Hw). nia.
Qed.

Lemma land_mask_small w c : 0 <= w -> 0 <= c < 2 ^ w -> Z.land c (2 ^ w - 1) = c.
Proof.
  intros Hw Hc. replace (2 ^ w - 1) with (Z.ones w)
    by (rewrite Z.ones_equiv; lia).
  rewrite Z.land_ones by assumption. apply Z.mod_small. exact Hc.
Qed.

Lemma land_altMask w cs :
  0 <= w -> Forall (fun c => 0 <= c < 2 ^ w) cs ->
  forall keep n, (length cs <= n)%nat ->
    Z.land (fields w cs) (altMask keep w n) = fields w (alt keep cs).
Proof.
  intros Hw H. induction H as [|c cs Hc _ IH]; intros keep n Hn.
  - reflexivity.
  - destruct n as [|n]; [cbn [length] in Hn; lia|].
    cbn [altMask alt]. rewrite !fields_cons.
    pose proof (pow2_pos w Hw).
    rewrite land_low_high by (try assumption; destruct keep; lia).
    rewrite IH by (cbn [length] in Hn; lia).
    destruct keep; [rewrite land_mask_small by assumption | rewrite Z.land_0_r];
      reflexivity.
Qed.

Lemma shiftr_fields w cs :
  0 <= w -> Forall (fun c => 0 <= c < 2 ^ w) cs ->
  Z.shiftr (fields w cs) w = fields w (tl cs).
Proof.
  intros Hw H. destruct H as [|c cs Hc _]; [apply Z.shiftr_0_l|].
  rewrite fields_cons. apply shiftr_low_high; assumption.
Qed.

Lemma fields_alt_split w cs :
  forall keep, fields w cs = fields w (alt keep cs) + fields w (alt (negb keep) cs).
Proof.
  induction cs as [|c cs IH]; intros keep; [reflexivity|].
  cbn [alt]. destruct keep; cbn [negb]; rewrite !fields_cons;
    [rewrite (IH false) | rewrite (IH true)]; cbn [negb]; ring.
Qed.

Lemma fields_alt_false w cs :
  fields w (alt false cs) = 2 ^ w * fields w (alt true (tl cs)).
Proof.
  destruct cs as [|c cs]; [cbn; ring|]. cbn [alt tl negb]. rewrite fields_cons. ring.
Qed.

Lemma pair_ind (P : list Z -> Prop) :
  P [] -> (forall a, P [a]) -> (forall a b r, P r -> P (a :: b :: r)) ->
  forall l, P l.
Proof.
  intros H0 H1 H2 l.
  assert (H : P l /\ forall a, P (a :: l)).
  { induction l as [|b l [IHl IHc]]; [split; [exact H0 | exact H1]|].
    split; [apply IHc|]. intros a. apply H2. exact IHl. }
  exact (proj1 H).
Qed.

Lemma fields_pairSum w cs :
  0 <= w ->
  fields w (alt true cs) + fields w (alt true (tl cs)) = fields (2 * w) (pairSum cs).
Proof.
  intros Hw. induction cs as [| a | a b r IH] using pair_ind.
  - reflexivity.
  - cbn. ring.
  - cbn [alt tl negb pairSum]. rewrite !fields_cons, fields_alt_false, <- IH.
    replace (2 * w) with (w + w) by lia. rewrite Z.pow_add_r by assumption. ring.
Qed.

Lemma sumZ_pairSum cs : sumZ (pairSum cs) = sumZ cs.
Proof.
  induction cs as [| a | a b r IH] using pair_ind; try reflexivity.
  cbn [pairSum]. unfold sumZ in *. cbn [fold_right]. rewrite IH. ring.
Qed.

Lemma range_pairSum B cs :
  0 <= B -> Forall (fun c => 0 <= c <= B) cs ->
  Forall (fun c => 0 <= c <= 2 * B) (pairSum cs).
Proof.
  intros HB. induction cs as [| a | a b r IH] using pair_ind; intros H.
  - constructor.
  - inversion H; subst. constructor; [lia | constructor].
  - inversion H as [|? ? Ha H']; subst. inversion H' as [|? ? Hb H'']; subst.
    cbn [pairSum]. constructor; [lia | apply IH; exact H''].
Qed.

Lemma fields_addNext w cs :
  fields w cs + fields w (tl cs) = fields w (addNext cs).
Proof.
  induction cs as [|a cs IH]; [reflexivity|].
  cbn [tl addNext]. rewrite !fields_cons, <- IH.
  destruct cs as [|b cs]; cbn [hd tl]; rewrite ?fields_cons; cbn [fields fold_right]; ring.
Qed.

Lemma range_addNext B cs :
  0 <= B -> Forall (fun c => 0 <= c <= B) cs ->
  Forall (fun c => 0 <= c <= 2 * B) (addNext cs).
Proof.
  intros HB H. induction H as [|a cs Ha Hcs IH]; [constructor|].
  cbn [addNext]. constructor; [|exact IH].
  destruct Hcs as [|b cs Hb _]; cbn [hd]; lia.
Qed.

Lemma alt_addNext w cs :
  0 <= w -> fields w (alt true (addNext cs)) = fields (2 * w) (pairSum cs).
Proof.
  intros Hw. induction cs as [| a | a b r IH] using pair_ind.
  - reflexivity.
  - cbn. ring.
  - cbn [addNext alt negb hd pairSum]. rewrite !fields_cons, IH.
    replace (2 * w) with (w + w) by lia. rewrite Z.pow_add_r by assumption. ring.
Qed.

Lemma Forall_range_weaken B w cs :
  B < 2 ^ w -> Forall (fun c => 0 <= c <= B) cs ->
  Forall (fun c => 0 <= c < 2 ^ w) cs.
Proof.
  intros HB H. eapply Forall_impl; [|exact H]. cbv beta. intros c Hc. lia.
Qed.

(** *** The JavaScript operators on the values [popcnt32] meets *)

Lemma toUint32_small u : 0 <= u < 4294967296 -> JS.toUint32 u = u.
Proof. intros H. unfold JS.toUint32. apply Z.mod_small. exact H. Qed.

Lemma and_mask a m :
  0 <= m < 2147483648 -> JS.and a m = Z.land (JS.toUint32 a) m.
Proof.
  intros Hm. unfold JS.and. rewrite (toInt32_id m) by lia.
  apply Z.bits_inj'. intros k Hk. rewrite !Z.land_spec.
  destruct (Z.lt_ge_cases k 32).
  - rewrite testbit_toInt32, testbit_toUint32 by lia. reflexivity.
  - assert (E : Z.testbit m k = false).
    { destruct (Z.eq_dec m 0) as [-> | Hnz]; [apply Z.bits_0|].
      apply Z.bits_above_log2; [lia|].
      assert (Z.log2 m < 31) by (apply Z.log2_lt_pow2; [lia|]; cbn; lia). lia. }
    rewrite E, !andb_false_r. reflexivity.
Qed.

Lemma ushr_small a k : 0 <= k < 32 -> JS.ushr a k = Z.shiftr (JS.toUint32 a) k.
Proof. intros Hk. unfold JS.ushr. rewrite Z.mod_small by lia. reflexivity. Qed.

Lemma shiftr_range u k :
  0 <= k -> 0 <= u < 4294967296 -> 0 <= Z.shiftr u k < 4294967296.
Proof.
  intros Hk Hu. rewrite Z.shiftr_div_pow2 by assumption.
  pose proof (pow2_pos k Hk). split; [apply Z.div_pos; lia|].
  apply Z.div_lt_upper_bound; [lia|]. nia.
Qed.

Lemma toUint32_sub n m :
  0 <= JS.toUint32 n - m < 4294967296 -> JS.toUint32 (n - m) = JS.toUint32 n - m.
Proof.
  intros H. unfold JS.toUint32 in *.
  rewrite (Z.div_mod n 4294967296) at 1 by lia.
  replace (4294967296 * (n / 4294967296) + n mod 4294967296 - m)
    with ((n mod 4294967296 - m) + (n / 4294967296) * 4294967296) by ring.
  rewrite Z.mod_add by lia. apply Z.mod_small. exact H.
Qed.

Lemma length_pairSum cs : length (pairSum cs) = Nat.div2 (length cs + 1).
Proof.
  induction cs as [| a | a b r IH] using pair_ind; try reflexivity.
  cbn [pairSum length Nat.add Nat.div2]. rewrite IH. reflexivity.
Qed.

Lemma length_addNext cs : length (addNext cs) = length cs.
Proof. induction cs as [|a cs IH]; [reflexivity|]. cbn [addNext length]. rewrite IH. reflexivity. Qed.

Lemma length_tl_le {A : Type} (l : list A) : (length (tl l) <= length l)%nat.
Proof. destruct l; cbn [tl length]; lia. Qed.

Lemma Forall_tl {A : Type} (P : A -> Prop) (l : list A) : Forall P l -> Forall P (tl l).
Proof. intros H. destruct H; [constructor | assumption]. Qed.

(** The last step: multiplying by 0x01010101 adds the four bytes into
    the top byte. *)
Lemma shr_mul_bytes e0 e1 e2 e3 :
  0 <= e0 <= 8 -> 0 <= e1 <= 8 -> 0 <= e2 <= 8 -> 0 <= e3 <= 8 ->
  JS.shr (fields 8 [e0; e1; e2; e3] * 0x1010101) 24 = e0 + e1 + e2 + e3.
Proof.
  intros H0 H1 H2 H3. unfold JS.shr, fields. cbn [fold_right].
  change (2 ^ 8) with 256. change (24 mod 32) with 24.
  set (low := e0 + 256 * (e0 + e1) + 65536 * (e0 + e1 + e2)
              + 16777216 * (e0 + e1 + e2 + e3)).
  set (high := (e1 + e2 + e3) + 256 * (e2 + e3) + 65536 * e3).
  assert (E : JS.toInt32 ((e0 + 256 * (e1 + 256 * (e2 + 256 * (e3 + 256 * 0))))
                          * 0x1010101) = low).
  { unfold JS.toInt32.
    replace ((e0 + 256 * (e1 + 256 * (e2 + 256 * (e3 + 256 * 0)))) * 0x1010101
             + 2147483648)
      with ((low + 2147483648) + high * 4294967296) by (unfold low, high; ring).
    rewrite Z.mod_add by lia. rewrite Z.mod_small by (unfold low; lia). lia. }
  rewrite E. rewrite Z.shiftr_div_pow2 by lia. change (2 ^ 24) with 16777216.
  unfold low.
  replace (e0 + 256 * (e0 + e1) + 65536 * (e0 + e1 + e2)
           + 16777216 * (e0 + e1 + e2 + e3))
    with ((e0 + 256 * (e0 + e1) + 65536 * (e0 + e1 + e2))
          + (e0 + e1 + e2 + e3) * 16777216) by ring.
  rewrite Z.div_add by lia. rewrite Z.div_small by lia. lia.
Qed.

Lemma popcnt32_fields n cs :
  length cs = 32%nat -> Forall (fun c => 0 <= c <= 1) cs ->
  JS.toUint32 n = fields 1 cs ->
  popcnt32 n = sumZ cs.
Proof.
  intros Hlen Hcs Hu.
  set (ps := pairSum cs). set (pps := pairSum ps). set (es := pairSum pps).
  assert (Lps : length ps = 16%nat) by (unfold ps; rewrite length_pairSum, Hlen; reflexivity).
  assert (Lpps : length pps = 8%nat) by (unfold pps; rewrite length_pairSum, Lps; reflexivity).
  assert (Les : length es = 4%nat) by (unfold es; rewrite length_pairSum, Lpps; reflexivity).
  assert (Rps : Forall (fun c => 0 <= c <= 2) ps)
    by (apply (range_pairSum 1); [lia | exact Hcs]).
  assert (Rpps : Forall (fun c => 0 <= c <= 4) pps)
    by (apply (range_pairSum 2); [lia | exact Rps]).
  assert (Res : Forall (fun c => 0 <= c <= 8) es)
    by (apply (range_pairSum 4); [lia | exact Rpps]).
  assert (Fcs : Forall (fun c => 0 <= c < 2 ^ 1) cs)
    by (apply (Forall_range_weaken 1); [cbn; lia | exact Hcs]).
  assert (Fps : Forall (fun c => 0 <= c < 2 ^ 2) ps)
    by (apply (Forall_range_weaken 2); [cbn; lia | exact Rps]).
  assert (Fpps : Forall (fun c => 0 <= c < 2 ^ 4) pps)
    by (apply (Forall_range_weaken 4); [cbn; lia | exact Rpps]).
  (* first step: pairs of bits *)
  assert (M1 : JS.and (JS.ushr n 1) 0x55555555 = fields 1 (alt true (tl cs))).
  { rewrite and_mask by lia. rewrite ushr_small by lia. rewrite Hu.
    rewrite toUint32_small.
    - rewrite shiftr_fields by (try assumption; lia).
      change 0x55555555 with (altMask true 1 32).
      apply land_altMask; [lia | apply Forall_tl; exact Fcs |].
      pose proof (length_tl_le cs). lia.
    - apply shiftr_range; [lia|]. rewrite <- Hu. apply toUint32_range. }
  assert (V1 : JS.toUint32 n - JS.and (JS.ushr n 1) 0x55555555 = fields 2 ps).
  { rewrite M1, Hu. rewrite (fields_alt_split 1 cs true). cbn [negb].
    rewrite fields_alt_false. change (2 ^ 1) with 2.
    unfold ps. change (fields 2 (pairSum cs)) with (fields (2 * 1) (pairSum cs)).
    rewrite <- fields_pairSum by lia. ring. }
  assert (B1 : 0 <= fields 2 ps < 4294967296).
  { pose proof (fields_range 2 ps ltac:(lia) Fps) as H. rewrite Lps in H.
    exact H. }
  assert (U1 : JS.toUint32 (n - JS.and (JS.ushr n 1) 0x55555555) = fields 2 ps).
  { rewrite toUint32_sub; [exact V1 | rewrite V1; exact B1]. }
  (* second step: nibbles *)
  assert (V2 : forall n1, JS.toUint32 n1 = fields 2 ps ->
                 JS.and n1 0x33333333 + JS.and (JS.ushr n1 2) 0x33333333
                 = fields 4 pps).
  { intros n1 E1. rewrite !and_mask by lia. rewrite ushr_small by lia. rewrite E1.
    rewrite (toUint32_small (Z.shiftr _ _)) by (apply shiftr_range; [lia | exact B1]).
    rewrite shiftr_fields by (try assumption; lia).
    change 0x33333333 with (altMask true 2 16).
    rewrite !land_altMask;
      [ | lia | apply Forall_tl; exact Fps | pose proof (length_tl_le ps); lia
        | lia | exact Fps | lia ].
    unfold pps. change (fields 4 (pairSum ps)) with (fields (2 * 2) (pairSum ps)).
    apply fields_pairSum. lia. }
  assert (B2 : 0 <= fields 4 pps < 4294967296).
  { pose proof (fields_range 4 pps ltac:(lia) Fpps) as H. rewrite Lpps in H.
    exact H. }
  (* third step: bytes *)
  assert (V3 : forall n2, n2 = fields 4 pps ->
                 JS.and (n2 + JS.ushr n2 4) 0xf0f0f0f = fields 8 es).
  { intros n2 ->. rewrite and_mask by lia. rewrite ushr_small by lia.
    rewrite (toUint32_small (fields 4 pps)) by exact B2.
    rewrite shiftr_fields by (try assumption; lia).
    rewrite fields_addNext.
    assert (Ra : Forall (fun c => 0 <= c < 2 ^ 4) (addNext pps)).
    { apply (Forall_range_weaken 8); [cbn; lia|].
      apply (range_addNext 4); [lia | exact Rpps]. }
    rewrite toUint32_small.
    - change 0xf0f0f0f with (altMask true 4 8).
      rewrite land_altMask; [ | lia | exact Ra | rewrite length_addNext; lia].
      unfold es. change (fields 8 (pairSum pps)) with (fields (2 * 4) (pairSum pps)).
      apply alt_addNext. lia.
    - pose proof (fields_range 4 (addNext pps) ltac:(lia) Ra) as H.
      rewrite length_addNext, Lpps in H. exact H. }
  unfold popcnt32. cbv zeta.
  rewrite (V3 _ (V2 _ U1)).
  destruct es as [|e0 [|e1 [|e2 [|e3 [|e4 rest]]]]] eqn:Ees; try discriminate Les.
  inversion Res as [|? ? H0 R1]; subst. inversion R1 as [|? ? H1 R2]; subst.
  inversion R2 as [|? ? H2 R3]; subst. inversion R3 as [|? ? H3 _]; subst.
  rewrite shr_mul_bytes by assumption.
  rewrite <- (sumZ_pairSum cs). fold ps. rewrite <- (sumZ_pairSum ps). fold pps.
  rewrite <- (sumZ_pairSum pps). fold es. rewrite Ees. cbn. ring.
Qed.

(** *** From the bits to the members *)

Lemma fields_fromBits l : fields 1 (map Z.b2z l) = fromBits l.
Proof.
  induction l as [|b l IH]; [reflexivity|].
  cbn [map fromBits]. rewrite fields_cons, IH. change (2 ^ 1) with 2. ring.
Qed.

Lemma bitsOf_map u n :
  bitsOf u n = map Z.b2z (map (Z.testbit u) (map Z.of_nat (seq 0 n))).
Proof. unfold bitsOf. rewrite !map_map. reflexivity. Qed.

Lemma fields_bitsOf u n :
  0 <= u < 2 ^ Z.of_nat n -> fields 1 (bitsOf u n) = u.
Proof.
  intros Hu. rewrite bitsOf_map, fields_fromBits.
  apply Z.bits_inj'. intros k Hk. rewrite testbit_fromBits by exact Hk.
  destruct (Z.lt_ge_cases k (Z.of_nat n)).
  - rewrite nth_map_range by lia. f_equal. lia.
  - rewrite nth_overflow by (rewrite !length_map, length_seq; lia).
    symmetry. destruct (Z.eq_dec u 0) as [-> | Hnz]; [apply Z.bits_0|].
    apply Z.bits_above_log2; [lia|].
    assert (Z.log2 u < Z.of_nat n) by (apply Z.log2_lt_pow2; lia). lia.
Qed.

Lemma sumZ_count {A : Type} (f : A -> bool) (l : list A) :
  sumZ (map (fun i => Z.b2z (f i)) l) = Z.of_nat (length (filter f l)).
Proof.
  induction l as [|x l IH]; [reflexivity|].
  cbn [map filter]. unfold sumZ in *. cbn [fold_right]. rewrite IH.
  destruct (f x); cbn [Z.b2z length]; lia.
Qed.

Lemma popcnt32_count n :
  popcnt32 n
  = Z.of_nat (length (filter (fun i => Z.testbit n (Z.of_nat i)) (seq 0 32))).
Proof.
  rewrite (popcnt32_fields n (bitsOf (JS.toUint32 n) 32)).
  - unfold bitsOf. rewrite sumZ_count. f_equal. f_equal.
    apply filter_ext_in. intros i Hi. apply in_seq in Hi.
    apply testbit_toUint32. lia.
  - unfold bitsOf. rewrite length_map, length_seq. reflexivity.
  - unfold bitsOf. apply Forall_forall. intros c Hc.
    apply in_map_iff in Hc as (i & <- & _).
    destruct (Z.testbit (JS.toUint32 n) (Z.of_nat i)); cbn; lia.
  - symmetry. apply fields_bitsOf. change (2 ^ Z.of_nat 32) with 4294967296.
    apply toUint32_range.
Qed.

Lemma filter_map_length {A B : Type} (f : B -> bool) (g : A -> B) (l : list A) :
  length (filter f (map g l)) = length (filter (fun x => f (g x)) l).
Proof.
  induction l as [|x l IH]; [reflexivity|].
  cbn [map filter]. destruct (f (g x)); cbn [length]; rewrite IH; reflexivity.
Qed.

Lemma size_memberCount s : SquareSet.size s = memberCount s.
Proof.
  unfold SquareSet.size, memberCount, allSquares.
  rewrite !popcnt32_count, filter_map_length.
  change (seq 0 64) with (seq 0 32 ++ map (Nat.add 32) (seq 0 32)).
  rewrite filter_app, length_app, filter_map_length, Nat2Z.inj_add.
  f_equal; f_equal; f_equal; apply filter_ext_in; intros i Hi; apply in_seq in Hi;
    rewrite has_testbit by lia.
  - destruct (Z.leb_spec 32 (Z.of_nat i)); [lia | reflexivity].
  - destruct (Z.leb_spec 32 (Z.of_nat (32 + i))); [|lia]. f_equal. lia.
Qed.

(** [size] is the number of members of the set: the bit-parallel count
    of [popcnt32] adds up, for each half, the squares the set holds.  It
    lies between 0 and 64. *)
Theorem size_counts_members (s : SquareSet.t) :
  SquareSet.size s = memberCount s /\ 0 <= SquareSet.size s <= 64.
Proof.
  rewrite size_memberCount. split; [reflexivity|]. unfold memberCount.
  pose proof (filter_length_le (SquareSet.has s) allSquares) as H.
  change (length allSquares) with 64%nat in H. lia.
Qed.
